(** * sketch.js: a shallow embedding and its verified properties

    The sketch is a p5.js animation.  Its own code (sketch.js) is embedded
    function by function; p5.js itself is the environment.

    - In the embedding of the sketch a JavaScript number is a real number
      ([R]): the sketch computes with [sin], [cos], [PI] and square roots.
      The program computes with IEEE doubles, so a value of the embedding
      stands for the program's value up to the rounding of the operations
      that compute it; bounds are stated with room for that rounding, and
      the theorems about the sketch do not depend on the number of rounds
      of a loop over a real counter (over the reals the loops of [drawBody]
      run 51 rounds, in doubles 50).  Where a claim is about an exact value,
      the part [Binary64] after the embedding computes with doubles.  NaN is
      outside the model: a read of [undefined] is a case of its own.
    - The sketch is imperative: a small state-and-exception monad [M] threads
      the sketch's globals and what p5 keeps (canvas size, pixel buffer, frame
      counter, loop flag, the store of [p5.Vector] objects referenced from
      the flow field).
    - Every p5 call with an effect on the canvas is recorded, in order, in
      the list [issued]; a call may throw, as decided by the oracle [faults].
    - [random()] reads the next value of the stream [randoms].
    - [window.onerror] (lines 116-125) only logs an error nobody caught; it
      is not part of the model. *)

From Stdlib Require Import Reals Lra Lia ZArith String List.
From stdpp Require Import base list.
Import ListNotations.
Open Scope R_scope.

(** ** Numbers *)

Definition Rltb (a b : R) : bool := if Rlt_dec a b then true else false.
Definition Rleb (a b : R) : bool := if Rle_dec a b then true else false.
Definition Rgtb (a b : R) : bool := Rltb b a.
Definition Rgeb (a b : R) : bool := Rleb b a.

Definition TWO_PI : R := 2 * PI.

(** The functions of p5.js the sketch calls, after p5's reference:
    [constrain(n, low, high)] is [max(min(n, high), low)],
    [map(n, a, b, c, d)] is [(n - a) / (b - a) * (d - c) + c],
    [dist] is the Euclidean distance. *)
Module p5.

Definition constrain (n low high : R) : R := Rmax (Rmin n high) low.

Definition map (n start1 stop1 start2 stop2 : R) : R :=
  (n - start1) / (stop1 - start1) * (stop2 - start2) + start2.

Definition dist (x1 y1 x2 y2 : R) : R :=
  sqrt ((x2 - x1) * (x2 - x1) + (y2 - y1) * (y2 - y1)).

Definition min (a b : R) : R := Rmin a b.

Definition floor (x : R) : Z := Zfloor x.

Definition ceil (x : R) : Z := Zceil x.

End p5.

(** ** p5.Vector, as a value

    The operations are those of p5 over the reals; [Binary64], further down,
    has [fromAngle], [mult] and [mag] over doubles. *)

Record Vec : Type := createVec { vx : R; vy : R }.

Module Vector.

Definition mult (v : Vec) (n : R) : Vec := createVec (vx v * n) (vy v * n).

Definition add (v w : Vec) : Vec := createVec (vx v + vx w) (vy v + vy w).

Definition fromAngle (angle : R) : Vec := createVec (cos angle) (sin angle).

Definition mag (v : Vec) : R := sqrt (vx v * vx v + vy v * vy v).

End Vector.

(** ** The sketch's data *)

(** An entry of [distortionField] (sketch.js lines 92-97). *)
Record Oscillator : Type := mkOscillator {
  frequency : R;
  amplitude : R;
  phase : R;
  speed : R
}.

(** A reference to a [p5.Vector] object in the store [vectors]. *)
Abbreviation loc := nat (only parsing).

(** An instance of [class FlowField].  [field] is a JavaScript array:
    [None] is an empty slot ([undefined]), [Some l] a reference to a vector. *)
Record FlowField : Type := mkFlowField {
  resolution : R;
  cols : Z;
  rows : Z;
  field : list (option loc);
  particleSpeed : R
}.

(** The p5 calls that act on the canvas, as recorded in [issued]. *)
Inductive Cmd : Type :=
| CreateCanvas (w h : R)
| PixelDensity (d : R)
| ColorModeRGB (maxR maxG maxB maxA : R)
| FrameRate (fps : R)
| Smooth
| ImageRenderingPixelated
| Background (r g b : R)
| Translate (x y : R)
| Push
| Pop
| NoStroke
| NoFill
| Stroke (color : list R)
| StrokeWeight (w : R)
| Fill (color : list R)
| BeginShape
| EndShape (close : bool)
| Vertex (x y : R)
| CurveVertex (x y : R)
| Ellipse (x y w h : R)
| Rect (x y w h : R)
| BlendModeOverlay
| CreateRadialGradient (x0 y0 r0 x1 y1 r1 : R)
| AddColorStop (offset : R) (r g b a : R)
| FillStyleGradient
| FillRect (x y w h : R)
| LoadPixels
| UpdatePixels (data : list Z)
| ResizeCanvas (w h : R).

(** A thrown JavaScript value. *)
Definition exn : Type := string.

(** A line written by [console.error]. *)
Inductive LogEntry : Type :=
| ConsoleError (message : string) (error : option exn).

Record State : Type := mkState {
  (* the globals of sketch.js, lines 4-8 *)
  flowfield : option FlowField;
  globalTime : R;
  emotionalIntensity : R;
  distortionField : list Oscillator;
  (* what p5 keeps *)
  width : R;
  height : R;
  frameCount : nat;
  pixels : list Z;
  looping : bool;
  (* the run-time *)
  vectors : list Vec;
  randoms : nat -> R;
  rpos : nat;
  faults : nat -> option exn;
  calls : nat;
  issued : list Cmd;
  console : list LogEntry
}.

Definition set_flowfield (v : option FlowField) (s : State) : State :=
  mkState v (globalTime s) (emotionalIntensity s) (distortionField s)
    (width s) (height s) (frameCount s) (pixels s) (looping s)
    (vectors s) (randoms s) (rpos s) (faults s) (calls s) (issued s) (console s).

Definition set_globalTime (v : R) (s : State) : State :=
  mkState (flowfield s) v (emotionalIntensity s) (distortionField s)
    (width s) (height s) (frameCount s) (pixels s) (looping s)
    (vectors s) (randoms s) (rpos s) (faults s) (calls s) (issued s) (console s).

Definition set_emotionalIntensity (v : R) (s : State) : State :=
  mkState (flowfield s) (globalTime s) v (distortionField s)
    (width s) (height s) (frameCount s) (pixels s) (looping s)
    (vectors s) (randoms s) (rpos s) (faults s) (calls s) (issued s) (console s).

Definition set_distortionField (v : list Oscillator) (s : State) : State :=
  mkState (flowfield s) (globalTime s) (emotionalIntensity s) v
    (width s) (height s) (frameCount s) (pixels s) (looping s)
    (vectors s) (randoms s) (rpos s) (faults s) (calls s) (issued s) (console s).

Definition set_size (w h : R) (s : State) : State :=
  mkState (flowfield s) (globalTime s) (emotionalIntensity s) (distortionField s)
    w h (frameCount s) (pixels s) (looping s)
    (vectors s) (randoms s) (rpos s) (faults s) (calls s) (issued s) (console s).

Definition set_frameCount (v : nat) (s : State) : State :=
  mkState (flowfield s) (globalTime s) (emotionalIntensity s) (distortionField s)
    (width s) (height s) v (pixels s) (looping s)
    (vectors s) (randoms s) (rpos s) (faults s) (calls s) (issued s) (console s).

Definition set_pixels (v : list Z) (s : State) : State :=
  mkState (flowfield s) (globalTime s) (emotionalIntensity s) (distortionField s)
    (width s) (height s) (frameCount s) v (looping s)
    (vectors s) (randoms s) (rpos s) (faults s) (calls s) (issued s) (console s).

Definition set_looping (v : bool) (s : State) : State :=
  mkState (flowfield s) (globalTime s) (emotionalIntensity s) (distortionField s)
    (width s) (height s) (frameCount s) (pixels s) v
    (vectors s) (randoms s) (rpos s) (faults s) (calls s) (issued s) (console s).

Definition set_vectors (v : list Vec) (s : State) : State :=
  mkState (flowfield s) (globalTime s) (emotionalIntensity s) (distortionField s)
    (width s) (height s) (frameCount s) (pixels s) (looping s)
    v (randoms s) (rpos s) (faults s) (calls s) (issued s) (console s).

Definition set_rpos (v : nat) (s : State) : State :=
  mkState (flowfield s) (globalTime s) (emotionalIntensity s) (distortionField s)
    (width s) (height s) (frameCount s) (pixels s) (looping s)
    (vectors s) (randoms s) v (faults s) (calls s) (issued s) (console s).

Definition set_calls (v : nat) (s : State) : State :=
  mkState (flowfield s) (globalTime s) (emotionalIntensity s) (distortionField s)
    (width s) (height s) (frameCount s) (pixels s) (looping s)
    (vectors s) (randoms s) (rpos s) (faults s) v (issued s) (console s).

Definition set_issued (v : list Cmd) (s : State) : State :=
  mkState (flowfield s) (globalTime s) (emotionalIntensity s) (distortionField s)
    (width s) (height s) (frameCount s) (pixels s) (looping s)
    (vectors s) (randoms s) (rpos s) (faults s) (calls s) v (console s).

Definition set_console (v : list LogEntry) (s : State) : State :=
  mkState (flowfield s) (globalTime s) (emotionalIntensity s) (distortionField s)
    (width s) (height s) (frameCount s) (pixels s) (looping s)
    (vectors s) (randoms s) (rpos s) (faults s) (calls s) (issued s) v.

(** ** The monad: state, and exceptions that keep the state *)

Inductive Result (A : Type) : Type :=
| Ok (a : A)
| Throw (e : exn).
Arguments Ok {A} a.
Arguments Throw {A} e.

Definition M (A : Type) : Type := State -> Result A * State.

Definition ret {A} (a : A) : M A := fun s => (Ok a, s).

Definition bind {A B} (m : M A) (k : A -> M B) : M B :=
  fun s => match m s with
           | (Ok a, s') => k a s'
           | (Throw e, s') => (Throw e, s')
           end.

Definition throw {A} (e : exn) : M A := fun s => (Throw e, s).

Definition gets {A} (f : State -> A) : M A := fun s => (Ok (f s), s).

Definition modify (f : State -> State) : M unit := fun s => (Ok tt, f s).

(** [try { body } catch (error) { handler }] *)
Definition try_catch {A} (body : M A) (handler : exn -> M A) : M A :=
  fun s => match body s with
           | (Ok a, s') => (Ok a, s')
           | (Throw e, s') => handler e s'
           end.

Declare Scope m_scope.
Delimit Scope m_scope with M.
Notation "x <- m ;; k" := (bind m (fun x => k))
  (at level 100, m at next level, right associativity) : m_scope.
Notation "m ;; k" := (bind m (fun _ => k))
  (at level 100, right associativity) : m_scope.
Open Scope m_scope.

Definition result_of {A} (r : Result A * State) : Result A := fst r.
Definition state_of {A} (r : Result A * State) : State := snd r.

(** [l.forEach(body)], and a counting loop whose counter runs through [l]. *)
Fixpoint forEach {A} (l : list A) (body : A -> M unit) : M unit :=
  match l with
  | [] => ret tt
  | a :: l' => body a ;; forEach l' body
  end.

(** A loop with a local accumulator: [body] returns the accumulator's next
    value. *)
Fixpoint forAcc {A B} (l : list A) (acc : B) (body : A -> B -> M B) : M B :=
  match l with
  | [] => ret acc
  | a :: l' => acc' <- body a acc ;; forAcc l' acc' body
  end.

(** [for (let i = 0; i < bound; i++)] with a real [bound]: the counter takes
    the values 0, 1, ... below [bound], of which there are [ceil bound]. *)
Definition below (bound : R) : list nat := seq 0 (Z.to_nat (Zceil bound)).

(** [for (let t = t0; cond(t); t = next(t))] with a real-valued counter.
    [fuel] bounds the number of iterations. *)
Fixpoint forReal (fuel : nat) (cond : R -> bool) (next : R -> R) (t : R)
    (body : R -> M unit) : M unit :=
  match fuel with
  | O => ret tt
  | S fuel' =>
      if cond t then body t ;; forReal fuel' cond next (next t) body
      else ret tt
  end.

(** The real-valued loops of the sketch run at most 81 times (63 for the
    longest, [angle < TWO_PI] in steps of 0.1). *)
Definition loop_fuel : nat := 100.

(** ** p5 primitives *)

(** A p5 call acting on the canvas: it throws if the oracle says so for this
    call, and is recorded otherwise. *)
Definition emit (c : Cmd) : M unit :=
  fun s =>
    let s1 := set_calls (S (calls s)) s in
    match faults s (calls s) with
    | Some e => (Throw e, s1)
    | None => (Ok tt, set_issued (issued s ++ [c]) s1)
    end.

Definition console_error (message : string) (error : option exn) : M unit :=
  modify (fun s => set_console (console s ++ [ConsoleError message error]) s).

Definition noLoop : M unit := modify (set_looping false).

(** [random()]: the next value of the stream. *)
Definition random : M R :=
  fun s => (Ok (randoms s (rpos s)), set_rpos (S (rpos s)) s).

(** [random(max)] and [random(min, max)] *)
Definition random1 (max : R) : M R := r <- random ;; ret (r * max).
Definition random2 (min max : R) : M R := r <- random ;; ret (r * (max - min) + min).

(** ** JavaScript arrays and typed arrays *)

(** [a[i]] for a JavaScript array: [undefined] outside the array and at an
    empty slot. *)
Definition array_get {A} (a : list (option A)) (i : Z) : option A :=
  if (i <? 0)%Z then None else
  match a !! Z.to_nat i with
  | Some (Some v) => Some v
  | _ => None
  end.

(** [a[i] = v] for a JavaScript array and [0 <= i]: an index past the end
    extends the array with empty slots. *)
Definition array_set {A} (a : list (option A)) (i : Z) (v : A) : list (option A) :=
  if (i <? 0)%Z then a else
  let n := Z.to_nat i in
  if (n <? length a)%nat then <[n := Some v]> a
  else a ++ replicate (n - length a) None ++ [Some v].

(** The element a number addresses in a typed array: none unless the number
    is a non-negative integer. *)
Definition element_index (i : R) : option nat :=
  let k := Zfloor i in
  if Req_dec_T (IZR k) i then
    if (0 <=? k)%Z then Some (Z.to_nat k) else None
  else None.

(** [pixels[i]]: [None] is [undefined]. *)
Definition typed_get (a : list Z) (i : R) : option Z :=
  match element_index i with
  | Some k => a !! k
  | None => None
  end.

(** The conversion a [Uint8ClampedArray] applies to a stored number: clamp to
    0..255 and round to the nearest integer, ties to even. *)
Definition ToUint8Clamp (x : R) : Z :=
  if Rleb x 0 then 0%Z
  else if Rleb 255 x then 255%Z
  else
    let f := Zfloor x in
    if Rltb (IZR f + 0.5) x then (f + 1)%Z
    else if Rltb x (IZR f + 0.5) then f
    else if Z.even f then f else (f + 1)%Z.

(** [pixels[i] = v]: a store outside the array is ignored. *)
Definition typed_set (a : list Z) (i : R) (v : R) : list Z :=
  match element_index i with
  | Some k => <[k := ToUint8Clamp v]> a
  | None => a
  end.

(** ** p5.Vector objects in the store

    The vectors held in [flowfield.field] are shared objects: [mult] changes
    the object it is called on, [copy] makes a new one. *)
Module VectorObj.

Definition new (v : Vec) : M loc :=
  fun s => (Ok (length (vectors s)), set_vectors (vectors s ++ [v]) s).

Definition get (l : loc) : M Vec :=
  fun s => match vectors s !! l with
           | Some v => (Ok v, s)
           | None => (Throw "TypeError: not a p5.Vector"%string, s)
           end.

Definition createVector (x y : R) : M loc := new (createVec x y).

Definition fromAngle (angle : R) : M loc := new (Vector.fromAngle angle).

Definition copy (l : loc) : M loc := v <- get l ;; new v.

Definition mult (l : loc) (n : R) : M loc :=
  v <- get l ;;
  modify (fun s => set_vectors (<[l := Vector.mult v n]> (vectors s)) s) ;;
  ret l.

End VectorObj.

(** ** The color palette (sketch.js lines 11-28) *)
Module COLORS.
Definition BODY_MAIN : list R := [55; 45; 40].
Definition BODY_SHADOW : list R := [40; 35; 30].
Definition BODY_HIGHLIGHT : list R := [65; 55; 50].
Definition HEAD_MAIN : list R := [235; 225; 205].
Definition HEAD_SHADOW : list R := [215; 205; 185].
Definition HEAD_GLOW : list R := [245; 235; 215].
Definition ARMS_MAIN : list R := [65; 55; 45].
Definition ARMS_SHADOW : list R := [50; 45; 35].
Definition BACKGROUND : list R := [220; 215; 205].
Definition ATMOSPHERE : list R := [200; 195; 185].
End COLORS.

(** [a[i]] of a palette entry. *)
Definition channel (color : list R) (i : nat) : R := nth i color 0.

(** ** JavaScript truthiness and function declarations *)

(** [!o] for a variable holding [undefined] ([None]) or an object. *)
Definition not_object {A} (o : option A) : bool :=
  match o with
  | None => true
  | Some _ => false
  end.

(** [!a] for a variable holding an array: an array, empty or not, is an
    object, so the negation is [false]. *)
Definition not_array {A} (a : list A) : bool := false.

(** A script may declare a function name several times; declarations are
    hoisted, and the name is bound to the last one in source order. *)
Definition binding {F} (first : F) (redeclared : list F) : F :=
  List.last redeclared first.

Section Sketch.

(** p5's Perlin noise, [noise(x, y, z)]. *)
Variable noise : R -> R -> R -> R.

(** The canvas's pixel bytes (RGBA, row by row) as p5 renders them from the
    calls issued so far. *)
Variable rasterize : list Cmd -> list Z.

Definition createCanvas (w h : R) : M unit :=
  emit (CreateCanvas w h) ;; modify (set_size w h).

Definition loadPixels : M unit :=
  emit LoadPixels ;;
  cmds <- gets issued ;;
  modify (set_pixels (rasterize cmds)).

Definition updatePixels : M unit :=
  px <- gets pixels ;; emit (UpdatePixels px).

(** *** class FlowField (lines 33-63) *)

(** The global [flowfield], dereferenced. *)
Definition the_flowfield : M FlowField :=
  ff <- gets flowfield ;;
  match ff with
  | Some this => ret this
  | None => throw "TypeError: flowfield is undefined"%string
  end.

(** [new FlowField(resolution)]; [new Array(n)] throws unless
    [0 <= n < 2^32]. *)
Definition new_FlowField (resolution : R) : M FlowField :=
  w <- gets width ;;
  h <- gets height ;;
  let cols := p5.ceil (w / resolution) in
  let rows := p5.ceil (h / resolution) in
  if ((cols * rows <? 0) || (2 ^ 32 <=? cols * rows))%Z
  then throw "RangeError: Invalid array length"%string
  else ret (mkFlowField resolution cols rows
              (replicate (Z.to_nat (cols * rows)) None) 0.15).

(** [this.field[index] = v] *)
Definition field_store (index : Z) (v : loc) : M unit :=
  this <- the_flowfield ;;
  modify (set_flowfield (Some
    (mkFlowField (resolution this) (cols this) (rows this)
       (array_set (field this) index v) (particleSpeed this)))).

Definition FlowField_update (time : R) : M unit :=
  this <- the_flowfield ;;
  forAcc (seq 0 (Z.to_nat (cols this))) 0 (fun x xoff =>
    forAcc (seq 0 (Z.to_nat (rows this))) 0 (fun y yoff =>
      let index := (Z.of_nat x + Z.of_nat y * cols this)%Z in
      let angle := noise xoff yoff (time * 0.015) * TWO_PI * 2 +
                   sin (time * 0.08 + INR x * 0.1 + INR y * 0.1) * 0.3 in
      v <- VectorObj.fromAngle angle ;;
      v <- VectorObj.mult v (particleSpeed this) ;;
      field_store index v ;;
      ret (yoff + 0.1)) ;;
    ret (xoff + 0.1)) ;;
  ret tt.

Definition FlowField_getForce (x y intensity : R) : M loc :=
  this <- the_flowfield ;;
  let col := p5.floor (p5.constrain (x / resolution this) 0 (IZR (cols this) - 1)) in
  let row := p5.floor (p5.constrain (y / resolution this) 0 (IZR (rows this) - 1)) in
  force <- match array_get (field this) (col + row * cols this) with
           | Some l => ret l
           | None => VectorObj.createVector 0 0
           end ;;
  c <- VectorObj.copy force ;;
  VectorObj.mult c intensity.

(** *** getComplexDistortion (lines 68-76) *)
Definition getComplexDistortion (x y time : R) : M Vec :=
  df <- gets distortionField ;;
  ret (fold_left (fun distortion d =>
         let dx := sin (x * frequency d + time * speed d + phase d) * amplitude d in
         let dy := cos (y * frequency d + time * speed d + phase d + PI / 4) * amplitude d in
         Vector.add distortion (createVec dx dy))
       df (createVec 0 0)).

(** *** setup (lines 81-113) *)
Definition setup_try : M unit :=
  ff <- new_FlowField 20 ;;
  modify (set_flowfield (Some ff)) ;;
  forEach (seq 0 8) (fun _ =>
    f <- random2 0.002 0.003 ;;
    a <- random2 1.5 3 ;;
    p <- random1 TWO_PI ;;
    sp <- random2 0.0005 0.0008 ;;
    modify (fun s => set_distortionField
                       (distortionField s ++ [mkOscillator f a p sp]) s)) ;;
  emit (FrameRate 30) ;;
  emit Smooth ;;
  emit ImageRenderingPixelated.

Definition setup : M unit :=
  createCanvas 600 800 ;;
  emit (PixelDensity 1) ;;
  emit (ColorModeRGB 255 255 255 1) ;;
  try_catch setup_try
    (fun error => console_error "Setup failed:" (Some error) ;; noLoop).

(** *** The body (lines 203-238) *)
Definition drawBody (isShadow : bool) (baseDistortion : Vec) : M unit :=
  emit Push ;;
  emit NoStroke ;;
  let bodyColor := if isShadow then COLORS.BODY_SHADOW else COLORS.BODY_MAIN in
  gt <- gets globalTime ;;
  emit (Fill (bodyColor ++ [if isShadow then 0.25 else 0.95 + sin (gt * 0.5) * 0.05])) ;;
  emit BeginShape ;;
  (* left side of body *)
  forReal loop_fuel (fun t => Rleb t 1) (fun t => t + 0.02) 0 (fun t =>
    let y := p5.map t 0 1 (-120) 180 in
    let width := p5.map (sin (t * PI)) 0 1 30 40 in
    let distortion := Vector.mult baseDistortion (1 - t * 0.3) in
    gt <- gets globalTime ;;
    ei <- gets emotionalIntensity ;;
    let sway := sin (t * PI + gt) * (2 + ei) in
    let xLeft := - width + sway + vx distortion in
    emit (Vertex xLeft (y + vy distortion))) ;;
  (* right side of body *)
  forReal loop_fuel (fun t => Rgeb t 0) (fun t => t - 0.02) 1 (fun t =>
    let y := p5.map t 0 1 (-120) 180 in
    let width := p5.map (sin (t * PI)) 0 1 30 40 in
    let distortion := Vector.mult baseDistortion (1 - t * 0.3) in
    gt <- gets globalTime ;;
    ei <- gets emotionalIntensity ;;
    let sway := sin (t * PI + gt) * (2 + ei) in
    let xRight := width + sway + vx distortion in
    emit (Vertex xRight (y + vy distortion))) ;;
  emit (EndShape true) ;;
  emit Pop.

(** *** The arms (lines 243-288) *)
Definition drawArmConnection (side startX startY : R) : M unit :=
  emit NoStroke ;;
  emit (Fill COLORS.BODY_MAIN) ;;
  emit BeginShape ;;
  emit (Vertex (startX - side * 10) (startY - 5)) ;;
  emit (Vertex (startX + side * 10) (startY - 5)) ;;
  emit (Vertex (startX + side * 12) (startY + 15)) ;;
  emit (Vertex (startX - side * 6) (startY + 15)) ;;
  emit (EndShape true).

Definition drawArms (baseDistortion : Vec) : M unit :=
  forEach [-1; 1] (fun side =>
    emit Push ;;
    let startX := side * 32 in
    let startY := -90 in
    drawArmConnection side startX startY ;;
    emit (Stroke COLORS.ARMS_MAIN) ;;
    emit (StrokeWeight 9) ;;
    emit NoFill ;;
    emit BeginShape ;;
    forEach (seq 0 8) (fun i =>
      let t := INR i / 7 in
      let y := startY + t * 120 in
      ei <- gets emotionalIntensity ;;
      gt <- gets globalTime ;;
      let curve := sin (t * PI) * (35 + ei * 4) in
      let wave := sin (y * 0.02 + gt) * 3 in
      let distortion := Vector.mult baseDistortion (0.4 * (1 - t)) in
      let x := startX + side * (curve + wave) + vx distortion in
      let y := y + vy distortion in
      (if (i =? 0)%nat || (i =? 7)%nat then emit (CurveVertex x y) else ret tt) ;;
      emit (CurveVertex x y)) ;;
    emit (EndShape false) ;;
    emit Pop).

(** *** The head (lines 304-426) *)
Definition drawHeadAura : M unit :=
  forEach [3; 2; 1] (fun i =>
    let alpha := p5.map i 3 0 0.04 0.12 in
    let size := p5.map i 3 0 110 85 in
    gt <- gets globalTime ;;
    d <- getComplexDistortion 0 (-130) (gt + i) ;;
    let auraDistortion := Vector.mult d 0.5 in
    emit (Fill (COLORS.HEAD_GLOW ++ [alpha])) ;;
    emit NoStroke ;;
    gt <- gets globalTime ;;
    emit (Ellipse (vx auraDistortion) (vy auraDistortion)
            (size + sin (gt * 1.5) * 3)
            (size * 1.2 + sin (gt * 1.5) * 3))).

Definition drawSkullShape (baseDistortion : Vec) : M unit :=
  emit (Fill COLORS.HEAD_MAIN) ;;
  emit NoStroke ;;
  emit BeginShape ;;
  forReal loop_fuel (fun angle => Rltb angle TWO_PI) (fun angle => angle + 0.1) 0
    (fun angle =>
      let r := 42 in
      let r :=
        if Rltb angle PI then
          let r := r + sin (angle * 2) * 7 in
          (* temple indentations *)
          let r := if Rgtb angle (PI / 4) && Rltb angle (PI / 2) then r - 3 else r in
          if Rgtb angle (PI / 2) && Rltb angle (3 * PI / 4) then r - 3 else r
        else r + sin (angle * 1.5) * 5 in
      let x := cos angle * r in
      let y := sin angle * r * 1.35 in
      let distortion := Vector.mult baseDistortion 0.4 in
      emit (Vertex (x + vx distortion) (y + vy distortion))) ;;
  emit (EndShape true).

Definition drawMouth (baseDistortion : Vec) : M unit :=
  emit (Fill [0]) ;;
  emit BeginShape ;;
  forReal loop_fuel (fun angle => Rltb angle TWO_PI) (fun angle => angle + 0.1) 0
    (fun angle =>
      gt <- gets globalTime ;;
      ei <- gets emotionalIntensity ;;
      let r := 9 + sin (angle * 3 + gt) * (1 + ei * 0.5) in
      let x := cos angle * r in
      let y := sin angle * r * 1.4 + 20 in
      let distortion := Vector.mult baseDistortion 0.2 in
      emit (Vertex (x + vx distortion) (y + vy distortion))) ;;
  emit (EndShape true) ;;
  (* inner mouth *)
  emit (Fill [0]) ;;
  let mouthDistortion := Vector.mult baseDistortion 0.3 in
  ei <- gets emotionalIntensity ;;
  emit (Ellipse (vx mouthDistortion) (20 + vy mouthDistortion)
          (12 + ei * 2) (20 + ei * 3)).

Definition drawFacialFeatures (baseDistortion : Vec) : M unit :=
  forEach [-1; 1] (fun side =>
    emit Push ;;
    emit (Translate (side * 15) (-10)) ;;
    (* eye sockets *)
    emit (Fill [0; 0; 0; 0.35]) ;;
    ei <- gets emotionalIntensity ;;
    let socketSize := 18 + ei * 2 in
    emit (Ellipse 0 0 socketSize (socketSize * 1.15)) ;;
    (* main eye shape *)
    emit (Fill [0]) ;;
    let eyeDistortion := Vector.mult baseDistortion 0.3 in
    emit (Ellipse (vx eyeDistortion) (vy eyeDistortion) 13 17) ;;
    (* animated pupil *)
    emit (Fill [0]) ;;
    gt <- gets globalTime ;;
    ei <- gets emotionalIntensity ;;
    let pupilOffset := createVec (sin gt * ei) (cos gt * ei) in
    emit (Ellipse (vx pupilOffset) (vy pupilOffset) 5 5) ;;
    emit Pop) ;;
  drawMouth baseDistortion.

(** [drawHead] is declared twice, at line 296 with an empty body and at
    line 304. *)
Definition drawHead_line296 (baseDistortion : Vec) : M unit := ret tt.

Definition drawHead_line304 (baseDistortion : Vec) : M unit :=
  emit Push ;;
  emit (Translate 0 (-130)) ;;
  drawHeadAura ;;
  drawSkullShape baseDistortion ;;
  drawFacialFeatures baseDistortion ;;
  emit Pop.

Definition drawHead : Vec -> M unit :=
  binding drawHead_line296 [drawHead_line304].

(** *** The figure (lines 169-198) *)
Definition drawFigure (isShadow : bool) : M unit :=
  gt <- gets globalTime ;;
  baseDistortion <- getComplexDistortion 0 0 gt ;;
  drawBody isShadow baseDistortion ;;
  if negb isShadow then
    drawArms baseDistortion ;;
    drawHead baseDistortion
  else ret tt.

Definition drawShadowLayer : M unit :=
  emit Push ;;
  gt <- gets globalTime ;;
  let shadowOffset := createVec (2 + sin (gt * 0.7) * 1.5) (2 + cos (gt * 0.7) * 1.5) in
  emit (Translate (vx shadowOffset) (vy shadowOffset)) ;;
  drawFigure true ;;
  emit Pop.

Definition drawMainFigure : M unit := drawFigure false.

(** *** Atmospheric effects (lines 431-498) *)

(** [pixels[i] = constrain(pixels[i] + noiseAmount, 0, 255)] *)
Definition perturb (i noiseAmount : R) : M unit :=
  px <- gets pixels ;;
  match typed_get px i with
  | Some p => modify (set_pixels (typed_set px i (p5.constrain (IZR p + noiseAmount) 0 255)))
  | None => ret tt
  end.

(** The body of the two loops of [addNoiseToFigure].  When one of the three
    reads is [undefined] the brightness is NaN and the test is false. *)
Definition noisePixel (x y : nat) : M unit :=
  w <- gets width ;;
  let index := (INR x + INR y * w) * 4 in
  px <- gets pixels ;;
  match typed_get px index, typed_get px (index + 1), typed_get px (index + 2) with
  | Some p0, Some p1, Some p2 =>
      let brightness := (IZR p0 + IZR p1 + IZR p2) / 3 in
      if Rltb brightness 180 then
        r <- random2 (-6) 6 ;;
        ei <- gets emotionalIntensity ;;
        let noiseAmount := r * ei in
        perturb index noiseAmount ;;
        perturb (index + 1) noiseAmount ;;
        perturb (index + 2) noiseAmount
      else ret tt
  | _, _, _ => ret tt
  end.

Definition addNoiseToFigure : M unit :=
  loadPixels ;;
  h <- gets height ;;
  forEach (below h) (fun y =>
    w <- gets width ;;
    forEach (below w) (fun x => noisePixel x y)) ;;
  updatePixels.

Definition drawVignette : M unit :=
  gt <- gets globalTime ;;
  let innerRadius := 150 + sin gt * 5 in
  let outerRadius := 400 + sin (gt * 0.5) * 10 in
  emit (CreateRadialGradient 0 0 innerRadius 0 0 outerRadius) ;;
  ei <- gets emotionalIntensity ;;
  let maxOpacity := 0.08 + ei * 0.04 in
  emit (AddColorStop 0 0 0 0 0) ;;
  emit (AddColorStop 0.7 0 0 0 (maxOpacity * 0.3)) ;;
  emit (AddColorStop 1 0 0 0 maxOpacity) ;;
  emit FillStyleGradient ;;
  w <- gets width ;;
  h <- gets height ;;
  emit (FillRect (- w / 2) (- h / 2) w h).

Definition addEmotionalGlow : M unit :=
  emit Push ;;
  emit BlendModeOverlay ;;
  emit NoStroke ;;
  gt <- gets globalTime ;;
  ei <- gets emotionalIntensity ;;
  let glowColor := [200 + sin gt * 8; 200 + sin (gt * 1.1) * 8;
                    190 + sin (gt * 1.2) * 8; ei * 0.04] in
  emit (Fill glowColor) ;;
  w <- gets width ;;
  h <- gets height ;;
  emit (Rect (- w / 2) (- h / 2) w h) ;;
  emit Pop.

(** [addAtmosphericEffects] is declared twice, at line 291 with an empty body
    and at line 431. *)
Definition addAtmosphericEffects_line291 : M unit := ret tt.

Definition addAtmosphericEffects_line431 : M unit :=
  drawVignette ;;
  addNoiseToFigure ;;
  addEmotionalGlow.

Definition addAtmosphericEffects : M unit :=
  binding addAtmosphericEffects_line291 [addAtmosphericEffects_line431].

(** *** draw (lines 131-164) *)
Definition draw_try : M unit :=
  ff <- gets flowfield ;;
  df <- gets distortionField ;;
  if not_object ff || not_array df then
    console_error "Critical components not initialized" None ;;
    noLoop
  else
    fc <- gets frameCount ;;
    modify (set_globalTime (INR fc * 0.008)) ;;
    gt <- gets globalTime ;;
    modify (set_emotionalIntensity (p5.map (sin (gt * 0.3)) (-1) 1 0.5 1)) ;;
    gt <- gets globalTime ;;
    emit (Background (channel COLORS.BACKGROUND 0 + sin gt * 2)
                     (channel COLORS.BACKGROUND 1 + sin (gt * 1.1) * 2)
                     (channel COLORS.BACKGROUND 2 + sin (gt * 1.2) * 2)) ;;
    FlowField_update gt ;;
    w <- gets width ;;
    h <- gets height ;;
    emit (Translate (w / 2) (h / 2)) ;;
    drawShadowLayer ;;
    drawMainFigure ;;
    addAtmosphericEffects.

Definition draw : M unit :=
  try_catch draw_try
    (fun error => console_error "Draw cycle failed:" (Some error) ;; noLoop).

(** *** What p5 does with [draw] *)

(** [redraw()]: p5 increments [frameCount] and calls [draw]. *)
Definition redraw : M unit :=
  modify (fun s => set_frameCount (S (frameCount s)) s) ;; draw.

(** [resizeCanvas(w, h)]: the canvas is resized, and p5 redraws at once. *)
Definition resizeCanvas (w h : R) : M unit :=
  emit (ResizeCanvas w h) ;; modify (set_size w h) ;; redraw.

(** *** The event handlers (lines 503-521) *)
Definition mouseMoved (mouseX mouseY pmouseX pmouseY : R) : M bool :=
  let speed := p5.dist mouseX mouseY pmouseX pmouseY in
  ei <- gets emotionalIntensity ;;
  modify (set_emotionalIntensity (p5.constrain (ei + speed * 0.0008) 0.5 1)) ;;
  ret false.

Definition windowResized (windowWidth windowHeight : R) : M unit :=
  resizeCanvas (p5.min (windowWidth * 0.8) 600) (p5.min (windowHeight * 0.8) 800).

(** ** How p5 drives the sketch *)

(** What p5 calls after [setup]: a frame ([redraw]), a pointer move, a
    window resize. *)
Inductive Event : Type :=
| Frame
| MouseMoved (mouseX mouseY pmouseX pmouseY : R)
| WindowResized (windowWidth windowHeight : R).

Definition handle (ev : Event) : M unit :=
  match ev with
  | Frame => redraw
  | MouseMoved mx my px py => mouseMoved mx my px py ;; ret tt
  | WindowResized ww wh => windowResized ww wh
  end.

Definition step (ev : Event) (s : State) : State := state_of (handle ev s).

Definition run (evs : list Event) (s : State) : State := fold_left (fun s ev => step ev s) evs s.

(** The frame loop: p5 calls [draw] again and again while [looping]. *)
Fixpoint animate (frames : nat) (s : State) : State :=
  match frames with
  | O => s
  | S n => if looping s then animate n (step Frame s) else s
  end.

(** The state in which p5 starts the sketch: the globals as lines 4-8
    declare them, p5's default 100 x 100 canvas, nothing issued yet. *)
Definition initial (rs : nat -> R) (fs : nat -> option exn) : State :=
  mkState None 0 0 [] 100 100 0%nat [] true [] rs 0%nat fs 0%nat [] [].

(** A state the sketch can be in: [setup] has returned, and p5 has delivered
    any number of events since. *)
Inductive reachable : State -> Prop :=
| reachable_setup rs fs :
    result_of (setup (initial rs fs)) = Ok tt ->
    (forall n, 0 <= rs n < 1) ->
    reachable (state_of (setup (initial rs fs)))
| reachable_step s ev :
    reachable s -> reachable (step ev s).

(** * Reasoning about the sketch *)

Arguments bind {A B} m k s /.
Arguments ret {A} a s /.
Arguments gets {A} f s /.
Arguments modify f s /.
Arguments throw {A} e s /.
Arguments try_catch {A} body handler s /.
Arguments emit c s /.
Arguments random s /.

(** Symbolic execution of the monad's primitives and of the record
    operations, leaving the arithmetic alone. *)
Ltac msimpl :=
  cbv beta iota zeta delta
      [bind ret gets modify throw try_catch emit random result_of state_of fst snd
       flowfield globalTime emotionalIntensity distortionField width height
       frameCount pixels looping vectors randoms rpos faults calls issued console
       set_flowfield set_globalTime set_emotionalIntensity set_distortionField
       set_size set_frameCount set_pixels set_looping set_vectors set_rpos
       set_calls set_issued set_console] in *.

Create HintDb sketch.
#[local] Hint Unfold
  random1 random2 console_error noLoop createCanvas redraw resizeCanvas loadPixels
  updatePixels the_flowfield new_FlowField field_store FlowField_update
  FlowField_getForce getComplexDistortion setup_try setup drawBody
  drawArmConnection drawArms drawHeadAura drawSkullShape drawMouth
  drawFacialFeatures drawHead_line296 drawHead_line304 drawHead drawFigure
  drawShadowLayer drawMainFigure perturb noisePixel addNoiseToFigure
  drawVignette addEmotionalGlow addAtmosphericEffects_line291
  addAtmosphericEffects_line431 addAtmosphericEffects draw_try draw mouseMoved
  windowResized handle binding List.last
  VectorObj.createVector VectorObj.fromAngle VectorObj.copy VectorObj.mult : sketch.

(** ** Invariants

    [preserves P m]: if [P] holds before [m], it holds in the state [m]
    leaves, whether [m] returns or throws. *)
Definition preserves {A} (P : State -> Prop) (m : M A) : Prop :=
  forall s, P s -> P (state_of (m s)).

Lemma preserves_ret {A} P (a : A) : preserves P (ret a).
Proof. intros s H. exact H. Qed.

Lemma preserves_throw {A} P e : preserves P (@throw A e).
Proof. intros s H. exact H. Qed.

Lemma preserves_gets {A} P (f : State -> A) : preserves P (gets f).
Proof. intros s H. exact H. Qed.

Lemma preserves_modify P g :
  (forall s, P s -> P (g s)) -> preserves P (modify g).
Proof. intros Hg s H. apply Hg, H. Qed.

Lemma preserves_bind {A B} P (m : M A) (k : A -> M B) :
  preserves P m -> (forall a, preserves P (k a)) -> preserves P (bind m k).
Proof.
  intros Hm Hk s H. specialize (Hm s H). unfold state_of in *. cbn [bind].
  destruct (m s) as [[a|e] s']; cbn [snd] in *.
  - apply Hk, Hm.
  - exact Hm.
Qed.

Lemma preserves_try_catch {A} P (body : M A) handler :
  preserves P body -> (forall e, preserves P (handler e)) ->
  preserves P (try_catch body handler).
Proof.
  intros Hm Hk s H. specialize (Hm s H). unfold state_of in *. cbn [try_catch].
  destruct (body s) as [[a|e] s']; cbn [snd] in *.
  - exact Hm.
  - apply Hk, Hm.
Qed.

Lemma preserves_emit P c :
  (forall s v, P s -> P (set_calls v s)) ->
  (forall s v, P s -> P (set_issued v s)) ->
  preserves P (emit c).
Proof.
  intros Hc Hi s H. unfold state_of. cbn [emit].
  destruct (faults s (calls s)); cbn [snd]; auto.
Qed.

Lemma preserves_random P :
  (forall s v, P s -> P (set_rpos v s)) -> preserves P random.
Proof. intros Hr s H. apply Hr, H. Qed.

Lemma preserves_VectorObj_new P v :
  (forall s w, P s -> P (set_vectors w s)) -> preserves P (VectorObj.new v).
Proof. intros Hv s H. apply Hv, H. Qed.

Lemma preserves_VectorObj_get P l : preserves P (VectorObj.get l).
Proof.
  intros s H. unfold state_of, VectorObj.get.
  destruct (vectors s !! l); exact H.
Qed.

Lemma preserves_forEach {A} P (l : list A) body :
  (forall a, preserves P (body a)) -> preserves P (forEach l body).
Proof.
  intros Hb. induction l as [|a l IH]; cbn [forEach].
  - apply preserves_ret.
  - apply preserves_bind; [apply Hb | intros _; exact IH].
Qed.

Lemma preserves_forAcc {A B} P (l : list A) (acc : B) body :
  (forall a b, preserves P (body a b)) -> preserves P (forAcc l acc body).
Proof.
  intros Hb. revert acc. induction l as [|a l IH]; intros acc; cbn [forAcc].
  - apply preserves_ret.
  - apply preserves_bind; [apply Hb | intros acc'; apply IH].
Qed.

Lemma preserves_forReal P fuel cond next t body :
  (forall t, preserves P (body t)) -> preserves P (forReal fuel cond next t body).
Proof.
  intros Hb. revert t. induction fuel as [|fuel IH]; intros t; cbn [forReal].
  - apply preserves_ret.
  - destruct (cond t); [|apply preserves_ret].
    apply preserves_bind; [apply Hb | intros _; apply IH].
Qed.

(** Proves [preserves P m] for a piece of the sketch, given a tactic for
    the updates [m] makes: that [P] survives each of them. A hypothesis
    stating [preserves] for a part of [m] is used as it is. *)
Ltac frame_with side :=
  repeat first
    [ progress intros
    | match goal with
      | H : context [preserves] |- preserves _ _ => solve [apply H]
      end
    | apply preserves_ret
    | apply preserves_gets
    | apply preserves_throw
    | apply preserves_bind
    | apply preserves_try_catch
    | apply preserves_forEach
    | apply preserves_forAcc
    | apply preserves_forReal
    | apply preserves_emit; [solve [side] | solve [side]]
    | apply preserves_random; solve [side]
    | apply preserves_VectorObj_new; solve [side]
    | apply preserves_VectorObj_get
    | apply preserves_modify; solve [side]
    | match goal with
      | |- preserves _ (if ?c then _ else _) => destruct c
      | |- preserves _ (match ?x with _ => _ end) => destruct x
      end
    | progress autounfold with sketch ].

Ltac frame := frame_with ltac:(intros; msimpl; auto; congruence).

(** ** Stepping through a [try] block *)

Lemma try_gets {A B} (f : State -> A) (k : A -> M B) h s :
  try_catch (bind (gets f) k) h s = try_catch (k (f s)) h s.
Proof. reflexivity. Qed.

Lemma try_modify {B} g (k : unit -> M B) h s :
  try_catch (bind (modify g) k) h s = try_catch (k tt) h (g s).
Proof. reflexivity. Qed.

(** ** Arithmetic of the p5 helpers *)

Lemma map_sin_bounded x : 0.5 <= p5.map (sin x) (-1) 1 0.5 1 <= 1.
Proof. unfold p5.map. pose proof (SIN_bound x). lra. Qed.

Lemma constrain_bounds n low high :
  low <= high -> low <= p5.constrain n low high <= high.
Proof.
  intros H. unfold p5.constrain, Rmax, Rmin.
  destruct (Rle_dec n high); destruct (Rle_dec _ low); lra.
Qed.

Lemma constrain_id n low high :
  low <= n <= high -> p5.constrain n low high = n.
Proof.
  intros H. unfold p5.constrain, Rmax, Rmin.
  destruct (Rle_dec n high); destruct (Rle_dec _ low); lra.
Qed.

Lemma constrain_nudge n d low high :
  n <= high -> 0 <= d -> n <= p5.constrain (n + d) low high.
Proof.
  intros Hn Hd. unfold p5.constrain, Rmax, Rmin.
  destruct (Rle_dec (n + d) high); destruct (Rle_dec _ low); lra.
Qed.

Lemma dist_nonneg x1 y1 x2 y2 : 0 <= p5.dist x1 y1 x2 y2.
Proof. unfold p5.dist. apply sqrt_pos. Qed.

Lemma ceil_600_20 : p5.ceil (600 / 20) = 30%Z.
Proof. apply Zceil_eq. simpl. lra. Qed.

Lemma ceil_800_20 : p5.ceil (800 / 20) = 40%Z.
Proof. apply Zceil_eq. simpl. lra. Qed.

(** ** What [setup] leaves behind *)

(** The [i]-th oscillator [setup] pushes: four draws of the stream each. *)
Definition setup_oscillator (rs : nat -> R) (i : nat) : Oscillator :=
  mkOscillator (rs (4 * i)%nat * (0.003 - 0.002) + 0.002)
               (rs (4 * i + 1)%nat * (3 - 1.5) + 1.5)
               (rs (4 * i + 2)%nat * TWO_PI)
               (rs (4 * i + 3)%nat * (0.0008 - 0.0005) + 0.0005).

(** [setup] returns unless one of its first three calls, which stand outside
    its [try], throws. *)
Lemma setup_returns rs fs :
  fs 0%nat = None -> fs 1%nat = None -> fs 2%nat = None ->
  result_of (setup (initial rs fs)) = Ok tt.
Proof.
  intros H0 H1 H2. unfold setup, createCanvas, initial. msimpl.
  rewrite H0. msimpl. rewrite H1. msimpl. rewrite H2. msimpl.
  match goal with |- context [setup_try ?s] => destruct (setup_try s) as [[[]|e] s'] end;
    reflexivity.
Qed.

Lemma setup_initial rs fs :
  result_of (setup (initial rs fs)) = Ok tt ->
  let s := state_of (setup (initial rs fs)) in
  flowfield s = Some (mkFlowField 20 30 40 (replicate 1200 None) 0.15) /\
  distortionField s = List.map (setup_oscillator rs) (seq 0 8) /\
  width s = 600 /\ height s = 800 /\ emotionalIntensity s = 0 /\
  vectors s = [] /\ randoms s = rs /\ faults s = fs.
Proof.
  unfold setup, createCanvas, initial. msimpl.
  destruct (fs 0%nat); [discriminate|]. msimpl.
  destruct (fs 1%nat); [discriminate|]. msimpl.
  destruct (fs 2%nat); [discriminate|]. msimpl.
  intros _.
  unfold setup_try, new_FlowField, random1, random2, console_error, noLoop. msimpl.
  rewrite ceil_600_20, ceil_800_20.
  change ((30 * 40 <? 0)%Z || (2 ^ 32 <=? 30 * 40)%Z) with false.
  cbn [forEach seq]. msimpl.
  destruct (fs 3%nat); msimpl; [repeat split; reflexivity|].
  destruct (fs 4%nat); msimpl; [repeat split; reflexivity|].
  destruct (fs 5%nat); msimpl; repeat split; reflexivity.
Qed.

(** However [setup] ends, it leaves both components or neither: [flowfield]
    is assigned first, and nothing between that assignment and the last
    [push] can throw. *)
Lemma setup_components rs fs :
  let s := state_of (setup (initial rs fs)) in
  (flowfield s = None /\ distortionField s = []) \/
  (flowfield s <> None /\ length (distortionField s) = 8%nat).
Proof.
  unfold setup, createCanvas, initial. msimpl.
  destruct (fs 0%nat); msimpl; [left; split; reflexivity|].
  destruct (fs 1%nat); msimpl; [left; split; reflexivity|].
  destruct (fs 2%nat); msimpl; [left; split; reflexivity|].
  unfold setup_try, new_FlowField, random1, random2, console_error, noLoop. msimpl.
  rewrite ceil_600_20, ceil_800_20.
  change ((30 * 40 <? 0)%Z || (2 ^ 32 <=? 30 * 40)%Z) with false.
  cbn [forEach seq]. msimpl.
  destruct (fs 3%nat); msimpl; [right; split; [discriminate|reflexivity]|].
  destruct (fs 4%nat); msimpl; [right; split; [discriminate|reflexivity]|].
  destruct (fs 5%nat); msimpl; right; split; first [discriminate|reflexivity].
Qed.

Lemma reachable_run s evs : reachable s -> reachable (run evs s).
Proof.
  revert s. induction evs as [|ev evs IH]; intros s H; cbn [run fold_left].
  - exact H.
  - apply IH. apply reachable_step, H.
Qed.

Lemma run_app evs1 evs2 s : run (evs1 ++ evs2) s = run evs2 (run evs1 s).
Proof. unfold run. apply fold_left_app. Qed.

(** ** The emotional intensity *)

Definition intensity_bounded (s : State) : Prop :=
  0.5 <= emotionalIntensity s <= 1.

Definition intensity_follows_time (s : State) : Prop :=
  emotionalIntensity s = p5.map (sin (globalTime s * 0.3)) (-1) 1 0.5 1.

(** The events whose handler assigns [emotionalIntensity]. *)
Definition assigns_intensity (ev : Event) : bool :=
  match ev with
  | Frame | MouseMoved _ _ _ _ => true
  | WindowResized _ _ => false
  end.

Ltac intensity_side :=
  intros; msimpl;
  first [ assumption | congruence | apply map_sin_bounded
        | apply constrain_bounds; lra
        | apply (proj2 (map_sin_bounded _))
        | apply (proj2 (constrain_bounds _ _ _ ltac:(lra))) ].

Lemma draw_sets_intensity s :
  flowfield s <> None -> intensity_follows_time (state_of (draw s)).
Proof.
  intros Hff. unfold draw, draw_try. rewrite !try_gets.
  destruct (flowfield s) as [ff|] eqn:E; [clear Hff|congruence].
  cbn [not_object not_array orb].
  rewrite try_gets, try_modify, try_gets, try_modify.
  apply preserves_try_catch; unfold intensity_follows_time.
  - frame.
  - frame.
  - msimpl. reflexivity.
Qed.

Lemma handle_keeps_flowfield_defined ev :
  preserves (fun s => flowfield s <> None) (handle ev).
Proof. destruct ev; frame. Qed.

Lemma handle_keeps_intensity_le_1 ev :
  preserves (fun s => emotionalIntensity s <= 1) (handle ev).
Proof. destruct ev; frame_with intensity_side. Qed.

Lemma handle_keeps_intensity_bounded ev :
  preserves intensity_bounded (handle ev).
Proof. unfold intensity_bounded. destruct ev; frame_with intensity_side. Qed.

Lemma reachable_flowfield_defined s : reachable s -> flowfield s <> None.
Proof.
  induction 1 as [rs fs Hok Hrs|s ev _ IH].
  - destruct (setup_initial rs fs Hok) as (-> & _). discriminate.
  - apply (handle_keeps_flowfield_defined ev s IH).
Qed.

Lemma reachable_intensity_le_1 s : reachable s -> emotionalIntensity s <= 1.
Proof.
  induction 1 as [rs fs Hok Hrs|s ev _ IH].
  - destruct (setup_initial rs fs Hok) as (_ & _ & _ & _ & -> & _). lra.
  - apply (handle_keeps_intensity_le_1 ev s IH).
Qed.

Lemma run_keeps_intensity_bounded evs s :
  intensity_bounded s -> intensity_bounded (run evs s).
Proof.
  revert s. induction evs as [|ev evs IH]; intros s H; cbn [run fold_left].
  - exact H.
  - apply IH. apply (handle_keeps_intensity_bounded ev s H).
Qed.

Lemma frame_sets_intensity s :
  flowfield s <> None -> intensity_follows_time (step Frame s).
Proof.
  intros H. unfold step, handle.
  change (intensity_follows_time
            (state_of (draw (set_frameCount (S (frameCount s)) s)))).
  apply draw_sets_intensity. exact H.
Qed.

Lemma follows_time_bounded s : intensity_follows_time s -> intensity_bounded s.
Proof.
  unfold intensity_follows_time, intensity_bounded. intros ->.
  apply map_sin_bounded.
Qed.

Lemma mouseMoved_intensity mx my px py s :
  emotionalIntensity (step (MouseMoved mx my px py) s) =
  p5.constrain (emotionalIntensity s + p5.dist mx my px py * 0.0008) 0.5 1.
Proof. reflexivity. Qed.

(** C1: in every state the sketch can reach, a draw frame sets the emotional
    intensity to map(sin(globalTime * 0.3), -1, 1, 0.5, 1), which lies in
    [0.5, 1]; mouseMoved sets it to the nudged value constrained to
    [0.5, 1], the nudge speed * 0.0008 is non-negative and the value never
    decreases; and after any sequence of events that contains a draw frame or
    a mouseMoved call, 0.5 <= emotionalIntensity <= 1. *)
Theorem emotionalIntensity_bounded s :
  reachable s ->
  (intensity_follows_time (step Frame s) /\ intensity_bounded (step Frame s)) /\
  (forall mx my px py,
     let s' := step (MouseMoved mx my px py) s in
     emotionalIntensity s' =
       p5.constrain (emotionalIntensity s + p5.dist mx my px py * 0.0008) 0.5 1 /\
     0 <= p5.dist mx my px py * 0.0008 /\
     intensity_bounded s' /\
     emotionalIntensity s <= emotionalIntensity s') /\
  (forall before ev after,
     assigns_intensity ev = true ->
     intensity_bounded (run (before ++ ev :: after) s)).
Proof.
  intros Hs. split; [|split].
  - pose proof (frame_sets_intensity s (reachable_flowfield_defined s Hs)) as H.
    split; [exact H | apply follows_time_bounded, H].
  - intros mx my px py s'. subst s'. rewrite mouseMoved_intensity.
    pose proof (dist_nonneg mx my px py) as Hd.
    repeat split; try (apply constrain_bounds; lra); try lra.
    apply constrain_nudge; [apply reachable_intensity_le_1, Hs | lra].
  - intros before ev after Hev. rewrite run_app. cbn [run fold_left].
    apply run_keeps_intensity_bounded.
    pose proof (reachable_run s before Hs) as Hr.
    set (s1 := fold_left (fun s ev => step ev s) before s) in *.
    destruct ev as [|mx my px py|]; [| |discriminate].
    + apply follows_time_bounded, frame_sets_intensity,
        reachable_flowfield_defined, Hr.
    + unfold intensity_bounded. rewrite mouseMoved_intensity.
      apply constrain_bounds. lra.
Qed.

(** ** The canvas size *)

Definition canvas_within_600_800 (s : State) : Prop :=
  width s <= 600 /\ height s <= 800.

Ltac canvas_side :=
  intros; unfold canvas_within_600_800, p5.min in *; msimpl;
  first [ assumption | split; apply Rmin_r ].

Lemma handle_keeps_canvas_within ev :
  preserves canvas_within_600_800 (handle ev).
Proof. destruct ev; frame_with canvas_side. Qed.

Lemma reachable_canvas_within s : reachable s -> canvas_within_600_800 s.
Proof.
  induction 1 as [rs fs Hok Hrs|s ev _ IH].
  - destruct (setup_initial rs fs Hok) as (_ & _ & Hw & Hh & _).
    unfold canvas_within_600_800. rewrite Hw, Hh. lra.
  - apply (handle_keeps_canvas_within ev s IH).
Qed.

Lemma draw_returns s : result_of (draw s) = Ok tt.
Proof.
  unfold draw, result_of. cbn [try_catch].
  destruct (draw_try s) as [[[]|e] s1]; reflexivity.
Qed.

Lemma draw_keeps_size w h :
  preserves (fun s => width s = w /\ height s = h) draw.
Proof. frame_with ltac:(intros; msimpl; assumption). Qed.

(** C7: windowResized only clamps. When its call of resizeCanvas does not
    throw, the canvas gets the width min(windowWidth * 0.8, 600) and the
    height min(windowHeight * 0.8, 800), for every window size; and in every
    state the sketch can reach, before or after any resize, the canvas is at
    most 600 wide and 800 tall, the size createCanvas(600, 800) gave it. *)
Theorem windowResized_clamps s windowWidth windowHeight :
  reachable s ->
  let s' := state_of (windowResized windowWidth windowHeight s) in
  (faults s (calls s) = None ->
     result_of (windowResized windowWidth windowHeight s) = Ok tt /\
     width s' = p5.min (windowWidth * 0.8) 600 /\
     height s' = p5.min (windowHeight * 0.8) 800) /\
  (width s' <= 600 /\ height s' <= 800) /\
  (forall evs, width (run evs s') <= 600 /\ height (run evs s') <= 800).
Proof.
  intros Hs s'.
  assert (Hr : reachable s') by apply (reachable_step s (WindowResized _ _) Hs).
  split; [|split].
  - intros Hf. subst s'. unfold windowResized, resizeCanvas, redraw.
    unfold result_of, state_of. cbn [bind emit modify]. rewrite Hf.
    match goal with |- context [draw ?st] =>
      pose proof (draw_returns st) as Hret;
      pose proof (draw_keeps_size (width st) (height st) st (conj eq_refl eq_refl))
        as [Hw Hh];
      unfold result_of, state_of in Hret, Hw, Hh;
      destruct (draw st) as [[[]|e] s1]; cbn [fst snd] in *; [|discriminate]
    end.
    repeat split; assumption.
  - apply reachable_canvas_within, Hr.
  - intros evs. apply reachable_canvas_within, reachable_run, Hr.
Qed.

(** ** The distortion field *)

(** The ranges [setup] draws an oscillator's parameters from. *)
Definition oscillator_in_range (d : Oscillator) : Prop :=
  0.002 <= frequency d < 0.003 /\
  1.5 <= amplitude d < 3 /\
  0 <= phase d < TWO_PI /\
  0.0005 <= speed d < 0.0008.

Lemma TWO_PI_pos : 0 < TWO_PI.
Proof. unfold TWO_PI. pose proof PI_RGT_0. lra. Qed.

Lemma setup_oscillator_in_range rs i :
  (forall n, 0 <= rs n < 1) -> oscillator_in_range (setup_oscillator rs i).
Proof.
  intros Hrs. unfold oscillator_in_range, setup_oscillator.
  cbn [frequency amplitude phase speed].
  pose proof (Hrs (4 * i)%nat). pose proof (Hrs (4 * i + 1)%nat).
  pose proof (Hrs (4 * i + 2)%nat) as Hp. pose proof (Hrs (4 * i + 3)%nat).
  pose proof TWO_PI_pos as Hpi.
  repeat split; try lra.
  - apply Rmult_le_pos; lra.
  - rewrite <- (Rmult_1_l TWO_PI) at 2. apply Rmult_lt_compat_r; lra.
Qed.

Definition distortionField_as_set_up (s : State) : Prop :=
  length (distortionField s) = 8%nat /\
  Forall oscillator_in_range (distortionField s).

Lemma handle_keeps_distortionField ev v :
  preserves (fun s => distortionField s = v) (handle ev).
Proof. destruct ev; frame. Qed.

Lemma step_distortionField ev s :
  distortionField (step ev s) = distortionField s.
Proof. apply (handle_keeps_distortionField ev (distortionField s) s eq_refl). Qed.

Lemma reachable_distortionField s : reachable s -> distortionField_as_set_up s.
Proof.
  induction 1 as [rs fs Hok Hrs|s ev _ IH].
  - destruct (setup_initial rs fs Hok) as (_ & Hd & _).
    unfold distortionField_as_set_up. rewrite Hd. split.
    + reflexivity.
    + apply List.Forall_forall. intros d Hin. apply List.in_map_iff in Hin.
      destruct Hin as (i & <- & _). apply setup_oscillator_in_range, Hrs.
  - unfold distortionField_as_set_up. rewrite step_distortionField. exact IH.
Qed.

(** C3: in every state the sketch can reach (setup has run once),
    distortionField holds exactly 8 oscillators, each with its frequency in
    [0.002, 0.003), amplitude in [1.5, 3), phase in [0, TWO_PI) and speed in
    [0.0005, 0.0008); no event handler (draw, mouseMoved, windowResized)
    changes it, over any sequence of events; and getComplexDistortion
    returns without changing the state at all. *)
Theorem distortionField_fixed s :
  reachable s ->
  length (distortionField s) = 8%nat /\
  Forall oscillator_in_range (distortionField s) /\
  (forall ev, distortionField (step ev s) = distortionField s) /\
  (forall evs, distortionField (run evs s) = distortionField s) /\
  (forall x y time,
     exists v, getComplexDistortion x y time s = (Ok v, s)).
Proof.
  intros Hs. destruct (reachable_distortionField s Hs) as [Hlen Hall].
  repeat split; try assumption.
  - intros ev. apply step_distortionField.
  - intros evs. clear. revert s.
    induction evs as [|ev evs IH]; intros s; cbn [run fold_left].
    + reflexivity.
    + unfold run in IH. rewrite IH. apply step_distortionField.
  - intros x y time. eexists. reflexivity.
Qed.

(** ** The catch-all of [draw] *)

Lemma animate_halted frames s : looping s = false -> animate frames s = s.
Proof. intros H. destruct frames; cbn [animate]; [|rewrite H]; reflexivity. Qed.

(** The state [draw]'s [catch] branch leaves, entered with [error] in the
    state [s]: the error is logged and the loop is stopped. *)
Definition draw_failed (error : exn) (s : State) : State :=
  set_looping false
    (set_console (console s ++ [ConsoleError "Draw cycle failed:" (Some error)]) s).

(** The state [draw] leaves when its guard finds a component missing. *)
Definition draw_refused (s : State) : State :=
  set_looping false
    (set_console
       (console s ++ [ConsoleError "Critical components not initialized" None]) s).

(** C6: if the body of draw's try block throws an exception, at whatever
    point, draw itself returns normally, having logged the error and called
    noLoop in the state the body had reached: the calls issued are those of
    the one attempt, nothing is run again, and the frame loop makes no
    further call of draw. Likewise, when the guard !flowfield ||
    !distortionField holds, draw logs, calls noLoop and returns with nothing
    drawn; distortionField always holds an array, so the guard holds exactly
    when flowfield is undefined. That covers a distortionField left
    uninitialized as well: in the state setup leaves, however it ended, an
    empty distortionField comes with an undefined flowfield, and draw stops
    the loop without drawing. *)
Theorem draw_catch_all s :
  (forall error,
     result_of (draw_try s) = Throw error ->
     let s' := state_of (draw s) in
     draw s = (Ok tt, draw_failed error (state_of (draw_try s))) /\
     looping s' = false /\
     issued s' = issued (state_of (draw_try s)) /\
     (forall frames, animate frames s' = s')) /\
  (not_object (flowfield s) || not_array (distortionField s) = true ->
     let s' := state_of (draw s) in
     draw s = (Ok tt, draw_refused s) /\
     looping s' = false /\
     issued s' = issued s /\
     (forall frames, animate frames s' = s')) /\
  (not_object (flowfield s) || not_array (distortionField s) = true <->
   flowfield s = None) /\
  (forall rs fs,
     s = state_of (setup (initial rs fs)) ->
     flowfield s = None \/ distortionField s = [] ->
     draw s = (Ok tt, draw_refused s) /\
     looping (state_of (draw s)) = false /\
     issued (state_of (draw s)) = issued s).
Proof.
  assert (Hrefuse : flowfield s = None -> draw s = (Ok tt, draw_refused s)).
  { intros Hff. unfold draw, draw_try. rewrite !try_gets. rewrite Hff. reflexivity. }
  split; [|split; [|split]].
  - intros error Hthrow s'.
    assert (Hd : draw s = (Ok tt, draw_failed error (state_of (draw_try s)))).
    { unfold draw. cbn [try_catch]. unfold result_of, state_of in *.
      destruct (draw_try s) as [[[]|e] s1]; cbn [fst snd] in *; [discriminate|].
      injection Hthrow as ->. reflexivity. }
    subst s'. rewrite Hd. cbn [state_of snd].
    repeat split. intros frames. apply animate_halted. reflexivity.
  - intros Hguard s'.
    assert (Hd : draw s = (Ok tt, draw_refused s)).
    { unfold draw, draw_try. rewrite !try_gets. rewrite Hguard. reflexivity. }
    subst s'. rewrite Hd. cbn [state_of snd].
    repeat split. intros frames. apply animate_halted. reflexivity.
  - unfold not_array. rewrite orb_false_r.
    destruct (flowfield s); cbn [not_object]; split; congruence.
  - intros rs fs Hs Hmissing.
    assert (Hff : flowfield s = None).
    { destruct Hmissing as [Hff|Hdf]; [exact Hff|].
      pose proof (setup_components rs fs) as Hc. cbv zeta in Hc. rewrite <- Hs in Hc.
      destruct Hc as [[Hff _]|[_ Hlen]]; [exact Hff|].
      rewrite Hdf in Hlen. discriminate. }
    rewrite (Hrefuse Hff). repeat split.
Qed.

(** ** Two runs side by side

    [relates Rel m Q]: from two states related by [Rel], the two runs of [m] end
    alike (both return the same value, or both throw the same error) in
    states related by [Q]. *)
Definition relates {A} (Rel : State -> State -> Prop) (m : M A)
    (Q : State -> State -> Prop) : Prop :=
  forall s1 s2, Rel s1 s2 ->
    result_of (m s1) = result_of (m s2) /\ Q (state_of (m s1)) (state_of (m s2)).

Definition respects {A} (Rel : State -> State -> Prop) (m : M A) : Prop :=
  relates Rel m Rel.

Lemma relates_weaken {A} (Rel Rel' Q Q' : State -> State -> Prop) (m : M A) :
  (forall s1 s2, Rel' s1 s2 -> Rel s1 s2) ->
  (forall s1 s2, Q s1 s2 -> Q' s1 s2) ->
  relates Rel m Q -> relates Rel' m Q'.
Proof.
  intros HR HQ Hm s1 s2 H. destruct (Hm s1 s2 (HR _ _ H)) as [Hr Hs].
  split; [exact Hr | apply HQ, Hs].
Qed.

Lemma relates_bind {A B} Rel Rel1 Q (m : M A) (k : A -> M B) :
  relates Rel m Rel1 ->
  (forall a, relates Rel1 (k a) Q) ->
  (forall s1 s2, Rel1 s1 s2 -> Q s1 s2) ->
  relates Rel (bind m k) Q.
Proof.
  intros Hm Hk Hsub s1 s2 H. destruct (Hm s1 s2 H) as [Hr Hs].
  unfold result_of, state_of in *. cbn [bind].
  destruct (m s1) as [[a1|e1] s1'], (m s2) as [[a2|e2] s2'];
    cbn [fst snd] in *; try discriminate.
  - injection Hr as ->. apply Hk, Hs.
  - injection Hr as ->. split; [reflexivity | apply Hsub, Hs].
Qed.

Lemma respects_ret {A} Rel (a : A) : respects Rel (ret a).
Proof. intros s1 s2 H. split; [reflexivity | exact H]. Qed.

Lemma respects_throw {A} Rel e : respects Rel (@throw A e).
Proof. intros s1 s2 H. split; [reflexivity | exact H]. Qed.

Lemma respects_gets {A} Rel (f : State -> A) :
  (forall s1 s2, Rel s1 s2 -> f s1 = f s2) -> respects Rel (gets f).
Proof. intros Hf s1 s2 H. split; [cbn; f_equal; apply Hf, H | exact H]. Qed.

Lemma respects_modify Rel g :
  (forall s1 s2, Rel s1 s2 -> Rel (g s1) (g s2)) -> respects Rel (modify g).
Proof. intros Hg s1 s2 H. split; [reflexivity | apply Hg, H]. Qed.

Lemma respects_bind {A B} Rel (m : M A) (k : A -> M B) :
  respects Rel m -> (forall a, respects Rel (k a)) -> respects Rel (bind m k).
Proof. intros Hm Hk. apply (relates_bind Rel Rel Rel); auto. Qed.

Lemma respects_try_catch {A} Rel (body : M A) handler :
  respects Rel body -> (forall e, respects Rel (handler e)) ->
  respects Rel (try_catch body handler).
Proof.
  intros Hm Hk s1 s2 H. destruct (Hm s1 s2 H) as [Hr Hs].
  unfold result_of, state_of in *. cbn [try_catch].
  destruct (body s1) as [[a1|e1] s1'], (body s2) as [[a2|e2] s2'];
    cbn [fst snd] in *; try discriminate.
  - split; assumption.
  - injection Hr as ->. apply Hk, Hs.
Qed.

Lemma respects_emit (Rel : State -> State -> Prop) c :
  (forall s1 s2, Rel s1 s2 -> faults s1 (calls s1) = faults s2 (calls s2)) ->
  (forall s1 s2, Rel s1 s2 ->
     Rel (set_calls (S (calls s1)) s1) (set_calls (S (calls s2)) s2)) ->
  (forall s1 s2, Rel s1 s2 ->
     Rel (set_issued (issued s1 ++ [c]) (set_calls (S (calls s1)) s1))
       (set_issued (issued s2 ++ [c]) (set_calls (S (calls s2)) s2))) ->
  respects Rel (emit c).
Proof.
  intros Hf Hc Hi s1 s2 H. unfold result_of, state_of. cbn [emit].
  rewrite (Hf s1 s2 H). destruct (faults s2 (calls s2)); cbn [fst snd]; auto.
Qed.

Lemma respects_random (Rel : State -> State -> Prop) :
  (forall s1 s2, Rel s1 s2 -> randoms s1 (rpos s1) = randoms s2 (rpos s2)) ->
  (forall s1 s2, Rel s1 s2 ->
     Rel (set_rpos (S (rpos s1)) s1) (set_rpos (S (rpos s2)) s2)) ->
  respects Rel random.
Proof.
  intros Hr Hp s1 s2 H. unfold result_of, state_of. cbn [random fst snd].
  rewrite (Hr s1 s2 H). auto.
Qed.

Lemma respects_forEach {A} Rel (l : list A) body :
  (forall a, respects Rel (body a)) -> respects Rel (forEach l body).
Proof.
  intros Hb. induction l as [|a l IH]; cbn [forEach].
  - apply respects_ret.
  - apply respects_bind; [apply Hb | intros _; exact IH].
Qed.

Lemma respects_forReal Rel fuel cond next t body :
  (forall t, respects Rel (body t)) -> respects Rel (forReal fuel cond next t body).
Proof.
  intros Hb. revert t. induction fuel as [|fuel IH]; intros t; cbn [forReal].
  - apply respects_ret.
  - destruct (cond t); [|apply respects_ret].
    apply respects_bind; [apply Hb | intros _; apply IH].
Qed.

(** Proves [respects Rel m] for a piece of the sketch, given a tactic for the
    reads and updates [m] makes. *)
Ltac relate_with side :=
  repeat first
    [ progress intros
    | match goal with
      | H : context [respects] |- respects _ _ => solve [apply H]
      end
    | apply respects_ret
    | apply respects_throw
    | apply respects_bind
    | apply respects_try_catch
    | apply respects_forEach
    | apply respects_forReal
    | apply respects_gets; solve [side]
    | apply respects_emit; [solve [side] | solve [side] | solve [side]]
    | apply respects_random; [solve [side] | solve [side]]
    | apply respects_modify; solve [side]
    | match goal with
      | |- respects _ (if ?c then _ else _) => destruct c
      | |- respects _ (match ?x with _ => _ end) => destruct x
      end
    | progress autounfold with sketch ].

(** *** What a renderer's output is a function of *)

(** Two states with the same animation time, emotional intensity, distortion
    field and canvas size, in which p5 has been called alike so far and will
    react alike. Everything else may differ: the flow field and its
    vectors, the random stream, the pixel buffer, the frame counter. *)
Definition same_parameters (s1 s2 : State) : Prop :=
  globalTime s1 = globalTime s2 /\
  emotionalIntensity s1 = emotionalIntensity s2 /\
  distortionField s1 = distortionField s2 /\
  width s1 = width s2 /\
  height s1 = height s2 /\
  faults s1 = faults s2 /\
  calls s1 = calls s2 /\
  issued s1 = issued s2.

Ltac parameters_side :=
  intros;
  repeat match goal with
         | H : same_parameters _ _ |- _ =>
             destruct H as (? & ? & ? & ? & ? & ? & ? & ?)
         | H : _ /\ _ |- _ => destruct H
         end;
  unfold same_parameters; msimpl; repeat split; congruence.

Lemma drawBody_respects isShadow baseDistortion :
  respects same_parameters (drawBody isShadow baseDistortion).
Proof. relate_with parameters_side. Qed.

Lemma drawArms_respects baseDistortion :
  respects same_parameters (drawArms baseDistortion).
Proof. relate_with parameters_side. Qed.

Lemma drawHead_respects baseDistortion :
  respects same_parameters (drawHead baseDistortion).
Proof. relate_with parameters_side. Qed.

Lemma drawFigure_respects isShadow :
  respects same_parameters (drawFigure isShadow).
Proof.
  unfold drawFigure.
  repeat first [ apply drawBody_respects | apply drawArms_respects
               | apply drawHead_respects | apply respects_ret
               | apply respects_gets; solve [parameters_side]
               | match goal with
                 | |- respects _ (if ?c then _ else _) => destruct c
                 end
               | apply respects_bind; intros ].
Qed.

Lemma drawShadowLayer_respects : respects same_parameters drawShadowLayer.
Proof.
  unfold drawShadowLayer.
  repeat first [ apply drawFigure_respects
               | apply respects_gets; solve [parameters_side]
               | apply respects_emit; [solve [parameters_side] ..]
               | apply respects_bind; intros ].
Qed.

Lemma drawVignette_respects : respects same_parameters drawVignette.
Proof. relate_with parameters_side. Qed.

Lemma addEmotionalGlow_respects : respects same_parameters addEmotionalGlow.
Proof. relate_with parameters_side. Qed.

(** ** Reals that are integers *)

Lemma Rltb_true a b : a < b -> Rltb a b = true.
Proof. intros H. unfold Rltb. destruct (Rlt_dec a b); [reflexivity | contradiction]. Qed.

Lemma Rltb_false a b : b <= a -> Rltb a b = false.
Proof. intros H. unfold Rltb. destruct (Rlt_dec a b); [lra | reflexivity]. Qed.

Lemma Rleb_true a b : a <= b -> Rleb a b = true.
Proof. intros H. unfold Rleb. destruct (Rle_dec a b); [reflexivity | contradiction]. Qed.

Lemma Rleb_false a b : b < a -> Rleb a b = false.
Proof. intros H. unfold Rleb. destruct (Rle_dec a b); [lra | reflexivity]. Qed.

Lemma Zceil_IZR z : Zceil (IZR z) = z.
Proof. apply Zceil_eq. lra. Qed.

Lemma below_INR n : below (INR n) = seq 0 n.
Proof. unfold below. rewrite INR_IZR_INZ, Zceil_IZR, Nat2Z.id. reflexivity. Qed.

Lemma element_index_INR n : element_index (INR n) = Some n.
Proof.
  unfold element_index. rewrite INR_IZR_INZ, ZfloorZ.
  destruct (Req_dec_T (IZR (Z.of_nat n)) (IZR (Z.of_nat n))) as [_|H]; [|contradiction].
  destruct (Z.leb_spec 0 (Z.of_nat n)); [|lia].
  rewrite Nat2Z.id. reflexivity.
Qed.

Lemma typed_get_INR px n : typed_get px (INR n) = px !! n.
Proof. unfold typed_get. rewrite element_index_INR. reflexivity. Qed.

Lemma typed_set_INR px n v : typed_set px (INR n) v = <[n := ToUint8Clamp v]> px.
Proof. unfold typed_set. rewrite element_index_INR. reflexivity. Qed.

(** The index of pixel (x, y) on a canvas [w] pixels wide. *)
Lemma pixel_index x y w c :
  (INR x + INR y * INR w) * 4 + INR c = INR (4 * (x + y * w) + c).
Proof. rewrite !plus_INR, !mult_INR, !plus_INR, !mult_INR. simpl. lra. Qed.

Lemma pixel_index_0 x y w :
  (INR x + INR y * INR w) * 4 = INR (4 * (x + y * w) + 0).
Proof. rewrite <- pixel_index. simpl. lra. Qed.

(** ** The loops as the source runs them *)


(** Once the loop's test fails after [n] rounds, fuel beyond [n] changes
    nothing. *)
Lemma forReal_fuel cond next body :
  forall n t fuel,
    (n <= fuel)%nat ->
    cond (Nat.iter n next t) = false ->
    forReal fuel cond next t body = forReal n cond next t body.
Proof.
  induction n as [|n IH]; intros t fuel Hn Hstop.
  - cbn in Hstop. destruct fuel; cbn [forReal]; [reflexivity|].
    rewrite Hstop. reflexivity.
  - destruct fuel as [|fuel]; [lia|]. cbn [forReal].
    destruct (cond t); [|reflexivity].
    rewrite (IH (next t) fuel); [reflexivity | lia |].
    rewrite <- Nat.iter_succ_r. exact Hstop.
Qed.

Lemma iter_step n h t : Nat.iter n (fun t => t + h) t = t + INR n * h.
Proof.
  induction n as [|n IH].
  - cbn. lra.
  - rewrite Nat.iter_succ, IH, S_INR. lra.
Qed.

Lemma iter_step_down n h t : Nat.iter n (fun t => t - h) t = t - INR n * h.
Proof.
  induction n as [|n IH].
  - cbn. lra.
  - rewrite Nat.iter_succ, IH, S_INR. lra.
Qed.

(** The fuel of the sketch's three kinds of loop is enough: with more, they
    run the same. (Over the reals the loops of [drawBody] stop after 51
    rounds and those over the angle after 63; in doubles the loops of
    [drawBody] stop after 50, see [Binary64].) *)
Lemma body_left_fuel body extra :
  forReal (loop_fuel + extra) (fun t => Rleb t 1) (fun t => t + 0.02) 0 body =
  forReal loop_fuel (fun t => Rleb t 1) (fun t => t + 0.02) 0 body.
Proof.
  rewrite (forReal_fuel _ _ body 51 0 (loop_fuel + extra)),
          (forReal_fuel _ _ body 51 0 loop_fuel); try reflexivity;
    try (unfold loop_fuel; lia).
  all: rewrite iter_step, INR_IZR_INZ; change (Z.of_nat 51) with 51%Z;
    apply Rleb_false; lra.
Qed.

Lemma body_right_fuel body extra :
  forReal (loop_fuel + extra) (fun t => Rgeb t 0) (fun t => t - 0.02) 1 body =
  forReal loop_fuel (fun t => Rgeb t 0) (fun t => t - 0.02) 1 body.
Proof.
  rewrite (forReal_fuel _ _ body 51 1 (loop_fuel + extra)),
          (forReal_fuel _ _ body 51 1 loop_fuel); try reflexivity;
    try (unfold loop_fuel; lia).
  all: rewrite iter_step_down, INR_IZR_INZ; change (Z.of_nat 51) with 51%Z;
    unfold Rgeb; apply Rleb_false; lra.
Qed.

Lemma angle_fuel body extra :
  forReal (loop_fuel + extra) (fun angle => Rltb angle TWO_PI)
    (fun angle => angle + 0.1) 0 body =
  forReal loop_fuel (fun angle => Rltb angle TWO_PI) (fun angle => angle + 0.1) 0 body.
Proof.
  rewrite (forReal_fuel _ _ body 80 0 (loop_fuel + extra)),
          (forReal_fuel _ _ body 80 0 loop_fuel); try reflexivity;
    try (unfold loop_fuel; lia).
  all: rewrite iter_step, INR_IZR_INZ; change (Z.of_nat 80) with 80%Z;
    apply Rltb_false; unfold TWO_PI; pose proof PI_4; lra.
Qed.

(** ** The noise pass *)

(** What [pixels[i] = constrain(pixels[i] + noiseAmount, 0, 255)] stores. *)
Definition perturbed (p : Z) (noiseAmount : R) : Z :=
  ToUint8Clamp (p5.constrain (IZR p + noiseAmount) 0 255).

(** The noise amount drawn for a pixel from the [k]-th value of the stream:
    [random(-6, 6) * emotionalIntensity]. *)
Definition noise_amount (s : State) (k : nat) : R :=
  (randoms s k * (6 - -6) + -6) * emotionalIntensity s.

Definition dark (r g b : Z) : bool := Rltb ((IZR r + IZR g + IZR b) / 3) 180.



Lemma noisePixel_exec s w x y r g b :
  width s = INR w ->
  pixels s !! (4 * (x + y * w) + 0)%nat = Some r ->
  pixels s !! (4 * (x + y * w) + 1)%nat = Some g ->
  pixels s !! (4 * (x + y * w) + 2)%nat = Some b ->
  noisePixel x y s =
    (Ok tt,
     if dark r g b then
       let n := noise_amount s (rpos s) in
       set_pixels
         (<[(4 * (x + y * w) + 2)%nat := perturbed b n]>
            (<[(4 * (x + y * w) + 1)%nat := perturbed g n]>
               (<[(4 * (x + y * w) + 0)%nat := perturbed r n]> (pixels s))))
         (set_rpos (S (rpos s)) s)
     else s).
Proof.
  intros Hw Hr Hg Hb. unfold noisePixel, perturb, random2, noise_amount.
  destruct s. msimpl. subst.
  change 1 with (INR 1). change 2 with (INR 2).
  rewrite !pixel_index, pixel_index_0, !typed_get_INR, Hr, Hg, Hb.
  fold (dark r g b). destruct (dark r g b); [|reflexivity].
  msimpl.
  repeat first
    [ rewrite typed_get_INR | rewrite typed_set_INR
    | rewrite list_lookup_insert_ne by lia
    | rewrite Hr | rewrite Hg | rewrite Hb | progress msimpl ].
  reflexivity.
Qed.
Arguments noisePixel : simpl never.


(** A pixel the pass has visited, [px0] being the buffer as loaded and [px]
    the buffer now: bright, it is as it was; dark, its three color channels
    are perturbed by one noise amount; its alpha is as it was. *)
Definition pixel_visited (s0 : State) (px : list Z) (j : nat) : Prop :=
  forall r g b,
    pixels s0 !! (4 * j + 0)%nat = Some r ->
    pixels s0 !! (4 * j + 1)%nat = Some g ->
    pixels s0 !! (4 * j + 2)%nat = Some b ->
    px !! (4 * j + 3)%nat = pixels s0 !! (4 * j + 3)%nat /\
    if dark r g b then
      exists k,
        px !! (4 * j + 0)%nat = Some (perturbed r (noise_amount s0 k)) /\
        px !! (4 * j + 1)%nat = Some (perturbed g (noise_amount s0 k)) /\
        px !! (4 * j + 2)%nat = Some (perturbed b (noise_amount s0 k))
    else
      px !! (4 * j + 0)%nat = Some r /\
      px !! (4 * j + 1)%nat = Some g /\
      px !! (4 * j + 2)%nat = Some b.

(** The loops' invariant: from the state [s0] the pass has visited the first
    [m] pixels (row by row) and reached [s]. *)
Definition noise_pass_at (s0 s : State) (m : nat) : Prop :=
  s = set_pixels (pixels s) (set_rpos (rpos s) s0) /\
  length (pixels s) = length (pixels s0) /\
  (forall j, (j < m)%nat -> pixel_visited s0 (pixels s) j) /\
  (forall i, (4 * m <= i)%nat -> pixels s !! i = pixels s0 !! i).

Lemma noise_pass_start s0 : noise_pass_at s0 s0 0.
Proof.
  unfold noise_pass_at. split; [|split; [|split]].
  - destruct s0. reflexivity.
  - reflexivity.
  - intros j Hj. lia.
  - reflexivity.
Qed.

Lemma noisePixel_step s0 s w x y :
  width s0 = INR w ->
  noise_pass_at s0 s (x + y * w) ->
  (4 * (x + y * w) + 4 <= length (pixels s0))%nat ->
  noisePixel x y s = (Ok tt, state_of (noisePixel x y s)) /\
  noise_pass_at s0 (state_of (noisePixel x y s)) (S (x + y * w)).
Proof.
  intros Hw (Hs & Hlen & Hdone & Hrest) Hin.
  set (m := (x + y * w)%nat) in *.
  assert (Hws : width s = INR w) by (rewrite Hs; exact Hw).
  assert (Hget : forall c, (c < 4)%nat ->
            exists p, pixels s0 !! (4 * m + c)%nat = Some p /\
                      pixels s !! (4 * m + c)%nat = Some p).
  { intros c Hc. destruct (lookup_lt_is_Some_2 (pixels s0) (4 * m + c)%nat) as [p Hp];
      [lia|]. exists p. split; [exact Hp|]. rewrite Hrest by lia. exact Hp. }
  destruct (Hget 0%nat ltac:(lia)) as (r & Hr0 & Hr).
  destruct (Hget 1%nat ltac:(lia)) as (g & Hg0 & Hg).
  destruct (Hget 2%nat ltac:(lia)) as (b & Hb0 & Hb).
  rewrite (noisePixel_exec s w x y r g b Hws Hr Hg Hb). fold m.
  cbn [state_of snd]. split; [reflexivity|].
  destruct (dark r g b) eqn:Hdark.
  - cbv zeta. unfold noise_pass_at.
    assert (Hna : noise_amount s (rpos s) = noise_amount s0 (rpos s)).
    { unfold noise_amount. rewrite Hs. reflexivity. }
    rewrite Hna. set (n := noise_amount s0 (rpos s)).
    split; [|split; [|split]].
    + rewrite Hs. reflexivity.
    + cbn [pixels set_pixels]. rewrite !length_insert. exact Hlen.
    + intros j Hj. cbn [pixels set_pixels].
      destruct (Nat.eq_dec j m) as [->|Hne].
      * intros r' g' b' Hr' Hg' Hb'.
        rewrite Hr0 in Hr'. rewrite Hg0 in Hg'. rewrite Hb0 in Hb'.
        injection Hr' as <-. injection Hg' as <-. injection Hb' as <-.
        rewrite Hdark.
        assert (Hl : (4 * m + 2 < length (pixels s))%nat) by lia.
        split.
        -- rewrite !list_lookup_insert_ne by lia. apply Hrest. lia.
        -- exists (rpos s). fold n. repeat split.
           ++ rewrite !list_lookup_insert_ne by lia.
              apply list_lookup_insert_eq. lia.
           ++ rewrite list_lookup_insert_ne by lia.
              apply list_lookup_insert_eq. rewrite length_insert. lia.
           ++ apply list_lookup_insert_eq. rewrite !length_insert. lia.
      * assert (Hjm : (j < m)%nat) by lia.
        intros r' g' b' Hr' Hg' Hb'.
        destruct (Hdone j Hjm r' g' b' Hr' Hg' Hb') as [Ha Hc].
        rewrite !list_lookup_insert_ne by lia. split; [exact Ha|exact Hc].
    + intros i Hi. cbn [pixels set_pixels].
      rewrite !list_lookup_insert_ne by lia. apply Hrest. lia.
  - unfold noise_pass_at. split; [|split; [|split]]; try assumption.
    + intros j Hj. destruct (Nat.eq_dec j m) as [->|Hne].
      * intros r' g' b' Hr' Hg' Hb'.
        rewrite Hr0 in Hr'. rewrite Hg0 in Hg'. rewrite Hb0 in Hb'.
        injection Hr' as <-. injection Hg' as <-. injection Hb' as <-.
        rewrite Hdark. split; [apply Hrest; lia|]. auto.
      * apply Hdone. lia.
    + intros i Hi. apply Hrest. lia.
Qed.

Lemma noise_row s0 w y :
  width s0 = INR w ->
  (4 * (S y * w) <= length (pixels s0))%nat ->
  forall n a s,
    (a + n <= w)%nat ->
    noise_pass_at s0 s (a + y * w) ->
    let run_row := forEach (seq a n) (fun x => noisePixel x y) s in
    result_of run_row = Ok tt /\
    noise_pass_at s0 (state_of run_row) (a + n + y * w).
Proof.
  intros Hw Hlen. induction n as [|n IH]; intros a s Han Hs; cbn [forEach seq].
  - cbn. rewrite Nat.add_0_r. split; [reflexivity | exact Hs].
  - destruct (noisePixel_step s0 s w a y Hw Hs) as [Hexec Hnext]; [nia|].
    cbn [bind]. rewrite Hexec.
    destruct (IH (S a) (state_of (noisePixel a y s)) ltac:(lia) Hnext) as [Hr Hp].
    split; [exact Hr|].
    replace (a + S n + y * w)%nat with (S a + n + y * w)%nat by lia. exact Hp.
Qed.

Lemma noise_rows s0 w h :
  width s0 = INR w ->
  (4 * (h * w) <= length (pixels s0))%nat ->
  forall n b s,
    (b + n <= h)%nat ->
    noise_pass_at s0 s (b * w) ->
    let run_rows :=
      forEach (seq b n)
        (fun y => w' <- gets width ;; forEach (below w') (fun x => noisePixel x y)) s in
    result_of run_rows = Ok tt /\
    noise_pass_at s0 (state_of run_rows) ((b + n) * w).
Proof.
  intros Hw Hlen. induction n as [|n IH]; intros b s Hbn Hs; cbn [forEach seq].
  - cbn. rewrite Nat.add_0_r. split; [reflexivity | exact Hs].
  - assert (Hws : width s = INR w) by (destruct Hs as [-> _]; exact Hw).
    cbn [bind gets]. rewrite Hws, below_INR.
    destruct (noise_row s0 w b Hw ltac:(nia) w 0%nat s ltac:(lia) Hs) as [Hr Hp].
    unfold result_of, state_of in Hr, Hp.
    destruct (forEach (seq 0 w) (fun x => noisePixel x b) s) as [[[]|e] s1];
      cbn [fst snd] in Hr, Hp; [|discriminate].
    replace (0 + w + b * w)%nat with (S b * w)%nat in Hp by lia.
    destruct (IH (S b) s1 ltac:(lia) Hp) as [Hr' Hp'].
    split; [exact Hr'|].
    replace ((b + S n) * w)%nat with ((S b + n) * w)%nat by lia. exact Hp'.
Qed.

(** The state in which the loops of [addNoiseToFigure] start: [loadPixels]
    has been called and has filled [pixels]. *)
Definition pixels_loaded (s : State) : State :=
  set_pixels (rasterize (issued s ++ [LoadPixels]))
    (set_issued (issued s ++ [LoadPixels]) (set_calls (S (calls s)) s)).

Lemma loadPixels_loads s :
  faults s (calls s) = None -> loadPixels s = (Ok tt, pixels_loaded s).
Proof.
  intros Hf. unfold loadPixels, pixels_loaded. cbn [bind emit gets modify].
  rewrite Hf. reflexivity.
Qed.

Lemma addNoiseToFigure_pass s w h :
  width s = INR w ->
  height s = INR h ->
  length (rasterize (issued s ++ [LoadPixels])) = (4 * (h * w))%nat ->
  faults s (calls s) = None ->
  exists s1,
    noise_pass_at (pixels_loaded s) s1 (h * w) /\
    pixels (state_of (addNoiseToFigure s)) = pixels s1.
Proof.
  intros Hw Hh Hlen Hf.
  set (s0 := pixels_loaded s).
  assert (Hw0 : width s0 = INR w) by exact Hw.
  assert (Hlen0 : (4 * (h * w) <= length (pixels s0))%nat)
    by (change (pixels s0) with (rasterize (issued s ++ [LoadPixels])); lia).
  destruct (noise_rows s0 w h Hw0 Hlen0 h 0%nat s0 ltac:(lia)
              (noise_pass_start s0)) as [Hr Hp].
  cbn [Nat.add] in Hp.
  unfold addNoiseToFigure, updatePixels.
  cbn [bind]. rewrite (loadPixels_loads s Hf). fold s0.
  cbn [gets]. change (height s0) with (height s). rewrite Hh, below_INR.
  unfold result_of, state_of in Hr, Hp.
  destruct (forEach (seq 0 h) _ s0) as [[[]|e] s1]; cbn [fst snd] in Hr, Hp;
    [|discriminate].
  exists s1. split; [exact Hp|].
  cbn [emit]. destruct (faults s1 (calls s1)); reflexivity.
Qed.

Lemma dark_spec r g b :
  ((IZR r + IZR g + IZR b) / 3 < 180 -> dark r g b = true) /\
  (180 <= (IZR r + IZR g + IZR b) / 3 -> dark r g b = false).
Proof. unfold dark. split; intros H; [apply Rltb_true | apply Rltb_false]; exact H. Qed.

(** The bytes the pass does not reach. *)









(** The pass on a canvas of one pixel, dark: its three colors are perturbed by
    the noise amount drawn from the next value of the stream. *)
Lemma addNoiseToFigure_one_pixel s r g b a :
  width s = 1 ->
  height s = 1 ->
  rasterize (issued s ++ [LoadPixels]) = [r; g; b; a] ->
  faults s (calls s) = None ->
  dark r g b = true ->
  pixels (state_of (addNoiseToFigure s)) =
    [perturbed r (noise_amount s (rpos s)); perturbed g (noise_amount s (rpos s));
     perturbed b (noise_amount s (rpos s)); a].
Proof.
  intros Hw Hh Hpx Hf Hd.
  unfold addNoiseToFigure, updatePixels. cbn [bind].
  rewrite (loadPixels_loads s Hf).
  set (s0 := pixels_loaded s).
  assert (Hp0 : pixels s0 = [r; g; b; a]) by exact Hpx.
  assert (Hb1 : below 1 = [0%nat]) by (change 1 with (INR 1); apply below_INR).
  cbn [gets]. change (height s0) with (height s). rewrite Hh, Hb1.
  cbn [forEach bind gets]. change (width s0) with (width s). rewrite Hw, Hb1.
  cbn [forEach bind].
  rewrite (noisePixel_exec s0 1 0 0 r g b); [|exact Hw|rewrite Hp0; reflexivity ..].
  rewrite Hd. cbv zeta. cbn [ret bind gets emit pixels set_pixels set_rpos].
  rewrite Hp0.
  match goal with |- context [match ?f with _ => _ end] => destruct f end;
    reflexivity.
Qed.

(** ** The flow field *)

(** The state after a p5 call that did not throw. *)
Definition emitted (c : Cmd) (s : State) : State :=
  set_issued (issued s ++ [c]) (set_calls (S (calls s)) s).

Lemma try_emit_ok {B} c (k : unit -> M B) h s :
  faults s (calls s) = None ->
  try_catch (bind (emit c) k) h s = try_catch (k tt) h (emitted c s).
Proof. intros Hf. cbn [try_catch bind emit]. rewrite Hf. reflexivity. Qed.

Lemma try_exec {A B} (m : M A) (k : A -> M B) h s a s' :
  m s = (Ok a, s') ->
  try_catch (bind m k) h s = try_catch (k a) h s'.
Proof. intros Hm. cbn [try_catch bind]. rewrite Hm. reflexivity. Qed.

(** The value of [xoff] (and of [yoff]) at the [n]-th iteration: 0.1 added
    [n] times to 0. *)
Fixpoint offset (n : nat) : R :=
  match n with
  | O => 0
  | S k => offset k + 0.1
  end.

Definition flow_angle (time : R) (x y : nat) : R :=
  noise (offset x) (offset y) (time * 0.015) * TWO_PI * 2 +
  sin (time * 0.08 + INR x * 0.1 + INR y * 0.1) * 0.3.

(** The vector [update(time)] computes for the cell in column [x], row [y]. *)
Definition flow_vector (speed : R) (time : R) (x y : nat) : Vec :=
  Vector.mult (Vector.fromAngle (flow_angle time x y)) speed.

Lemma flow_vector_mag speed time x y :
  0 <= speed -> Vector.mag (flow_vector speed time x y) = speed.
Proof.
  intros Hs. unfold Vector.mag, flow_vector, Vector.mult, Vector.fromAngle.
  cbn [vx vy]. set (a := flow_angle time x y).
  replace (cos a * speed * (cos a * speed) + sin a * speed * (sin a * speed))
    with (((sin a)² + (cos a)²) * (speed * speed)) by (unfold Rsqr; ring).
  rewrite sin2_cos2, Rmult_1_l. apply sqrt_square, Hs.
Qed.

(** The body of the inner loop of [update], for the cell in column [x] and
    row [y]. *)
Definition update_cell (this : FlowField) (time : R) (x : nat) (xoff : R)
    (y : nat) (yoff : R) : M R :=
  let index := (Z.of_nat x + Z.of_nat y * cols this)%Z in
  let angle := noise xoff yoff (time * 0.015) * TWO_PI * 2 +
               sin (time * 0.08 + INR x * 0.1 + INR y * 0.1) * 0.3 in
  v <- VectorObj.fromAngle angle ;;
  v <- VectorObj.mult v (particleSpeed this) ;;
  field_store index v ;;
  ret (yoff + 0.1).

Definition update_column (this : FlowField) (time : R) (x : nat) (xoff : R) : M R :=
  forAcc (seq 0 (Z.to_nat (rows this))) 0 (update_cell this time x xoff) ;;
  ret (xoff + 0.1).

Lemma FlowField_update_eq time :
  FlowField_update time =
  (this <- the_flowfield ;;
   forAcc (seq 0 (Z.to_nat (cols this))) 0 (update_column this time) ;;
   ret tt).
Proof. reflexivity. Qed.

(** [ff] with [field] replaced. *)
Definition with_field (ff : FlowField) (f : list (option loc)) : FlowField :=
  mkFlowField (resolution ff) (cols ff) (rows ff) f (particleSpeed ff).

Lemma update_cell_exec s ff this time x xoff y yoff :
  flowfield s = Some ff ->
  update_cell this time x xoff y yoff s =
    (Ok (yoff + 0.1),
     set_flowfield
       (Some (with_field ff
                (array_set (field ff) (Z.of_nat x + Z.of_nat y * cols this)
                   (length (vectors s)))))
       (set_vectors
          (vectors s ++
           [Vector.mult
              (Vector.fromAngle
                 (noise xoff yoff (time * 0.015) * TWO_PI * 2 +
                  sin (time * 0.08 + INR x * 0.1 + INR y * 0.1) * 0.3))
              (particleSpeed this)])
          s)).
Proof.
  intros Hff. unfold update_cell, VectorObj.fromAngle, VectorObj.mult,
    VectorObj.new, VectorObj.get, field_store, the_flowfield, with_field.
  destruct s. msimpl. subst.
  rewrite lookup_app_r, Nat.sub_diag by lia. cbn [lookup list_lookup].
  msimpl. rewrite insert_app_r_alt, Nat.sub_diag by lia. reflexivity.
Qed.

Lemma cell_index_inj n x y X Y :
  (x < n)%nat -> (X < n)%nat -> (x + y * n = X + Y * n)%nat -> x = X /\ y = Y.
Proof.
  intros Hx HX E. destruct (Nat.lt_trichotomy y Y) as [H|[H|H]]; [nia| |nia].
  subst. split; [lia | reflexivity].
Qed.

Section Update.

Variable s0 : State.
Variable ff : FlowField.
Variable time : R.

Let nc : nat := Z.to_nat (cols ff).
Let nr : nat := Z.to_nat (rows ff).

Hypothesis flowfield_s0 : flowfield s0 = Some ff.
Hypothesis field_length : length (field ff) = (nc * nr)%nat.

(** The cells written when the loops stand at column [X], row [Y]. *)
Definition cell_done (X Y x y : nat) : Prop :=
  (x < nc)%nat /\ (y < nr)%nat /\ ((x < X)%nat \/ (x = X /\ (y < Y)%nat)).

(** The loops' invariant: only [flowfield.field] and the vector store have
    changed; the store has only grown; every cell written refers to the
    vector computed for it. *)
Definition update_at (X Y : nat) (s : State) : Prop :=
  exists f vs,
    s = set_flowfield (Some (with_field ff f)) (set_vectors (vectors s0 ++ vs) s0) /\
    length f = length (field ff) /\
    length vs = (X * nr + Y)%nat /\
    (forall x y, cell_done X Y x y ->
       exists l, f !! (x + y * nc)%nat = Some (Some l) /\
                 (vectors s0 ++ vs) !! l = Some (flow_vector (particleSpeed ff) time x y)) /\
    (forall i l, f !! i = Some (Some l) ->
       field ff !! i = Some (Some l) \/ (l < length (vectors s0 ++ vs))%nat).

Lemma update_at_start : update_at 0 0 s0.
Proof using flowfield_s0 field_length.
  exists (field ff), []. split; [|split; [|split; [|split]]].
  - rewrite app_nil_r. destruct s0, ff. cbn in *. subst. reflexivity.
  - reflexivity.
  - reflexivity.
  - intros x y (_ & _ & [H|[_ H]]); lia.
  - intros i l H. left. exact H.
Qed.

Lemma update_cell_step X Y s :
  (X < nc)%nat -> (Y < nr)%nat ->
  update_at X Y s ->
  exists s',
    update_cell ff time X (offset X) Y (offset Y) s = (Ok (offset (S Y)), s') /\
    update_at X (S Y) s'.
Proof using flowfield_s0 field_length.
  intros HX HY (f & vs & -> & Hlen & Hvs & Hcells & Hold).
  eexists. split.
  - rewrite (update_cell_exec _ (with_field ff f)) by reflexivity. reflexivity.
  - cbn [vectors set_vectors set_flowfield with_field field].
    assert (Hc : cols ff = Z.of_nat nc) by (unfold nc in *; lia).
    assert (Hidx : (Z.of_nat X + Z.of_nat Y * cols ff)%Z = Z.of_nat (X + Y * nc)) by lia.
    assert (Hin : (X + Y * nc < length f)%nat) by (rewrite Hlen, field_length; nia).
    unfold array_set. rewrite Hidx.
    destruct (Z.ltb_spec (Z.of_nat (X + Y * nc)) 0) as [?|_]; [lia|].
    rewrite Nat2Z.id. destruct (Nat.ltb_spec (X + Y * nc) (length f)) as [_|?]; [|lia].
    exists (<[(X + Y * nc)%nat := Some (length (vectors s0 ++ vs))]> f),
           (vs ++ [flow_vector (particleSpeed ff) time X Y]).
    split; [|split; [|split; [|split]]].
    + rewrite app_assoc. destruct s0. reflexivity.
    + rewrite length_insert. exact Hlen.
    + rewrite length_app. cbn [length]. lia.
    + intros x y (Hx & Hy & Hd).
      destruct (Nat.eq_dec (x + y * nc)%nat (X + Y * nc)%nat) as [E|NE].
      * destruct (cell_index_inj nc x y X Y Hx HX E) as [-> ->].
        exists (length (vectors s0 ++ vs)). split.
        -- apply list_lookup_insert_eq. exact Hin.
        -- rewrite app_assoc, lookup_app_r, Nat.sub_diag by lia. reflexivity.
      * destruct (Hcells x y) as (l & Hl & Hv).
        { split; [exact Hx|]. split; [exact Hy|].
          destruct Hd as [?|[-> Hlt]]; [left; assumption|].
          right. split; [reflexivity|].
          assert (y <> Y) by (intros ->; apply NE; reflexivity). lia. }
        exists l. split.
        -- rewrite list_lookup_insert_ne by congruence. exact Hl.
        -- rewrite app_assoc. apply lookup_app_l_Some. exact Hv.
    + intros i l Hl. rewrite app_assoc, (length_app (vectors s0 ++ vs)). cbn [length].
      destruct (Nat.eq_dec i (X + Y * nc)%nat) as [->|NE].
      * rewrite list_lookup_insert_eq in Hl by exact Hin.
        injection Hl as <-. right. lia.
      * rewrite list_lookup_insert_ne in Hl by congruence.
        destruct (Hold i l Hl) as [?|?]; [left; assumption | right; lia].
Qed.

Lemma update_rows X :
  (X < nc)%nat ->
  forall n Y s,
    (Y + n <= nr)%nat ->
    update_at X Y s ->
    exists s',
      forAcc (seq Y n) (offset Y) (update_cell ff time X (offset X)) s =
        (Ok (offset (Y + n)), s') /\
      update_at X (Y + n) s'.
Proof using flowfield_s0 field_length.
  intros HX. induction n as [|n IH]; intros Y s HY Hs; cbn [forAcc seq].
  - exists s. rewrite Nat.add_0_r. split; [reflexivity | exact Hs].
  - destruct (update_cell_step X Y s HX ltac:(lia) Hs) as (s1 & Hexec & H1).
    cbn [bind]. rewrite Hexec.
    destruct (IH (S Y) s1 ltac:(lia) H1) as (s2 & Hexec2 & H2).
    exists s2. replace (Y + S n)%nat with (S Y + n)%nat by lia.
    split; assumption.
Qed.

Lemma update_at_next_column X s : update_at X nr s -> update_at (S X) 0 s.
Proof.
  intros (f & vs & Hs & Hlen & Hvs & Hcells & Hold).
  exists f, vs. split; [exact Hs|]. split; [exact Hlen|].
  split; [lia|]. split; [|exact Hold].
  intros x y (Hx & Hy & Hd). apply Hcells. unfold cell_done. lia.
Qed.

Lemma update_columns :
  forall n X s,
    (X + n <= nc)%nat ->
    update_at X 0 s ->
    exists s',
      forAcc (seq X n) (offset X) (update_column ff time) s =
        (Ok (offset (X + n)), s') /\
      update_at (X + n) 0 s'.
Proof using flowfield_s0 field_length.
  induction n as [|n IH]; intros X s HX Hs; cbn [forAcc seq].
  - exists s. rewrite Nat.add_0_r. split; [reflexivity | exact Hs].
  - destruct (update_rows X ltac:(lia) nr 0%nat s ltac:(lia) Hs) as (s1 & Hexec & H1).
    cbn [bind]. unfold update_column at 1. cbn [bind]. fold nr.
    cbn [offset] in Hexec. rewrite Hexec. cbn [ret].
    destruct (IH (S X) s1 ltac:(lia) (update_at_next_column X s1 H1))
      as (s2 & Hexec2 & H2).
    exists s2. replace (X + S n)%nat with (S X + n)%nat by lia.
    split; assumption.
Qed.

Lemma FlowField_update_at :
  exists s', FlowField_update time s0 = (Ok tt, s') /\ update_at nc 0 s'.
Proof using flowfield_s0 field_length.
  destruct (update_columns nc 0%nat s0 ltac:(lia) update_at_start)
    as (s' & Hexec & Hs').
  exists s'. split; [|exact Hs'].
  rewrite FlowField_update_eq. unfold the_flowfield. cbn [bind gets].
  rewrite flowfield_s0. cbn [ret]. fold nc. cbn [offset] in Hexec.
  rewrite Hexec. reflexivity.
Qed.
End Update.

(** A flow field as its constructor allocates it: [cols * rows] cells. *)
Definition grid_allocated (ff : FlowField) : Prop :=
  (0 <= cols ff)%Z /\ (0 <= rows ff)%Z /\
  length (field ff) = Z.to_nat (cols ff * rows ff).

(** Every index [0 .. cols * rows - 1] of the field of [flowfield] refers to
    the vector computed for its cell from [time]; the grid's size is that of
    [ff]. *)
Definition field_regenerated (ff : FlowField) (time : R) (s : State) : Prop :=
  exists ff',
    flowfield s = Some ff' /\
    (resolution ff' = resolution ff /\ cols ff' = cols ff /\ rows ff' = rows ff /\
     particleSpeed ff' = particleSpeed ff /\ length (field ff') = length (field ff)) /\
    forall index, (index < Z.to_nat (cols ff * rows ff))%nat ->
      exists l,
        field ff' !! index = Some (Some l) /\
        vectors s !! l =
          Some (flow_vector (particleSpeed ff) time
                  (index mod Z.to_nat (cols ff)) (index / Z.to_nat (cols ff))).

Lemma update_at_regenerated s0 ff time s :
  grid_allocated ff ->
  update_at s0 ff time (Z.to_nat (cols ff)) 0 s ->
  field_regenerated ff time s.
Proof.
  intros (Hc & Hr & Hlen) (f & vs & -> & Hlf & _ & Hcells & _).
  exists (with_field ff f). split; [reflexivity|]. split; [repeat split; exact Hlf|].
  intros index Hi. cbn [vectors set_vectors set_flowfield with_field field].
  rewrite Z2Nat.inj_mul in Hi by assumption.
  set (nc := Z.to_nat (cols ff)) in *. set (nr := Z.to_nat (rows ff)) in *.
  assert (Hnc : (nc <> 0)%nat) by (intros E; rewrite E in Hi; lia).
  pose proof (Nat.mod_upper_bound index nc Hnc) as Hm.
  assert (Hd : (index / nc < nr)%nat) by (apply Nat.Div0.div_lt_upper_bound; lia).
  destruct (Hcells (index mod nc)%nat (index / nc)%nat) as (l & Hl & Hv).
  { unfold cell_done. fold nc nr. lia. }
  exists l. split; [|exact Hv].
  rewrite <- Hl. f_equal. rewrite (Nat.div_mod_eq index nc) at 1. lia.
Qed.

Lemma update_at_grows s0 ff time s :
  grid_allocated ff ->
  update_at s0 ff time (Z.to_nat (cols ff)) 0 s ->
  length (vectors s) = (length (vectors s0) + Z.to_nat (cols ff * rows ff))%nat.
Proof.
  intros (Hc & Hr & _) (f & vs & -> & _ & Hvs & _).
  cbn [vectors set_vectors set_flowfield]. rewrite length_app, Hvs.
  rewrite Z2Nat.inj_mul by assumption. lia.
Qed.

(** C5, without the exactness of the magnitude: update(time) returns having
    written every index 0 .. cols * rows - 1 of the field array: the cell of
    column x and row y (index x + y * cols) refers to the vector
    fromAngle(noise(xoff, yoff, time * 0.015) * TWO_PI * 2
    + sin(time * 0.08 + x * 0.1 + y * 0.1) * 0.3) scaled by particleSpeed =
    0.15, a vector of bounded magnitude: each of its components is at most
    0.15 in absolute value and its magnitude is within 0.0001 of 0.15; each
    call creates one vector per cell. A frame whose call of background does
    not throw runs update(globalTime) once: after draw the whole field is
    the one computed from the frame's globalTime, and cols * rows vectors
    have been created. *)
Theorem FlowField_update_regenerates s ff :
  flowfield s = Some ff ->
  grid_allocated ff ->
  particleSpeed ff = 0.15 ->
  (forall time,
     let s' := state_of (FlowField_update time s) in
     result_of (FlowField_update time s) = Ok tt /\
     field_regenerated ff time s' /\
     length (vectors s') = (length (vectors s) + Z.to_nat (cols ff * rows ff))%nat) /\
  (forall time x y,
     let v := flow_vector (particleSpeed ff) time x y in
     Rabs (vx v) <= 0.15 /\ Rabs (vy v) <= 0.15 /\
     0.1499 <= Vector.mag v <= 0.1501) /\
  (faults s (calls s) = None ->
     let s' := state_of (draw s) in
     field_regenerated ff (globalTime s') s' /\
     length (vectors s') = (length (vectors s) + Z.to_nat (cols ff * rows ff))%nat).
Proof.
  intros Hff Hgrid Hspeed.
  assert (Hlen : length (field ff) = (Z.to_nat (cols ff) * Z.to_nat (rows ff))%nat).
  { destruct Hgrid as (Hc & Hr & ->). apply Z2Nat.inj_mul; assumption. }
  split; [|split].
  - intros time.
    destruct (FlowField_update_at s ff time Hff Hlen) as (s' & -> & Hs').
    cbn [state_of snd]. split; [reflexivity|]. split.
    + apply (update_at_regenerated s), Hs'. exact Hgrid.
    + apply (update_at_grows s ff time), Hs'. exact Hgrid.
  - intros time x y v. subst v. rewrite Hspeed, flow_vector_mag by lra.
    unfold flow_vector, Vector.mult, Vector.fromAngle. cbn [vx vy].
    pose proof (COS_bound (flow_angle time x y)).
    pose proof (SIN_bound (flow_angle time x y)).
    repeat split; try (apply Rabs_le; lra); lra.
  - intros Hf. unfold draw, draw_try. rewrite !try_gets, Hff.
    cbn [not_object not_array orb].
    rewrite try_gets, try_modify, try_gets, try_modify, try_gets.
    set (gt := INR (frameCount s) * 0.008).
    match goal with |- context [try_catch _ _ ?st] => set (s1 := st) end.
    change (globalTime s1) with gt.
    rewrite (try_emit_ok _ _ _ s1) by exact Hf.
    match goal with |- context [emitted ?c s1] => set (s2 := emitted c s1) end.
    destruct (FlowField_update_at s2 ff gt Hff Hlen) as (s3 & Hexec & Hs3).
    rewrite (try_exec _ _ _ s2 tt s3 Hexec).
    pose proof (update_at_regenerated s2 ff gt s3 Hgrid Hs3) as (ff' & Hff' & Hsame & Hcells).
    pose proof (update_at_grows s2 ff gt s3 Hgrid Hs3) as Hgrow.
    change (vectors s2) with (vectors s) in Hgrow.
    assert (Hgt : globalTime s3 = gt).
    { destruct Hs3 as (f & vs & -> & _). reflexivity. }
    match goal with |- context [try_catch ?b ?h s3] =>
      assert (Hkeep : preserves
                (fun st => flowfield st = Some ff' /\ vectors st = vectors s3 /\
                           globalTime st = gt) (try_catch b h))
    end.
    { frame_with ltac:(intros; msimpl; tauto). }
    destruct (Hkeep s3 (conj Hff' (conj eq_refl Hgt))) as (H1 & H2 & H3).
    cbv zeta. rewrite H3, H2. split; [|exact Hgrow].
    exists ff'. rewrite H2. auto.
Qed.

(** ** getForce *)

(** Every reference held in the field points into the store of vectors. *)
Definition field_references_valid (ff : FlowField) (s : State) : Prop :=
  forall i l, field ff !! i = Some (Some l) -> (l < length (vectors s))%nat.

(** The flow field of a running sketch: a grid of at least one column and
    one row, [cols * rows] cells, no dangling reference. *)
Definition flowfield_well_formed (s : State) : Prop :=
  exists ff,
    flowfield s = Some ff /\
    (1 <= cols ff)%Z /\ (1 <= rows ff)%Z /\
    length (field ff) = Z.to_nat (cols ff * rows ff) /\
    field_references_valid ff s.

Lemma FlowField_update_keeps_well_formed time :
  preserves flowfield_well_formed (FlowField_update time).
Proof.
  intros s (ff & Hff & Hc & Hr & Hlen & Hval).
  assert (Hlen' : length (field ff) = (Z.to_nat (cols ff) * Z.to_nat (rows ff))%nat).
  { rewrite Hlen. apply Z2Nat.inj_mul; lia. }
  destruct (FlowField_update_at s ff time Hff Hlen') as (s' & -> & Hs').
  destruct Hs' as (f & vs & -> & Hlf & _ & _ & Hold).
  cbn [state_of snd]. exists (with_field ff f).
  split; [reflexivity|]. split; [exact Hc|]. split; [exact Hr|].
  split; [cbn [with_field field cols rows]; congruence|].
  intros i l Hl. cbn [vectors set_vectors set_flowfield].
  destruct (Hold i l Hl) as [H|H]; [|exact H].
  specialize (Hval i l H). rewrite length_app. lia.
Qed.

Lemma handle_keeps_well_formed ev :
  preserves flowfield_well_formed (handle ev).
Proof.
  pose proof FlowField_update_keeps_well_formed as Hupd.
  destruct ev;
    frame_with ltac:(intros; unfold flowfield_well_formed, field_references_valid in *;
                     msimpl; assumption).
Qed.

Lemma reachable_well_formed s : reachable s -> flowfield_well_formed s.
Proof.
  induction 1 as [rs fs Hok Hrs|s ev _ IH].
  - destruct (setup_initial rs fs Hok) as (Hff & _ & _ & _ & _ & Hv & _).
    eexists. split; [exact Hff|]. cbn [cols rows field].
    split; [lia|]. split; [lia|]. split; [reflexivity|].
    intros i l Hl. apply lookup_replicate in Hl. destruct Hl. discriminate.
  - apply (handle_keeps_well_formed ev s IH).
Qed.

Lemma floor_constrain_range v n :
  (1 <= n)%Z ->
  (0 <= p5.floor (p5.constrain v 0 (IZR n - 1)) <= n - 1)%Z.
Proof.
  intros Hn. unfold p5.floor.
  assert (H1 : 1 <= IZR n) by (apply IZR_le in Hn; exact Hn).
  pose proof (constrain_bounds v 0 (IZR n - 1) ltac:(lra)) as [Hlo Hhi].
  pose proof (Zfloor_bound (p5.constrain v 0 (IZR n - 1))) as [Hf _].
  split.
  - apply Zfloor_lub. exact Hlo.
  - apply le_IZR. rewrite minus_IZR. lra.
Qed.

(** The vector a cell of the field contributes to [getForce]: the vector it
    refers to, or the zero vector for an empty cell. *)
Definition cell_force (ff : FlowField) (s : State) (index : Z) : Vec :=
  match array_get (field ff) index with
  | Some l => default (createVec 0 0) (vectors s !! l)
  | None => createVec 0 0
  end.

Lemma getForce_exec s ff x y intensity :
  flowfield s = Some ff ->
  field_references_valid ff s ->
  let col := p5.floor (p5.constrain (x / resolution ff) 0 (IZR (cols ff) - 1)) in
  let row := p5.floor (p5.constrain (y / resolution ff) 0 (IZR (rows ff) - 1)) in
  let index := (col + row * cols ff)%Z in
  exists l extra,
    FlowField_getForce x y intensity s =
      (Ok l, set_vectors (vectors s ++ extra) s) /\
    (length (vectors s) <= l)%nat /\
    (vectors s ++ extra) !! l = Some (Vector.mult (cell_force ff s index) intensity).
Proof.
  intros Hff Hval col row index.
  unfold FlowField_getForce, the_flowfield. cbn [bind gets]. rewrite Hff. cbn [ret].
  fold col row index. unfold cell_force.
  destruct (array_get (field ff) index) as [l0|] eqn:Hcell.
  - assert (Hl0 : (l0 < length (vectors s))%nat).
    { unfold array_get in Hcell. destruct (index <? 0)%Z; [discriminate|].
      destruct (field ff !! Z.to_nat index) as [[l1|]|] eqn:E; try discriminate.
      injection Hcell as ->. apply (Hval _ _ E). }
    destruct (lookup_lt_is_Some_2 _ _ Hl0) as [v0 Hv0].
    exists (length (vectors s)), [Vector.mult v0 intensity].
    cbv beta iota. rewrite Hv0. cbn [default]. split; [|split].
    + unfold VectorObj.copy, VectorObj.mult, VectorObj.get, VectorObj.new.
      destruct s. msimpl. rewrite Hv0. msimpl.
      rewrite lookup_app_r, Nat.sub_diag by lia. cbn [lookup list_lookup]. msimpl.
      rewrite insert_app_r_alt, Nat.sub_diag by lia. reflexivity.
    + lia.
    + rewrite lookup_app_r, Nat.sub_diag by lia. reflexivity.
  - exists (S (length (vectors s))), [createVec 0 0; Vector.mult (createVec 0 0) intensity].
    cbv beta iota. split; [|split].
    + unfold VectorObj.createVector, VectorObj.copy, VectorObj.mult,
        VectorObj.get, VectorObj.new.
      destruct s. msimpl.
      rewrite lookup_app_r, Nat.sub_diag by lia. cbn [lookup list_lookup]. msimpl.
      rewrite length_app. cbn [length].
      rewrite lookup_app_r by (rewrite length_app; cbn [length]; lia).
      rewrite length_app. cbn [length].
      replace (length vectors0 + 1 - (length vectors0 + 1))%nat with 0%nat by lia.
      cbn [lookup list_lookup]. msimpl.
      rewrite insert_app_r_alt by (rewrite length_app; cbn [length]; lia).
      rewrite length_app. cbn [length].
      replace (length vectors0 + 1 - (length vectors0 + 1))%nat with 0%nat by lia.
      cbn [insert list_insert]. rewrite <- app_assoc, Nat.add_1_r. reflexivity.
    + lia.
    + rewrite lookup_app_r by lia.
      replace (S (length (vectors s)) - length (vectors s))%nat with 1%nat by lia.
      reflexivity.
Qed.

(** C9: in every state the sketch can reach, for all real x, y and intensity,
    the index col + row * cols that getForce computes from
    floor(constrain(x / resolution, 0, cols - 1)) and
    floor(constrain(y / resolution, 0, rows - 1)) lies within the field
    array; getForce returns, never throwing, a reference to a vector object
    that did not exist before, holding the addressed cell's vector scaled by
    intensity, or the zero vector when the cell is undefined; no vector that
    existed before is changed, and neither is the field or anything else
    but the store of vectors, which only grows. *)
Theorem getForce_total_and_pure s x y intensity :
  reachable s ->
  exists ff,
    flowfield s = Some ff /\
    let col := p5.floor (p5.constrain (x / resolution ff) 0 (IZR (cols ff) - 1)) in
    let row := p5.floor (p5.constrain (y / resolution ff) 0 (IZR (rows ff) - 1)) in
    let index := (col + row * cols ff)%Z in
    (0 <= index < Z.of_nat (length (field ff)))%Z /\
    exists l s',
      FlowField_getForce x y intensity s = (Ok l, s') /\
      (length (vectors s) <= l)%nat /\
      vectors s' !! l = Some (Vector.mult (cell_force ff s index) intensity) /\
      (array_get (field ff) index = None -> vectors s' !! l = Some (createVec 0 0)) /\
      (forall l0, (l0 < length (vectors s))%nat -> vectors s' !! l0 = vectors s !! l0) /\
      flowfield s' = flowfield s /\
      s' = set_vectors (vectors s') s.
Proof.
  intros Hs.
  destruct (reachable_well_formed s Hs) as (ff & Hff & Hc & Hr & Hlen & Hval).
  exists ff. split; [exact Hff|]. intros col row index. split.
  - pose proof (floor_constrain_range (x / resolution ff) (cols ff) Hc) as Hcol.
    pose proof (floor_constrain_range (y / resolution ff) (rows ff) Hr) as Hrow.
    fold col in Hcol. fold row in Hrow.
    rewrite Hlen, Z2Nat.id by nia. subst index. nia.
  - destruct (getForce_exec s ff x y intensity Hff Hval) as (l & extra & Hexec & Hfresh & Hl).
    fold col row index in Hl.
    exists l, (set_vectors (vectors s ++ extra) s).
    split; [exact Hexec|]. split; [exact Hfresh|].
    cbn [vectors set_vectors]. split; [exact Hl|]. split; [|split; [|split]].
    + intros Hnone. rewrite Hl. unfold cell_force. rewrite Hnone.
      unfold Vector.mult. cbn [vx vy]. rewrite !Rmult_0_l. reflexivity.
    + intros l0 Hl0. apply lookup_app_l. exact Hl0.
    + reflexivity.
    + destruct s. reflexivity.
Qed.

(** ** The figure and the flow field *)

(** [update] returns whenever [flowfield] is defined, and changes nothing but
    the field of [flowfield] and the store of vectors. *)
Lemma update_rows_shape ff time x xoff :
  forall ys yoff s f vs,
    s = set_flowfield (Some (with_field ff f)) (set_vectors vs s) ->
    exists yoff' f' vs',
      forAcc ys yoff (update_cell ff time x xoff) s =
        (Ok yoff', set_flowfield (Some (with_field ff f')) (set_vectors vs' s)).
Proof.
  induction ys as [|y ys IH]; intros yoff s f vs Hs; cbn [forAcc].
  - exists yoff, f, vs. cbn [ret]. rewrite <- Hs. reflexivity.
  - cbn [bind]. rewrite (update_cell_exec s (with_field ff f)) by (rewrite Hs; reflexivity).
    match goal with |- context [forAcc ys ?acc _ ?st] =>
      destruct (IH acc st (array_set f (Z.of_nat x + Z.of_nat y * cols ff) (length (vectors s)))
                  (vectors st)) as (yoff' & f' & vs' & Hexec)
    end.
    { destruct s. reflexivity. }
    rewrite Hexec. exists yoff', f', vs'. destruct s. reflexivity.
Qed.

Lemma update_columns_shape ff time :
  forall xs xoff s f vs,
    s = set_flowfield (Some (with_field ff f)) (set_vectors vs s) ->
    exists xoff' f' vs',
      forAcc xs xoff (update_column ff time) s =
        (Ok xoff', set_flowfield (Some (with_field ff f')) (set_vectors vs' s)).
Proof.
  induction xs as [|x xs IH]; intros xoff s f vs Hs; cbn [forAcc].
  - exists xoff, f, vs. cbn [ret]. rewrite <- Hs. reflexivity.
  - cbn [bind]. unfold update_column at 1. cbn [bind].
    destruct (update_rows_shape ff time x xoff (seq 0 (Z.to_nat (rows ff))) 0 s f vs Hs)
      as (yoff' & f1 & vs1 & Hrow).
    rewrite Hrow. cbn [ret].
    match goal with |- context [forAcc xs ?acc _ ?st] =>
      destruct (IH acc st f1 vs1) as (xoff' & f' & vs' & Hexec)
    end.
    { destruct s. reflexivity. }
    rewrite Hexec. exists xoff', f', vs'. destruct s. reflexivity.
Qed.

Lemma FlowField_update_shape time s ff :
  flowfield s = Some ff ->
  exists f vs,
    FlowField_update time s =
      (Ok tt, set_flowfield (Some (with_field ff f)) (set_vectors vs s)).
Proof.
  intros Hff. rewrite FlowField_update_eq. unfold the_flowfield.
  cbn [bind gets]. rewrite Hff. cbn [ret].
  destruct (update_columns_shape ff time (seq 0 (Z.to_nat (cols ff))) 0 s
              (field ff) (vectors s)) as (xoff' & f & vs & Hexec).
  { destruct s, ff. cbn in *. subst. reflexivity. }
  rewrite Hexec. exists f, vs. reflexivity.
Qed.

(** Two states that differ at most in the flow field's vectors: in what the
    cells of [flowfield.field] refer to and in the store of vector objects.
    Both have a flow field or neither has. *)
Definition differ_only_in_flow_vectors (s1 s2 : State) : Prop :=
  (flowfield s1 = None <-> flowfield s2 = None) /\
  globalTime s1 = globalTime s2 /\
  emotionalIntensity s1 = emotionalIntensity s2 /\
  distortionField s1 = distortionField s2 /\
  width s1 = width s2 /\
  height s1 = height s2 /\
  frameCount s1 = frameCount s2 /\
  pixels s1 = pixels s2 /\
  looping s1 = looping s2 /\
  randoms s1 = randoms s2 /\
  rpos s1 = rpos s2 /\
  faults s1 = faults s2 /\
  calls s1 = calls s2 /\
  issued s1 = issued s2 /\
  console s1 = console s2.

Ltac flow_side :=
  intros;
  repeat match goal with
         | H : differ_only_in_flow_vectors _ _ |- _ =>
             destruct H as (? & ? & ? & ? & ? & ? & ? & ? & ? & ? & ? & ? & ? & ? & ?)
         end;
  unfold differ_only_in_flow_vectors; msimpl;
  repeat split; first [ congruence | tauto | discriminate ].

Lemma differ_same_parameters s1 s2 :
  differ_only_in_flow_vectors s1 s2 -> same_parameters s1 s2.
Proof.
  intros (? & ? & ? & ? & ? & ? & ? & ? & ? & ? & ? & ? & ? & ? & ?).
  unfold same_parameters. auto 10.
Qed.

Lemma FlowField_update_respects time :
  respects differ_only_in_flow_vectors (FlowField_update time).
Proof.
  intros s1 s2 H.
  destruct (flowfield s1) as [ff1|] eqn:E1, (flowfield s2) as [ff2|] eqn:E2.
  - destruct (FlowField_update_shape time s1 ff1 E1) as (f1 & vs1 & ->).
    destruct (FlowField_update_shape time s2 ff2 E2) as (f2 & vs2 & ->).
    split; [reflexivity|]. cbn [state_of snd]. flow_side.
  - destruct H as [[_ H] _]. specialize (H E2). rewrite E1 in H. discriminate.
  - destruct H as [[H _] _]. specialize (H E1). rewrite E2 in H. discriminate.
  - unfold FlowField_update, the_flowfield. unfold result_of, state_of.
    cbn [bind gets]. rewrite E1, E2. cbn [throw fst snd]. split; [reflexivity|exact H].
Qed.

Lemma draw_respects_flow : respects differ_only_in_flow_vectors draw.
Proof.
  intros s1 s2 H. unfold draw, draw_try. rewrite !try_gets.
  assert (Hg : not_object (flowfield s1) = not_object (flowfield s2)).
  { destruct H as [[H1 H2] _].
    destruct (flowfield s1), (flowfield s2); try reflexivity.
    - specialize (H2 eq_refl). discriminate.
    - specialize (H1 eq_refl). discriminate. }
  rewrite Hg. cbn [not_array]. rewrite !orb_false_r.
  pose proof FlowField_update_respects as Hupd.
  destruct (not_object (flowfield s2)).
  - clear Hg. revert s1 s2 H.
    change (respects differ_only_in_flow_vectors
              (try_catch (console_error "Critical components not initialized" None ;; noLoop)
                 (fun error => console_error "Draw cycle failed:" (Some error) ;; noLoop))).
    relate_with flow_side.
  - clear Hg. revert s1 s2 H.
    match goal with |- forall s1 s2, _ -> result_of (try_catch ?b ?h s1) = _ /\ _ =>
      change (respects differ_only_in_flow_vectors (try_catch b h))
    end.
    relate_with flow_side.
Qed.

(** What C2 claims: some two runs that differ only in the flow field's
    vectors issue different drawing calls, in a frame or in a call of
    [drawFigure]. *)
Definition figure_depends_on_flow_field : Prop :=
  exists s1 s2,
    differ_only_in_flow_vectors s1 s2 /\
    (issued (state_of (draw s1)) <> issued (state_of (draw s2)) \/
     exists isShadow,
       issued (state_of (drawFigure isShadow s1)) <>
       issued (state_of (drawFigure isShadow s2))).

(** C2, as amended: the flow field's vectors do not reach the drawing. Two
    runs that differ only in the flow field's vectors issue exactly the same
    p5 calls, with the same coordinates, in every call of drawFigure (shadow
    or main figure) and in every whole frame, and end alike. *)
Theorem figure_ignores_flow_field s1 s2 :
  differ_only_in_flow_vectors s1 s2 ->
  (forall isShadow,
     result_of (drawFigure isShadow s1) = result_of (drawFigure isShadow s2) /\
     issued (state_of (drawFigure isShadow s1)) =
       issued (state_of (drawFigure isShadow s2))) /\
  (result_of (draw s1) = result_of (draw s2) /\
   issued (state_of (draw s1)) = issued (state_of (draw s2)) /\
   differ_only_in_flow_vectors (state_of (draw s1)) (state_of (draw s2))).
Proof.
  intros H. split.
  - intros isShadow.
    destruct (drawFigure_respects isShadow s1 s2 (differ_same_parameters s1 s2 H))
      as [Hr Hs].
    split; [exact Hr|]. apply Hs.
  - destruct (draw_respects_flow s1 s2 H) as [Hr Hs].
    split; [exact Hr|]. split; [apply Hs | exact Hs].
Qed.

(** ** Determinism of the renderers *)

(** Two runs of [m] produce the same output: they end alike and have issued
    the same p5 calls. *)
Definition same_output (m : M unit) (s1 s2 : State) : Prop :=
  result_of (m s1) = result_of (m s2) /\
  issued (state_of (m s1)) = issued (state_of (m s2)).

Lemma respects_same_output m s1 s2 :
  respects same_parameters m -> same_parameters s1 s2 -> same_output m s1 s2.
Proof. intros Hm H. destruct (Hm s1 s2 H) as [Hr Hs]. split; [exact Hr | apply Hs]. Qed.

(** The same parameters, the same pixel buffer, and the same random draws
    to come. *)
Definition same_parameters_and_draws (s1 s2 : State) : Prop :=
  same_parameters s1 s2 /\
  pixels s1 = pixels s2 /\
  randoms s1 = randoms s2 /\
  rpos s1 = rpos s2.

Ltac draws_side :=
  intros;
  repeat match goal with
         | H : same_parameters_and_draws _ _ |- _ => destruct H as (? & ? & ? & ?)
         | H : same_parameters _ _ |- _ =>
             destruct H as (? & ? & ? & ? & ? & ? & ? & ?)
         end;
  unfold same_parameters_and_draws, same_parameters; msimpl;
  repeat split; congruence.

Lemma addNoiseToFigure_respects :
  respects same_parameters_and_draws addNoiseToFigure.
Proof. relate_with draws_side. Qed.

(** What C8 claims of a renderer [m]: its output, and the pixel buffer it
    leaves, are the same in any two runs with the same animation time,
    emotional intensity, distortion field and flow field (and the same
    canvas, pixel buffer and history of p5 calls). Only the state of the
    random number generator is left free. *)
Definition deterministic (m : M unit) : Prop :=
  forall s1 s2,
    globalTime s1 = globalTime s2 ->
    emotionalIntensity s1 = emotionalIntensity s2 ->
    distortionField s1 = distortionField s2 ->
    flowfield s1 = flowfield s2 ->
    vectors s1 = vectors s2 ->
    width s1 = width s2 -> height s1 = height s2 ->
    frameCount s1 = frameCount s2 -> pixels s1 = pixels s2 ->
    looping s1 = looping s2 -> faults s1 = faults s2 -> calls s1 = calls s2 ->
    issued s1 = issued s2 -> console s1 = console s2 ->
    same_output m s1 s2 /\
    pixels (state_of (m s1)) = pixels (state_of (m s2)).

(** C8, as amended: the body, the arms, the head, the vignette and the color
    wash are functions of the animation time, the emotional intensity, the
    distortion field and the canvas size: two runs that agree on these (and in
    which p5 has been called alike and reacts alike) issue the same calls.
    The noise injection is a function of these, of the canvas's pixels and of
    the values random() returns: two runs that agree on all of them issue the
    same calls and leave the same pixel buffer. *)
Theorem renderers_deterministic s1 s2 :
  same_parameters s1 s2 ->
  (forall isShadow baseDistortion,
     same_output (drawBody isShadow baseDistortion) s1 s2) /\
  (forall baseDistortion, same_output (drawArms baseDistortion) s1 s2) /\
  (forall baseDistortion, same_output (drawHead baseDistortion) s1 s2) /\
  same_output drawVignette s1 s2 /\
  same_output addEmotionalGlow s1 s2 /\
  (pixels s1 = pixels s2 -> randoms s1 = randoms s2 -> rpos s1 = rpos s2 ->
     same_output addNoiseToFigure s1 s2 /\
     pixels (state_of (addNoiseToFigure s1)) =
       pixels (state_of (addNoiseToFigure s2))).
Proof.
  intros H. split; [|split; [|split; [|split; [|split]]]].
  - intros. apply respects_same_output; [apply drawBody_respects | exact H].
  - intros. apply respects_same_output; [apply drawArms_respects | exact H].
  - intros. apply respects_same_output; [apply drawHead_respects | exact H].
  - apply respects_same_output; [apply drawVignette_respects | exact H].
  - apply respects_same_output; [apply addEmotionalGlow_respects | exact H].
  - intros Hp Hr Hpos.
    destruct (addNoiseToFigure_respects s1 s2 (conj H (conj Hp (conj Hr Hpos))))
      as (Hres & Hs & Hpx & _).
    split; [split; [exact Hres | apply Hs] | exact Hpx].
Qed.

(** ** What a frame issues when p5 does not throw *)

(** No p5 call throws, and the flow field exists. *)
Definition ready (s : State) : Prop :=
  (forall n, faults s n = None) /\ flowfield s <> None.

(** [issues Q m]: run in a [ready] state, [m] returns, leaves a [ready]
    state, and has appended to [issued] a list of calls satisfying [Q]. *)
Definition issues {A} (Q : list Cmd -> Prop) (m : M A) : Prop :=
  forall s, ready s ->
    exists a out,
      m s = (Ok a, state_of (m s)) /\
      ready (state_of (m s)) /\
      issued (state_of (m s)) = issued s ++ out /\
      Q out.

Definition anything (out : list Cmd) : Prop := True.

Lemma issues_weaken {A} (Q Q' : list Cmd -> Prop) (m : M A) :
  (forall out, Q out -> Q' out) -> issues Q m -> issues Q' m.
Proof.
  intros HQ Hm s Hs. destruct (Hm s Hs) as (a & out & H1 & H2 & H3 & H4).
  exists a, out. auto.
Qed.

Lemma issues_ret {A} (Q : list Cmd -> Prop) (a : A) : Q [] -> issues Q (ret a).
Proof.
  intros HQ s Hs. exists a, []. cbn. rewrite app_nil_r. auto.
Qed.

Lemma issues_gets {A} (Q : list Cmd -> Prop) (f : State -> A) :
  Q [] -> issues Q (gets f).
Proof.
  intros HQ s Hs. exists (f s), []. cbn. rewrite app_nil_r. auto.
Qed.

Lemma issues_modify (Q : list Cmd -> Prop) g :
  Q [] ->
  (forall s, ready s -> ready (g s) /\ issued (g s) = issued s) ->
  issues Q (modify g).
Proof.
  intros HQ Hg s Hs. destruct (Hg s Hs) as [Hr Hi].
  exists tt, []. cbn. rewrite app_nil_r. auto.
Qed.

Lemma issues_random (Q : list Cmd -> Prop) : Q [] -> issues Q random.
Proof.
  intros HQ s Hs. exists (randoms s (rpos s)), []. cbn. rewrite app_nil_r.
  repeat split; auto; apply Hs.
Qed.

Lemma issues_emit (Q : list Cmd -> Prop) c : Q [c] -> issues Q (emit c).
Proof.
  intros HQ s [Hf Hff]. exists tt, [c]. unfold state_of. cbn [emit].
  rewrite Hf. cbn. repeat split; auto.
Qed.

Lemma issues_bind {A B} (Q1 Q2 Q : list Cmd -> Prop) (m : M A) (k : A -> M B) :
  issues Q1 m ->
  (forall a, issues Q2 (k a)) ->
  (forall o1 o2, Q1 o1 -> Q2 o2 -> Q (o1 ++ o2)) ->
  issues Q (bind m k).
Proof.
  intros Hm Hk HQ s Hs.
  destruct (Hm s Hs) as (a & o1 & E1 & R1 & I1 & H1).
  destruct (Hk a _ R1) as (b & o2 & E2 & R2 & I2 & H2).
  exists b, (o1 ++ o2). unfold state_of in *. cbn [bind].
  rewrite E1 in *. cbn [snd] in *. rewrite E2 in *. cbn [snd] in *.
  repeat split; try apply R2; auto.
  rewrite I2, I1, app_assoc. reflexivity.
Qed.

Lemma issues_try_catch {A} (Q : list Cmd -> Prop) (body : M A) handler :
  issues Q body -> issues Q (try_catch body handler).
Proof.
  intros Hm s Hs. destruct (Hm s Hs) as (a & out & E & R1 & I1 & H1).
  exists a, out. unfold state_of in *. cbn [try_catch].
  rewrite E in *. cbn [snd] in *. auto.
Qed.

Lemma issues_anything_bind {A B} (m : M A) (k : A -> M B) :
  issues anything m -> (forall a, issues anything (k a)) ->
  issues anything (bind m k).
Proof. intros Hm Hk. apply (issues_bind anything anything anything); auto. Qed.

Lemma issues_forEach {A} (l : list A) body :
  (forall a, issues anything (body a)) -> issues anything (forEach l body).
Proof.
  intros Hb. induction l as [|a l IH]; cbn [forEach].
  - apply issues_ret. exact I.
  - apply issues_anything_bind; [apply Hb | intros _; exact IH].
Qed.

Lemma issues_forReal fuel cond next t body :
  (forall t, issues anything (body t)) ->
  issues anything (forReal fuel cond next t body).
Proof.
  intros Hb. revert t. induction fuel as [|fuel IH]; intros t; cbn [forReal].
  - apply issues_ret. exact I.
  - destruct (cond t); [|apply issues_ret; exact I].
    apply issues_anything_bind; [apply Hb | intros _; apply IH].
Qed.

Lemma FlowField_update_issues time : issues anything (FlowField_update time).
Proof.
  intros s [Hf Hff]. destruct (flowfield s) as [ff|] eqn:E; [|congruence].
  destruct (FlowField_update_shape time s ff E) as (f & vs & Hexec).
  exists tt, []. rewrite Hexec. cbn [state_of snd].
  split; [reflexivity|]. split; [split; [exact Hf | discriminate]|].
  split; [|exact I]. cbn. rewrite app_nil_r. reflexivity.
Qed.

Ltac ready_side :=
  intros; unfold ready in *; msimpl; tauto.

(** Proves [issues anything m] for a piece of the sketch. *)
Ltac runs :=
  repeat first
    [ progress intros
    | apply FlowField_update_issues
    | apply issues_ret; exact I
    | apply issues_gets; exact I
    | apply issues_random; exact I
    | apply issues_emit; exact I
    | apply issues_modify; [exact I | solve [ready_side]]
    | apply issues_forEach
    | apply issues_forReal
    | apply issues_try_catch
    | match goal with
      | |- issues _ (if ?c then _ else _) => destruct c
      | |- issues _ (match ?x with _ => _ end) => destruct x
      end
    | apply issues_anything_bind
    | progress autounfold with sketch ].

(** * Further properties of the sketch *)

(** ** Pointer moves and the next frame *)

Definition pointer_move (ev : Event) : bool :=
  match ev with
  | MouseMoved _ _ _ _ => true
  | Frame | WindowResized _ _ => false
  end.

(** [draw] assigns [emotionalIntensity] before it reads it. *)
Lemma draw_overrides_intensity v s :
  flowfield s <> None -> draw (set_emotionalIntensity v s) = draw s.
Proof.
  intros Hff. unfold draw, draw_try. rewrite !try_gets.
  change (flowfield (set_emotionalIntensity v s)) with (flowfield s).
  destruct (flowfield s) as [ff|]; [clear Hff|congruence].
  cbn [not_object not_array orb].
  rewrite !try_gets, !try_modify, !try_gets, !try_modify.
  destruct s; reflexivity.
Qed.

Lemma pointer_moves_state evs :
  forallb pointer_move evs = true ->
  forall s, exists v, run evs s = set_emotionalIntensity v s.
Proof.
  induction evs as [|ev evs IH]; intros Hall s; cbn [run fold_left].
  - exists (emotionalIntensity s). destruct s; reflexivity.
  - cbn [forallb] in Hall. apply andb_prop in Hall as [Hev Hall].
    destruct ev as [|mx my px py|]; try discriminate.
    destruct (IH Hall (step (MouseMoved mx my px py) s)) as (v & Hv).
    exists v. unfold run in Hv. rewrite Hv. destruct s; reflexivity.
Qed.

(** X1: what the pointer does to [emotionalIntensity] lasts until the next
    frame: the frame drawn after any number of pointer moves is the frame that
    would have been drawn without them, and it leaves the same state. *)
Theorem frame_forgets_pointer_moves s evs :
  reachable s ->
  forallb pointer_move evs = true ->
  step Frame (run evs s) = step Frame s /\
  (forall windowWidth windowHeight,
     faults s (calls s) = None ->
     step (WindowResized windowWidth windowHeight) (run evs s) =
     step (WindowResized windowWidth windowHeight) s).
Proof.
  intros Hs Hall. destruct (pointer_moves_state evs Hall s) as (v & ->).
  pose proof (reachable_flowfield_defined s Hs) as Hff.
  split.
  - unfold step, handle, redraw. cbn [bind modify].
    change (set_frameCount (S (frameCount (set_emotionalIntensity v s)))
              (set_emotionalIntensity v s))
      with (set_emotionalIntensity v (set_frameCount (S (frameCount s)) s)).
    rewrite draw_overrides_intensity by exact Hff. reflexivity.
  - intros ww wh Hf.
    unfold step, handle, windowResized, resizeCanvas, redraw.
    cbn [bind emit modify].
    change (faults (set_emotionalIntensity v s) (calls (set_emotionalIntensity v s)))
      with (faults s (calls s)).
    rewrite Hf.
    match goal with
    | |- state_of (draw ?a) = state_of (draw ?b) =>
        change a with (set_emotionalIntensity v b)
    end.
    rewrite draw_overrides_intensity by exact Hff. reflexivity.
Qed.

(** X2: pointer moves only raise the emotional intensity, and only up to 1.
    From an emotional intensity in [0.5, 1], as every frame leaves it, any
    number of pointer moves change nothing but emotionalIntensity; they leave
    it in [0.5, 1] and not below what it was; and when one of the moves is
    700 pixels long or longer (0.0008 times its length is then above 0.5),
    they leave it at 1, whatever the moves before and after it. *)
Theorem pointer_moves_only_raise s evs :
  forallb pointer_move evs = true ->
  0.5 <= emotionalIntensity s <= 1 ->
  exists v,
    run evs s = set_emotionalIntensity v s /\
    emotionalIntensity s <= v <= 1 /\
    (forall mx my px py,
       In (MouseMoved mx my px py) evs -> 700 <= p5.dist mx my px py -> v = 1).
Proof.
  revert s. induction evs as [|ev evs IH]; intros s Hall He.
  - exists (emotionalIntensity s). cbn [run fold_left].
    split; [destruct s; reflexivity|]. split; [lra|]. intros mx my px py [].
  - cbn [forallb] in Hall. apply andb_prop in Hall as [Hev Hall].
    destruct ev as [|mx my px py|]; try discriminate.
    cbn [run fold_left].
    pose proof (dist_nonneg mx my px py) as Hd.
    set (s1 := step (MouseMoved mx my px py) s).
    assert (E1 : emotionalIntensity s1 =
                 p5.constrain (emotionalIntensity s + p5.dist mx my px py * 0.0008) 0.5 1)
      by reflexivity.
    assert (He1 : 0.5 <= emotionalIntensity s1 <= 1)
      by (rewrite E1; apply constrain_bounds; lra).
    assert (Hup : emotionalIntensity s <= emotionalIntensity s1)
      by (rewrite E1; apply constrain_nudge; lra).
    destruct (IH s1 Hall He1) as (v & Hrun & Hv & Hlong).
    exists v. split; [|split].
    + unfold run in Hrun. rewrite Hrun. subst s1. destruct s; reflexivity.
    + lra.
    + intros mx' my' px' py' [Heq|Hin] Hfar.
      * injection Heq as -> -> -> ->.
        assert (emotionalIntensity s1 = 1).
        { rewrite E1. unfold p5.constrain.
          rewrite Rmin_right, Rmax_left by lra. reflexivity. }
        lra.
      * apply (Hlong mx' my' px' py' Hin Hfar).
Qed.

(** ** The size of the distortion *)

(** The sum of the oscillators' amplitudes. *)
Definition total_amplitude (df : list Oscillator) : R :=
  fold_right (fun d acc => Rabs (amplitude d) + acc) 0 df.

Lemma Rabs_sin_scaled a b : Rabs (sin a * b) <= Rabs b.
Proof.
  rewrite Rabs_mult. pose proof (SIN_bound a) as [Hlo Hhi].
  assert (Rabs (sin a) <= 1) by (apply Rabs_le; lra).
  pose proof (Rabs_pos b). nra.
Qed.

Lemma Rabs_cos_scaled a b : Rabs (cos a * b) <= Rabs b.
Proof.
  rewrite Rabs_mult. pose proof (COS_bound a) as [Hlo Hhi].
  assert (Rabs (cos a) <= 1) by (apply Rabs_le; lra).
  pose proof (Rabs_pos b). nra.
Qed.

Lemma distortion_sum_bounded x y time df :
  forall acc,
    let v := fold_left (fun distortion d =>
               let dx := sin (x * frequency d + time * speed d + phase d) * amplitude d in
               let dy := cos (y * frequency d + time * speed d + phase d + PI / 4) * amplitude d in
               Vector.add distortion (createVec dx dy)) df acc in
    Rabs (vx v) <= Rabs (vx acc) + total_amplitude df /\
    Rabs (vy v) <= Rabs (vy acc) + total_amplitude df.
Proof.
  induction df as [|d df IH]; intros acc; cbn [fold_left total_amplitude fold_right].
  - lra.
  - cbv zeta in IH |- *.
    match goal with |- context [fold_left _ df ?a] => destruct (IH a) as [Hx Hy] end.
    cbn [Vector.add vx vy] in Hx, Hy.
    pose proof (Rabs_sin_scaled (x * frequency d + time * speed d + phase d) (amplitude d)).
    pose proof (Rabs_cos_scaled (y * frequency d + time * speed d + phase d + PI / 4)
                  (amplitude d)).
    pose proof (Rabs_triang (vx acc)
                  (sin (x * frequency d + time * speed d + phase d) * amplitude d)).
    pose proof (Rabs_triang (vy acc)
                  (cos (y * frequency d + time * speed d + phase d + PI / 4) * amplitude d)).
    fold (total_amplitude df) in *.
    split; lra.
Qed.

Lemma total_amplitude_in_range df :
  Forall oscillator_in_range df -> total_amplitude df <= 3 * INR (length df).
Proof.
  induction 1 as [|d df Hd _ IH]; cbn [total_amplitude fold_right length].
  - simpl. lra.
  - rewrite S_INR. fold (total_amplitude df).
    destruct Hd as (_ & [Hlo Hhi] & _).
    rewrite Rabs_pos_eq by lra. lra.
Qed.

Lemma getComplexDistortion_small s x y time :
  exists v,
    getComplexDistortion x y time s = (Ok v, s) /\
    Rabs (vx v) <= total_amplitude (distortionField s) /\
    Rabs (vy v) <= total_amplitude (distortionField s).
Proof.
  eexists. split; [reflexivity|].
  destruct (distortion_sum_bounded x y time (distortionField s) (createVec 0 0))
    as [Hx Hy].
  cbn [vx vy] in Hx, Hy. rewrite Rabs_R0 in Hx, Hy. split; lra.
Qed.

(** X3: getComplexDistortion returns, without changing the state, a vector
    each of whose components is at most the sum of the oscillators' amplitudes
    in absolute value: the zero vector when distortionField is empty, and at
    most 24 either way once setup has filled it. *)
Theorem getComplexDistortion_bounded s x y time :
  exists v,
    getComplexDistortion x y time s = (Ok v, s) /\
    Rabs (vx v) <= total_amplitude (distortionField s) /\
    Rabs (vy v) <= total_amplitude (distortionField s) /\
    (distortionField s = [] -> v = createVec 0 0) /\
    (reachable s -> Rabs (vx v) <= 24 /\ Rabs (vy v) <= 24).
Proof.
  eexists. split; [reflexivity|].
  destruct (distortion_sum_bounded x y time (distortionField s) (createVec 0 0))
    as [Hx Hy].
  cbn [vx vy] in Hx, Hy. rewrite Rabs_R0 in Hx, Hy.
  split; [lra|]. split; [lra|]. split.
  - intros ->. reflexivity.
  - intros Hs. destruct (reachable_distortionField s Hs) as [Hlen Hall].
    pose proof (total_amplitude_in_range _ Hall) as Ht. rewrite Hlen in Ht.
    rewrite INR_IZR_INZ in Ht. change (Z.of_nat 8) with 8%Z in Ht.
    split; lra.
Qed.

(** ** How setup fails *)

(** The first error among the [n] p5 calls from the [a]-th on. *)
Fixpoint first_failure (fs : nat -> option exn) (a n : nat) : option exn :=
  match n with
  | O => None
  | S k => match fs a with
           | Some e => Some e
           | None => first_failure fs (S a) k
           end
  end.

(** X4: setup calls p5 six times: createCanvas, pixelDensity and colorMode
    before its try block, frameRate, smooth and the styling of the canvas
    inside it. An error of one of the first three escapes setup and leaves the
    globals as declared. An error of one of the last three is caught: setup
    returns, having logged it and stopped the loop, with flowfield constructed
    for the 600 x 800 canvas and all 8 oscillators pushed. Without an error
    setup returns with the loop running and nothing logged. Either of the last
    two ways, setup has drawn 32 random numbers. *)
Theorem setup_failure_modes rs fs :
  let s := state_of (setup (initial rs fs)) in
  (forall error,
     first_failure fs 0 3 = Some error ->
     result_of (setup (initial rs fs)) = Throw error /\
     flowfield s = None /\ distortionField s = [] /\
     console s = [] /\ looping s = true /\ rpos s = 0%nat) /\
  (first_failure fs 0 3 = None ->
     result_of (setup (initial rs fs)) = Ok tt /\
     flowfield s = Some (mkFlowField 20 30 40 (replicate 1200 None) 0.15) /\
     length (distortionField s) = 8%nat /\
     width s = 600 /\ height s = 800 /\ rpos s = 32%nat /\
     match first_failure fs 3 3 with
     | Some error =>
         looping s = false /\
         console s = [ConsoleError "Setup failed:" (Some error)]
     | None =>
         looping s = true /\ console s = [] /\
         issued s = [CreateCanvas 600 800; PixelDensity 1; ColorModeRGB 255 255 255 1;
                     FrameRate 30; Smooth; ImageRenderingPixelated]
     end).
Proof.
  cbv zeta. cbn [first_failure].
  unfold setup, createCanvas, initial. msimpl.
  destruct (fs 0%nat) as [e0|]; msimpl.
  { split; [|discriminate]. intros error [= <-]. repeat split. }
  destruct (fs 1%nat) as [e1|]; msimpl.
  { split; [|discriminate]. intros error [= <-]. repeat split. }
  destruct (fs 2%nat) as [e2|]; msimpl.
  { split; [|discriminate]. intros error [= <-]. repeat split. }
  split; [discriminate|]. intros _.
  unfold setup_try, new_FlowField, random1, random2, console_error, noLoop. msimpl.
  rewrite ceil_600_20, ceil_800_20.
  change ((30 * 40 <? 0)%Z || (2 ^ 32 <=? 30 * 40)%Z) with false.
  cbn [forEach seq]. msimpl.
  destruct (fs 3%nat); msimpl; [repeat split; reflexivity|].
  destruct (fs 4%nat); msimpl; [repeat split; reflexivity|].
  destruct (fs 5%nat); msimpl; repeat split; reflexivity.
Qed.

Lemma setup_leaves_looping rs fs :
  (forall n, fs n = None) -> looping (state_of (setup (initial rs fs))) = true.
Proof.
  intros Hfs. unfold setup, createCanvas, initial. msimpl.
  rewrite !Hfs. msimpl.
  unfold setup_try, new_FlowField, random1, random2, console_error, noLoop. msimpl.
  rewrite ceil_600_20, ceil_800_20.
  change ((30 * 40 <? 0)%Z || (2 ^ 32 <=? 30 * 40)%Z) with false.
  cbn [forEach seq]. msimpl. rewrite !Hfs. msimpl. reflexivity.
Qed.

(** ** Frames in which p5 does not fail *)

Lemma bind_gets {A B} (f : State -> A) (k : A -> M B) s :
  bind (gets f) k s = k (f s) s.
Proof. reflexivity. Qed.

Lemma bind_modify {B} g (k : unit -> M B) s :
  bind (modify g) k s = k tt (g s).
Proof. reflexivity. Qed.

(** In a [ready] state the [try] block of [draw] runs to its end. *)
Lemma draw_try_completes s :
  ready s ->
  exists s',
    draw_try s = (Ok tt, s') /\
    ready s' /\
    looping s' = looping s /\ console s' = console s /\
    frameCount s' = frameCount s /\
    globalTime s' = INR (frameCount s) * 0.008 /\
    intensity_follows_time s'.
Proof.
  intros Hs. unfold draw_try. rewrite !bind_gets.
  destruct (flowfield s) as [ff|] eqn:E; [|destruct Hs as [_ Hs]; congruence].
  cbn [not_object not_array orb].
  rewrite bind_gets, bind_modify, bind_gets, bind_modify, bind_gets.
  match goal with
  | |- exists s', ?b ?st = _ /\ _ =>
      assert (Hruns : issues anything b) by runs;
      assert (Hkeeps : preserves
                (fun s' => looping s' = looping st /\ console s' = console st /\
                           frameCount s' = frameCount st /\
                           globalTime s' = globalTime st /\
                           emotionalIntensity s' = emotionalIntensity st) b)
        by (pose proof FlowField_update_keeps_well_formed; frame);
      destruct (Hruns st) as (a & out & Hexec & Hready & _);
        [ready_side|];
      specialize (Hkeeps st (conj eq_refl (conj eq_refl (conj eq_refl (conj eq_refl eq_refl)))));
      exists (state_of (b st))
  end.
  destruct a. split; [exact Hexec|]. split; [exact Hready|].
  destruct Hkeeps as (Hl & Hc & Hf & Hg & Hi).
  unfold intensity_follows_time. rewrite Hl, Hc, Hf, Hg, Hi.
  repeat split.
Qed.

Lemma frame_completes s :
  ready s ->
  let s' := step Frame s in
  ready s' /\
  looping s' = looping s /\ console s' = console s /\
  frameCount s' = S (frameCount s) /\
  globalTime s' = INR (frameCount s') * 0.008 /\
  intensity_follows_time s'.
Proof.
  intros Hs. unfold step, handle, redraw. rewrite bind_modify.
  set (s1 := set_frameCount (S (frameCount s)) s).
  assert (Hs1 : ready s1) by (unfold s1; ready_side).
  destruct (draw_try_completes s1 Hs1) as (s' & Hexec & Hr & Hl & Hc & Hf & Hg & Hi).
  unfold draw. cbn [try_catch]. rewrite Hexec. cbn [state_of snd].
  rewrite Hf. repeat split; try assumption; apply Hr.
Qed.

(** X5: as long as no p5 call fails, the sketch never stops itself: every
    frame runs its try block to the end, so the loop keeps running, nothing is
    logged, and after any number of frames the frame counter has advanced by
    that number and the animation time is 0.008 times the frame counter. *)
Theorem frames_keep_running s frames :
  reachable s ->
  (forall n, faults s n = None) ->
  looping s = true ->
  let s' := animate frames s in
  looping s' = true /\
  console s' = console s /\
  frameCount s' = (frameCount s + frames)%nat /\
  ((0 < frames)%nat ->
     globalTime s' = INR (frameCount s') * 0.008 /\ intensity_follows_time s').
Proof.
  intros Hs Hf Hl.
  assert (Hr : ready s) by (split; [exact Hf | apply reachable_flowfield_defined, Hs]).
  clear Hs Hf. revert s Hr Hl.
  induction frames as [|n IH]; intros s Hr Hl; cbn [animate].
  - rewrite Nat.add_0_r. repeat split; try assumption; lia.
  - rewrite Hl.
    destruct (frame_completes s Hr) as (Hr1 & Hl1 & Hc1 & Hf1 & Hg1 & Hi1).
    destruct (IH (step Frame s) Hr1 ltac:(congruence)) as (Hl2 & Hc2 & Hf2 & Hrest).
    split; [exact Hl2|]. split; [congruence|]. split; [lia|].
    intros _. destruct n as [|n].
    + cbn [animate]. split; assumption.
    + apply Hrest. lia.
Qed.

(** ** The grid of the flow field *)

(** The flow field as [setup] constructs it for the 600 x 800 canvas. *)
Definition flowfield_as_constructed (s : State) : Prop :=
  exists ff,
    flowfield s = Some ff /\
    resolution ff = 20 /\ cols ff = 30%Z /\ rows ff = 40%Z /\
    particleSpeed ff = 0.15 /\ length (field ff) = 1200%nat.

Lemma FlowField_update_keeps_constructed time :
  preserves flowfield_as_constructed (FlowField_update time).
Proof.
  intros s (ff & Hff & Hres & Hc & Hr & Hsp & Hlen).
  assert (Hlen' : length (field ff) = (Z.to_nat (cols ff) * Z.to_nat (rows ff))%nat)
    by (rewrite Hlen, Hc, Hr; reflexivity).
  destruct (FlowField_update_at s ff time Hff Hlen') as (s' & -> & Hs').
  destruct Hs' as (f & vs & -> & Hlf & _).
  cbn [state_of snd]. exists (with_field ff f).
  split; [reflexivity|]. cbn [with_field resolution cols rows particleSpeed field].
  repeat split; congruence.
Qed.

Lemma handle_keeps_constructed ev :
  preserves flowfield_as_constructed (handle ev).
Proof.
  pose proof FlowField_update_keeps_constructed as Hupd.
  destruct ev;
    frame_with ltac:(intros; unfold flowfield_as_constructed in *; msimpl; assumption).
Qed.

Lemma reachable_constructed s : reachable s -> flowfield_as_constructed s.
Proof.
  induction 1 as [rs fs Hok Hrs|s ev _ IH].
  - destruct (setup_initial rs fs Hok) as (Hff & _).
    eexists. split; [exact Hff|]. cbn. repeat split.
  - apply (handle_keeps_constructed ev s IH).
Qed.

(** X6: the grid of the flow field is the one setup made for the 600 x 800
    canvas, 30 columns by 40 rows of 20 pixels and 1200 cells, in every state
    the sketch can reach: no frame and no resize of the window changes it,
    whatever size the canvas gets. *)
Theorem flow_grid_fixed s :
  reachable s ->
  flowfield_as_constructed s /\
  (forall evs, flowfield_as_constructed (run evs s)) /\
  (forall windowWidth windowHeight,
     faults s (calls s) = None ->
     let s' := step (WindowResized windowWidth windowHeight) s in
     width s' = p5.min (windowWidth * 0.8) 600 /\
     height s' = p5.min (windowHeight * 0.8) 800 /\
     flowfield_as_constructed s').
Proof.
  intros Hs. split; [apply reachable_constructed, Hs|]. split.
  - intros evs. apply reachable_constructed, reachable_run, Hs.
  - intros ww wh Hf s'.
    assert (Hc : flowfield_as_constructed s')
      by (apply reachable_constructed, reachable_step, Hs).
    subst s'. split; [|split; [|exact Hc]].
    all: unfold step, handle, windowResized, resizeCanvas, redraw;
      unfold state_of; cbn [bind emit modify]; rewrite Hf;
      match goal with |- context [draw ?st] =>
        pose proof (draw_keeps_size (width st) (height st) st (conj eq_refl eq_refl))
          as [Hw Hh]
      end; unfold state_of in Hw, Hh; first [exact Hw | exact Hh].
Qed.

(** ** getForce after update *)

(** X7: what getForce returns once update has run: for every point, also one
    outside the canvas, a new vector object holding the vector update(time)
    computed for one cell of the 30 x 40 grid, scaled by intensity: the cell
    in column floor(constrain(x / 20, 0, 29)) and row
    floor(constrain(y / 20, 0, 39)), so the cell the point falls in, or the
    nearest cell for a point outside the canvas. *)
Theorem getForce_after_update s time x y intensity :
  reachable s ->
  let s1 := state_of (FlowField_update time s) in
  let col := Z.to_nat (p5.floor (p5.constrain (x / 20) 0 (30 - 1))) in
  let row := Z.to_nat (p5.floor (p5.constrain (y / 20) 0 (40 - 1))) in
  let force := Vector.mult (flow_vector 0.15 time col row) intensity in
  (col < 30)%nat /\ (row < 40)%nat /\
  exists l s2,
    FlowField_getForce x y intensity s1 = (Ok l, s2) /\
    vectors s2 !! l = Some force.
Proof.
  intros Hs s1 col row force.
  pose proof (floor_constrain_range (x / 20) 30 ltac:(lia)) as Hcol.
  pose proof (floor_constrain_range (y / 20) 40 ltac:(lia)) as Hrow.
  assert (Hc : (col < 30)%nat) by (subst col; lia).
  assert (Hr : (row < 40)%nat) by (subst row; lia).
  split; [exact Hc|]. split; [exact Hr|].
  destruct (reachable_constructed s Hs) as (ff & Hff & Hres & Hcols & Hrows & Hsp & Hlen).
  assert (Hlen' : length (field ff) = (Z.to_nat (cols ff) * Z.to_nat (rows ff))%nat)
    by (rewrite Hlen, Hcols, Hrows; reflexivity).
  assert (Hgrid : grid_allocated ff).
  { unfold grid_allocated. rewrite Hcols, Hrows, Hlen. repeat split; lia. }
  pose proof (FlowField_update_keeps_well_formed time s (reachable_well_formed s Hs))
    as Hwf.
  destruct (FlowField_update_at s ff time Hff Hlen') as (s' & Hexec & Hs').
  pose proof (update_at_regenerated s ff time s' Hgrid Hs')
    as (ff' & Hff' & (Hres' & Hcols' & Hrows' & Hsp' & Hlen'') & Hcells).
  fold s1 in Hwf. assert (Es : s1 = s') by (subst s1; rewrite Hexec; reflexivity).
  rewrite <- Es in Hff', Hcells.
  destruct Hwf as (ff2 & Hff2 & _ & _ & _ & Hval).
  rewrite Hff' in Hff2. injection Hff2 as <-.
  destruct (getForce_exec s1 ff' x y intensity Hff' Hval) as (l & extra & Hget & _ & Hl).
  exists l, (set_vectors (vectors s1 ++ extra) s1).
  split; [exact Hget|]. cbn [vectors set_vectors]. rewrite Hl.
  f_equal. subst force. f_equal.
  rewrite Hres', Hcols', Hrows', Hres, Hcols, Hrows.
  fold (IZR 30 - 1) (IZR 40 - 1).
  set (c := p5.floor (p5.constrain (x / 20) 0 (30 - 1))) in *.
  set (r := p5.floor (p5.constrain (y / 20) 0 (40 - 1))) in *.
  unfold cell_force, array_get.
  destruct (Z.ltb_spec (c + r * 30) 0) as [?|_]; [lia|].
  assert (Hidx : Z.to_nat (c + r * 30) = (col + row * 30)%nat) by (subst col row; lia).
  rewrite Hidx.
  destruct (Hcells (col + row * 30)%nat) as (l0 & Hl0 & Hv0).
  { rewrite Hcols, Hrows. change (Z.to_nat (30 * 40)) with 1200%nat. lia. }
  rewrite Hl0, Hv0, Hsp, Hcols. change (Z.to_nat 30) with 30%nat.
  assert (Hm : ((col + row * 30) mod 30 = col)%nat)
    by (rewrite Nat.Div0.mod_add; apply Nat.mod_small; exact Hc).
  assert (Hd : ((col + row * 30) / 30 = row)%nat)
    by (rewrite Nat.div_add by lia; rewrite Nat.div_small by exact Hc; reflexivity).
  rewrite Hm, Hd. reflexivity.
Qed.

(** ** The noise pass: how much it changes, and what it draws *)

(** A stored value lies between any two bytes the number stored lies
    between. *)
Lemma ToUint8Clamp_between (a b : Z) x :
  (0 <= a)%Z -> (b <= 255)%Z -> IZR a <= x <= IZR b ->
  (a <= ToUint8Clamp x <= b)%Z.
Proof.
  intros Ha Hb [Hax Hxb]. unfold ToUint8Clamp, Rleb, Rltb.
  assert (Hab : (a <= b)%Z) by (apply le_IZR; lra).
  destruct (Rle_dec x 0) as [H0|H0].
  { assert (a <= 0)%Z by (apply le_IZR; lra). lia. }
  destruct (Rle_dec 255 x) as [H255|H255].
  { assert (255 <= b)%Z by (apply le_IZR; lra). lia. }
  pose proof (Zfloor_bound x) as [Hlo Hhi].
  assert (Hfa : (a <= Zfloor x)%Z) by (apply Zfloor_lub; exact Hax).
  assert (Hfb : (Zfloor x <= b)%Z) by (apply le_IZR; lra).
  assert (Hstep : IZR (Zfloor x) < x -> (Zfloor x + 1 <= b)%Z).
  { intros Hlt. assert (Zfloor x < b)%Z by (apply lt_IZR; lra). lia. }
  destruct (Rlt_dec (IZR (Zfloor x) + 0.5) x) as [Hup|Hup].
  { specialize (Hstep ltac:(lra)). lia. }
  destruct (Rlt_dec x (IZR (Zfloor x) + 0.5)) as [Hdn|Hdn]; [lia|].
  destruct (Z.even (Zfloor x)); [lia|].
  specialize (Hstep ltac:(lra)). lia.
Qed.

Lemma perturbed_close p n :
  (0 <= p <= 255)%Z -> -6 <= n <= 6 ->
  (p - 6 <= perturbed p n <= p + 6)%Z.
Proof.
  intros Hp Hn. unfold perturbed.
  assert (HpR : 0 <= IZR p <= 255) by (split; apply IZR_le; lia).
  pose proof (constrain_bounds (IZR p + n) 0 255 ltac:(lra)) as Hc.
  assert (Hc2 : IZR p - 6 <= p5.constrain (IZR p + n) 0 255 <= IZR p + 6).
  { unfold p5.constrain, Rmax, Rmin in *.
    destruct (Rle_dec (IZR p + n) 255); destruct (Rle_dec _ 0); lra. }
  destruct (ToUint8Clamp_between (Z.max 0 (p - 6)) (Z.min 255 (p + 6))
              (p5.constrain (IZR p + n) 0 255)) as [Hlo Hhi]; try lia.
  split.
  - destruct (Z.max_spec 0 (p - 6)) as [[_ ->]|[_ ->]]; [rewrite minus_IZR|]; lra.
  - destruct (Z.min_spec 255 (p + 6)) as [[_ ->]|[_ ->]]; [|rewrite plus_IZR]; lra.
Qed.

Lemma noise_amount_small s k :
  0 <= emotionalIntensity s <= 1 -> 0 <= randoms s k <= 1 ->
  -6 <= noise_amount s k <= 6.
Proof. intros He Hr. unfold noise_amount. nra. Qed.

(** X8: the noise pass moves no byte of the canvas by more than 6: with the
    emotional intensity in [0, 1] and random() in [0, 1], on a canvas of w x h
    whole pixels whose buffer holds bytes, every byte of the buffer after
    addNoiseToFigure, color or alpha, of a dark pixel or a bright one, is
    within 6 of the byte loadPixels delivered. *)
Theorem addNoiseToFigure_within_6 s w h :
  width s = INR w ->
  height s = INR h ->
  length (rasterize (issued s ++ [LoadPixels])) = (4 * (h * w))%nat ->
  Forall (fun byte => (0 <= byte <= 255)%Z) (rasterize (issued s ++ [LoadPixels])) ->
  faults s (calls s) = None ->
  0 <= emotionalIntensity s <= 1 ->
  (forall k, 0 <= randoms s k <= 1) ->
  let loaded := rasterize (issued s ++ [LoadPixels]) in
  let after := pixels (state_of (addNoiseToFigure s)) in
  length after = length loaded /\
  forall i, (i < 4 * (h * w))%nat ->
    exists before now,
      loaded !! i = Some before /\ after !! i = Some now /\
      (before - 6 <= now <= before + 6)%Z.
Proof.
  intros Hw Hh Hlen Hbytes Hf He Hr loaded after.
  destruct (addNoiseToFigure_pass s w h Hw Hh Hlen Hf) as (s1 & Hpass & Hafter).
  destruct Hpass as (_ & Hlen1 & Hdone & _).
  change (pixels (pixels_loaded s)) with loaded in *.
  subst after. rewrite Hafter. split; [exact Hlen1|].
  intros i Hi.
  set (j := (i / 4)%nat). set (c := (i mod 4)%nat).
  assert (Hic : i = (4 * j + c)%nat) by (subst j c; apply Nat.div_mod_eq).
  assert (Hc : (c < 4)%nat) by (subst c; apply Nat.mod_upper_bound; lia).
  assert (Hj : (j < h * w)%nat) by lia.
  assert (Hget : forall d, (d < 4)%nat ->
            exists p, loaded !! (4 * j + d)%nat = Some p /\ (0 <= p <= 255)%Z).
  { intros d Hd.
    destruct (lookup_lt_is_Some_2 loaded (4 * j + d)%nat) as [p Hp];
      [unfold loaded; rewrite Hlen; lia|].
    exists p. split; [exact Hp|].
    apply (proj1 (List.Forall_forall _ _) Hbytes).
    apply list_elem_of_In. apply (list_elem_of_lookup_2 _ _ _ Hp). }
  destruct (Hget 0%nat ltac:(lia)) as (r & Hr0 & Hrb).
  destruct (Hget 1%nat ltac:(lia)) as (g & Hg0 & Hgb).
  destruct (Hget 2%nat ltac:(lia)) as (b & Hb0 & Hbb).
  destruct (Hget 3%nat ltac:(lia)) as (a & Ha0 & Hab).
  destruct (Hdone j Hj r g b Hr0 Hg0 Hb0) as [Halpha Hcolor].
  assert (Hsame : forall p, (0 <= p <= 255)%Z -> (p - 6 <= p <= p + 6)%Z) by (intros; lia).
  assert (Hnear : forall p k, (0 <= p <= 255)%Z ->
            (p - 6 <= perturbed p (noise_amount (pixels_loaded s) k) <= p + 6)%Z).
  { intros p k Hp. apply perturbed_close; [exact Hp|].
    apply noise_amount_small; [exact He | apply Hr]. }
  rewrite Hic.
  assert (Hcases : c = 0%nat \/ c = 1%nat \/ c = 2%nat \/ c = 3%nat) by lia.
  destruct (dark r g b).
  - destruct Hcolor as (k & Hr1 & Hg1 & Hb1).
    destruct Hcases as [-> | [-> | [-> | ->]]].
    + exists r, (perturbed r (noise_amount (pixels_loaded s) k)). auto.
    + exists g, (perturbed g (noise_amount (pixels_loaded s) k)). auto.
    + exists b, (perturbed b (noise_amount (pixels_loaded s) k)). auto.
    + exists a, a. rewrite Halpha. auto.
  - destruct Hcolor as (Hr1 & Hg1 & Hb1).
    destruct Hcases as [-> | [-> | [-> | ->]]].
    + exists r, r. auto.
    + exists g, g. auto.
    + exists b, b. auto.
    + exists a, a. rewrite Halpha. auto.
Qed.

(** Whether pixel [j] of the buffer [px] is dark: all three color bytes are
    there and their average is below 180. *)
Definition dark_at (px : list Z) (j : nat) : bool :=
  match px !! (4 * j + 0)%nat, px !! (4 * j + 1)%nat, px !! (4 * j + 2)%nat with
  | Some r, Some g, Some b => dark r g b
  | _, _, _ => false
  end.

(** The number of dark pixels among the first [m] of [px]. *)
Fixpoint dark_pixels (px : list Z) (m : nat) : nat :=
  match m with
  | O => O
  | S j => (dark_pixels px j + if dark_at px j then 1 else 0)%nat
  end.

(** The loops' invariant, with the random numbers drawn: one for each dark
    pixel visited, in the order of the visit. *)
Definition noise_draws_at (s0 s : State) (m : nat) : Prop :=
  noise_pass_at s0 s m /\
  rpos s = (rpos s0 + dark_pixels (pixels s0) m)%nat /\
  forall j r g b,
    (j < m)%nat ->
    pixels s0 !! (4 * j + 0)%nat = Some r ->
    pixels s0 !! (4 * j + 1)%nat = Some g ->
    pixels s0 !! (4 * j + 2)%nat = Some b ->
    dark r g b = true ->
    let n := noise_amount s0 (rpos s0 + dark_pixels (pixels s0) j) in
    pixels s !! (4 * j + 0)%nat = Some (perturbed r n) /\
    pixels s !! (4 * j + 1)%nat = Some (perturbed g n) /\
    pixels s !! (4 * j + 2)%nat = Some (perturbed b n).

Lemma noise_draws_start s0 : noise_draws_at s0 s0 0.
Proof.
  split; [apply noise_pass_start|]. split.
  - cbn [dark_pixels]. lia.
  - intros j r g b Hj. lia.
Qed.

Lemma noisePixel_draws s0 s w x y :
  width s0 = INR w ->
  noise_draws_at s0 s (x + y * w) ->
  (4 * (x + y * w) + 4 <= length (pixels s0))%nat ->
  noisePixel x y s = (Ok tt, state_of (noisePixel x y s)) /\
  noise_draws_at s0 (state_of (noisePixel x y s)) (S (x + y * w)).
Proof.
  intros Hw (Hpass & Hpos & Hdrawn) Hin.
  destruct (noisePixel_step s0 s w x y Hw Hpass Hin) as [Hexec Hnext].
  split; [exact Hexec|]. split; [exact Hnext|].
  destruct Hpass as (Hs & Hlen & _ & Hrest).
  set (m := (x + y * w)%nat) in *.
  assert (Hws : width s = INR w) by (rewrite Hs; exact Hw).
  assert (Hget : forall c, (c < 4)%nat ->
            exists p, pixels s0 !! (4 * m + c)%nat = Some p /\
                      pixels s !! (4 * m + c)%nat = Some p).
  { intros c Hc. destruct (lookup_lt_is_Some_2 (pixels s0) (4 * m + c)%nat) as [p Hp];
      [lia|]. exists p. split; [exact Hp|]. rewrite Hrest by lia. exact Hp. }
  destruct (Hget 0%nat ltac:(lia)) as (r & Hr0 & Hr).
  destruct (Hget 1%nat ltac:(lia)) as (g & Hg0 & Hg).
  destruct (Hget 2%nat ltac:(lia)) as (b & Hb0 & Hb).
  rewrite (noisePixel_exec s w x y r g b Hws Hr Hg Hb). fold m.
  cbn [state_of snd].
  assert (Hdm : dark_at (pixels s0) m = dark r g b)
    by (unfold dark_at; rewrite Hr0, Hg0, Hb0; reflexivity).
  cbn [dark_pixels]. rewrite Hdm.
  destruct (dark r g b) eqn:Hdark.
  - cbv zeta. cbn [rpos set_pixels set_rpos pixels].
    assert (Hna : noise_amount s (rpos s) =
                  noise_amount s0 (rpos s0 + dark_pixels (pixels s0) m)).
    { unfold noise_amount. rewrite Hpos. rewrite Hs. reflexivity. }
    rewrite Hna. split; [lia|].
    assert (Hl : (4 * m + 2 < length (pixels s))%nat) by lia.
    intros j r' g' b' Hj Hr' Hg' Hb' Hd'.
    destruct (Nat.eq_dec j m) as [->|Hne].
    + rewrite Hr0 in Hr'. rewrite Hg0 in Hg'. rewrite Hb0 in Hb'.
      injection Hr' as <-. injection Hg' as <-. injection Hb' as <-.
      repeat split.
      * rewrite !list_lookup_insert_ne by lia. apply list_lookup_insert_eq. lia.
      * rewrite list_lookup_insert_ne by lia.
        apply list_lookup_insert_eq. rewrite length_insert. lia.
      * apply list_lookup_insert_eq. rewrite !length_insert. lia.
    + rewrite !list_lookup_insert_ne by lia.
      apply (Hdrawn j r' g' b'); try assumption. lia.
  - split; [lia|].
    intros j r' g' b' Hj Hr' Hg' Hb' Hd'.
    destruct (Nat.eq_dec j m) as [->|Hne].
    + rewrite Hr0 in Hr'. rewrite Hg0 in Hg'. rewrite Hb0 in Hb'.
      injection Hr' as <-. injection Hg' as <-. injection Hb' as <-. congruence.
    + apply (Hdrawn j r' g' b'); try assumption. lia.
Qed.

Lemma noise_row_draws s0 w y :
  width s0 = INR w ->
  (4 * (S y * w) <= length (pixels s0))%nat ->
  forall n a s,
    (a + n <= w)%nat ->
    noise_draws_at s0 s (a + y * w) ->
    let run_row := forEach (seq a n) (fun x => noisePixel x y) s in
    result_of run_row = Ok tt /\
    noise_draws_at s0 (state_of run_row) (a + n + y * w).
Proof.
  intros Hw Hlen. induction n as [|n IH]; intros a s Han Hs; cbn [forEach seq].
  - cbn. rewrite Nat.add_0_r. split; [reflexivity | exact Hs].
  - destruct (noisePixel_draws s0 s w a y Hw Hs) as [Hexec Hnext]; [nia|].
    cbn [bind]. rewrite Hexec.
    destruct (IH (S a) (state_of (noisePixel a y s)) ltac:(lia) Hnext) as [Hr Hp].
    split; [exact Hr|].
    replace (a + S n + y * w)%nat with (S a + n + y * w)%nat by lia. exact Hp.
Qed.

Lemma noise_rows_draws s0 w h :
  width s0 = INR w ->
  (4 * (h * w) <= length (pixels s0))%nat ->
  forall n b s,
    (b + n <= h)%nat ->
    noise_draws_at s0 s (b * w) ->
    let run_rows :=
      forEach (seq b n)
        (fun y => w' <- gets width ;; forEach (below w') (fun x => noisePixel x y)) s in
    result_of run_rows = Ok tt /\
    noise_draws_at s0 (state_of run_rows) ((b + n) * w).
Proof.
  intros Hw Hlen. induction n as [|n IH]; intros b s Hbn Hs; cbn [forEach seq].
  - cbn. rewrite Nat.add_0_r. split; [reflexivity | exact Hs].
  - assert (Hws : width s = INR w) by (destruct Hs as [[-> _] _]; exact Hw).
    cbn [bind gets]. rewrite Hws, below_INR.
    destruct (noise_row_draws s0 w b Hw ltac:(nia) w 0%nat s ltac:(lia) Hs) as [Hr Hp].
    unfold result_of, state_of in Hr, Hp.
    destruct (forEach (seq 0 w) (fun x => noisePixel x b) s) as [[[]|e] s1];
      cbn [fst snd] in Hr, Hp; [|discriminate].
    replace (0 + w + b * w)%nat with (S b * w)%nat in Hp by lia.
    destruct (IH (S b) s1 ltac:(lia) Hp) as [Hr' Hp'].
    split; [exact Hr'|].
    replace ((b + S n) * w)%nat with ((S b + n) * w)%nat by lia. exact Hp'.
Qed.

Lemma addNoiseToFigure_draws s w h :
  width s = INR w ->
  height s = INR h ->
  length (rasterize (issued s ++ [LoadPixels])) = (4 * (h * w))%nat ->
  faults s (calls s) = None ->
  exists s1,
    noise_draws_at (pixels_loaded s) s1 (h * w) /\
    pixels (state_of (addNoiseToFigure s)) = pixels s1 /\
    rpos (state_of (addNoiseToFigure s)) = rpos s1 /\
    (faults s (S (calls s)) = None ->
     addNoiseToFigure s =
       (Ok tt, emitted (UpdatePixels (pixels s1)) s1)).
Proof.
  intros Hw Hh Hlen Hf.
  set (s0 := pixels_loaded s).
  assert (Hw0 : width s0 = INR w) by exact Hw.
  assert (Hlen0 : (4 * (h * w) <= length (pixels s0))%nat)
    by (change (pixels s0) with (rasterize (issued s ++ [LoadPixels])); lia).
  destruct (noise_rows_draws s0 w h Hw0 Hlen0 h 0%nat s0 ltac:(lia)
              (noise_draws_start s0)) as [Hr Hp].
  cbn [Nat.add] in Hp.
  unfold addNoiseToFigure, updatePixels.
  cbn [bind]. rewrite (loadPixels_loads s Hf). fold s0.
  cbn [gets]. change (height s0) with (height s). rewrite Hh, below_INR.
  unfold result_of, state_of in Hr, Hp.
  destruct (forEach (seq 0 h) _ s0) as [[[]|e] s1]; cbn [fst snd] in Hr, Hp;
    [|discriminate].
  exists s1. split; [exact Hp|].
  assert (Hs1 : faults s1 = faults s /\ calls s1 = S (calls s)).
  { destruct Hp as [[-> _] _]. split; reflexivity. }
  destruct Hs1 as [Hf1 Hc1].
  cbn [emit]. rewrite Hf1, Hc1.
  destruct (faults s (S (calls s))); cbn [snd]; repeat split.
  - discriminate.
  - intros _. unfold emitted. rewrite Hc1. reflexivity.
Qed.

(** X9: on a canvas of w x h whole pixels whose buffer loadPixels delivers
    (4 bytes a pixel, loadPixels not failing), addNoiseToFigure draws one
    random number for each dark pixel, in the order of the rows, and none for
    a bright pixel: the dark pixel (x, y) gets the noise amount of the draw
    numbered by the dark pixels before it, and after the pass random() has
    been called as many times as the loaded buffer has dark pixels. On such
    a canvas without a dark pixel the pass draws nothing and writes back the
    buffer as loaded. *)
Theorem addNoiseToFigure_draws_per_dark_pixel s w h :
  width s = INR w ->
  height s = INR h ->
  length (rasterize (issued s ++ [LoadPixels])) = (4 * (h * w))%nat ->
  faults s (calls s) = None ->
  let loaded := rasterize (issued s ++ [LoadPixels]) in
  let s' := state_of (addNoiseToFigure s) in
  rpos s' = (rpos s + dark_pixels loaded (h * w))%nat /\
  (forall x y r g b,
     (x < w)%nat -> (y < h)%nat ->
     let j := (x + y * w)%nat in
     loaded !! (4 * j + 0)%nat = Some r ->
     loaded !! (4 * j + 1)%nat = Some g ->
     loaded !! (4 * j + 2)%nat = Some b ->
     (IZR r + IZR g + IZR b) / 3 < 180 ->
     let noiseAmount := noise_amount s (rpos s + dark_pixels loaded j) in
     pixels s' !! (4 * j + 0)%nat = Some (perturbed r noiseAmount) /\
     pixels s' !! (4 * j + 1)%nat = Some (perturbed g noiseAmount) /\
     pixels s' !! (4 * j + 2)%nat = Some (perturbed b noiseAmount)) /\
  (dark_pixels loaded (h * w) = 0%nat ->
   pixels s' = loaded /\
   (faults s (S (calls s)) = None ->
    issued s' = issued s ++ [LoadPixels; UpdatePixels loaded])).
Proof.
  intros Hw Hh Hlen Hf loaded s'.
  destruct (addNoiseToFigure_draws s w h Hw Hh Hlen Hf)
    as (s1 & (Hpass & Hpos & Hdrawn) & Hpx & Hrp & Hexec).
  change (pixels (pixels_loaded s)) with loaded in *.
  change (rpos (pixels_loaded s)) with (rpos s) in *.
  subst s'. rewrite Hpx, Hrp.
  split; [exact Hpos|]. split.
  - intros x y r g b Hx Hy j Hr Hg Hb Hdark.
    apply (Hdrawn j r g b); try assumption.
    + subst j. nia.
    + apply dark_spec. exact Hdark.
  - intros Hnone.
    assert (Hbright : forall j, (j < h * w)%nat -> dark_at loaded j = false).
    { clear -Hnone. induction (h * w)%nat as [|m IH]; intros j Hj; [lia|].
      cbn [dark_pixels] in Hnone.
      destruct (Nat.eq_dec j m) as [->|Hne].
      - destruct (dark_at loaded m); [lia | reflexivity].
      - apply IH; lia. }
    assert (Hsame : pixels s1 = loaded).
    { destruct Hpass as (_ & Hlen1 & Hdone & _).
      apply list_eq. intros i.
      destruct (Nat.lt_ge_cases i (4 * (h * w))) as [Hi|Hi].
      - set (j := (i / 4)%nat). set (c := (i mod 4)%nat).
        assert (Hic : i = (4 * j + c)%nat) by (subst j c; apply Nat.div_mod_eq).
        assert (Hc : (c < 4)%nat) by (subst c; apply Nat.mod_upper_bound; lia).
        assert (Hj : (j < h * w)%nat) by lia.
        assert (Hget : forall d, (d < 4)%nat ->
                  exists p, loaded !! (4 * j + d)%nat = Some p).
        { intros d Hd. apply lookup_lt_is_Some_2. unfold loaded. rewrite Hlen. lia. }
        destruct (Hget 0%nat ltac:(lia)) as (r & Hr0).
        destruct (Hget 1%nat ltac:(lia)) as (g & Hg0).
        destruct (Hget 2%nat ltac:(lia)) as (b & Hb0).
        destruct (Hdone j Hj r g b Hr0 Hg0 Hb0) as [Halpha Hcolor].
        change (pixels (pixels_loaded s)) with loaded in Halpha.
        specialize (Hbright j Hj). unfold dark_at in Hbright.
        rewrite Hr0, Hg0, Hb0 in Hbright. rewrite Hbright in Hcolor.
        destruct Hcolor as (Hr1 & Hg1 & Hb1).
        assert (Hcases : c = 0%nat \/ c = 1%nat \/ c = 2%nat \/ c = 3%nat) by lia.
        rewrite Hic.
        destruct Hcases as [-> | [-> | [-> | ->]]]; congruence.
      - rewrite !lookup_ge_None_2; [reflexivity | unfold loaded; lia | ].
        change (pixels (pixels_loaded s)) with loaded in Hlen1.
        rewrite Hlen1. unfold loaded. lia. }
    split; [exact Hsame|].
    intros Hf2. rewrite (Hexec Hf2). cbn [state_of snd].
    unfold emitted. cbn [issued set_issued set_calls].
    assert (Hi : issued s1 = issued s ++ [LoadPixels])
      by (destruct Hpass as (-> & _); reflexivity).
    rewrite Hi, Hsame, <- app_assoc. reflexivity.
Qed.

(** ** The calls of a frame, as p5 reads them *)

(** What p5 keeps between the calls of a frame, as far as the sketch uses
    it: the translation in force (the sketch never rotates or scales), the
    translations saved by push, and whether a shape is open. *)
Record Pen : Type := mkPen {
  origin_x : R;
  origin_y : R;
  saved : list (R * R);
  in_shape : bool
}.

Definition next (pen : Pen) (c : Cmd) : Pen :=
  match c with
  | Push =>
      mkPen (origin_x pen) (origin_y pen)
        ((origin_x pen, origin_y pen) :: saved pen) (in_shape pen)
  | Pop =>
      match saved pen with
      | (x, y) :: rest => mkPen x y rest (in_shape pen)
      | [] => pen
      end
  | Translate x y =>
      mkPen (origin_x pen + x) (origin_y pen + y) (saved pen) (in_shape pen)
  | BeginShape => mkPen (origin_x pen) (origin_y pen) (saved pen) true
  | EndShape _ => mkPen (origin_x pen) (origin_y pen) (saved pen) false
  | _ => pen
  end.

(** The calls [out], read from [pen] on, each satisfy [V] and leave
    [pen']. *)
Fixpoint follows (V : Pen -> Cmd -> Prop) (pen : Pen) (out : list Cmd) (pen' : Pen)
    : Prop :=
  match out with
  | [] => pen' = pen
  | c :: rest => V pen c /\ follows V (next pen c) rest pen'
  end.

Lemma follows_app V pen o1 p1 o2 p2 :
  follows V pen o1 p1 -> follows V p1 o2 p2 -> follows V pen (o1 ++ o2) p2.
Proof.
  revert pen. induction o1 as [|c o1 IH]; intros pen H1 H2; cbn [follows app] in *.
  - subst p1. exact H2.
  - destruct H1 as [Hc H1]. split; [exact Hc|]. apply IH; assumption.
Qed.

Lemma follows_weaken (V V' : Pen -> Cmd -> Prop) pen out pen' :
  (forall p c, V p c -> V' p c) -> follows V pen out pen' -> follows V' pen out pen'.
Proof.
  intros HV. revert pen. induction out as [|c out IH]; intros pen H; cbn [follows] in *.
  - exact H.
  - destruct H as [Hc H]. split; [apply HV, Hc | apply IH, H].
Qed.

Lemma follows_Forall (P : Cmd -> Prop) pen out pen' :
  follows (fun _ c => P c) pen out pen' -> Forall P out.
Proof.
  revert pen. induction out as [|c out IH]; intros pen H; cbn [follows] in *.
  - constructor.
  - destruct H as [Hc H]. constructor; [exact Hc | apply (IH _ H)].
Qed.

(** p5's rules for shapes and for push and pop: a vertex only inside a
    shape; inside a shape no transformation, no other shape, no push or pop,
    and neither the background nor the pixel buffer touched; a pop only
    after a push. *)
Definition well_nested (pen : Pen) (c : Cmd) : Prop :=
  match c with
  | Vertex _ _ | CurveVertex _ _ | EndShape _ => in_shape pen = true
  | Pop => in_shape pen = false /\ saved pen <> []
  | Push | Translate _ _ | BeginShape | Ellipse _ _ _ _ | Rect _ _ _ _
  | FillRect _ _ _ _ | Background _ _ _ | LoadPixels | UpdatePixels _ =>
      in_shape pen = false
  | _ => True
  end.

Section Canvas.

(** The size of the canvas. *)
Variables W H : R.

(** The rectangle of 170 x 418 around the centre of the canvas that holds
    the figure. *)
Definition in_figure_box (x y : R) : Prop :=
  W / 2 - 85 <= x <= W / 2 + 85 /\ H / 2 - 210 <= y <= H / 2 + 208.

(** Where a call draws: a vertex and an ellipse (given by its centre and its
    two diameters) inside the figure's box; the rectangles of the vignette
    and of the glow exactly over the canvas; the vignette's gradient around
    the centre of the canvas. *)
Definition placed (pen : Pen) (c : Cmd) : Prop :=
  match c with
  | Vertex x y | CurveVertex x y =>
      in_figure_box (origin_x pen + x) (origin_y pen + y)
  | Ellipse x y w h =>
      0 < w /\ 0 < h /\
      in_figure_box (origin_x pen + x - w / 2) (origin_y pen + y - h / 2) /\
      in_figure_box (origin_x pen + x + w / 2) (origin_y pen + y + h / 2)
  | Rect x y w h | FillRect x y w h =>
      origin_x pen + x = 0 /\ origin_y pen + y = 0 /\ w = W /\ h = H
  | CreateRadialGradient x0 y0 r0 x1 y1 r1 =>
      origin_x pen + x0 = W / 2 /\ origin_y pen + y0 = H / 2 /\
      origin_x pen + x1 = W / 2 /\ origin_y pen + y1 = H / 2 /\
      0 <= r0 < r1
  | _ => True
  end.

(** A color as fill, stroke and color take it under
    colorMode(RGB, 255, 255, 255, 1): a gray value, three channels, or
    three channels and an alpha. *)
Definition color_in_range (color : list R) : Prop :=
  match color with
  | [gray] => 0 <= gray <= 255
  | [r; g; b] => 0 <= r <= 255 /\ 0 <= g <= 255 /\ 0 <= b <= 255
  | [r; g; b; a] => 0 <= r <= 255 /\ 0 <= g <= 255 /\ 0 <= b <= 255 /\ 0 <= a <= 1
  | _ => False
  end.

(** What a call paints with: colors in range, color stops at offsets in
    [0, 1], a stroke of positive weight. *)
Definition painted (c : Cmd) : Prop :=
  match c with
  | Fill color | Stroke color => color_in_range color
  | Background r g b => color_in_range [r; g; b]
  | AddColorStop offset r g b a => 0 <= offset <= 1 /\ color_in_range [r; g; b; a]
  | StrokeWeight w => 0 < w
  | _ => True
  end.

(** All three. *)
Definition proper (pen : Pen) (c : Cmd) : Prop :=
  well_nested pen c /\ placed pen c /\ painted c.

(** What the renderers rely on: the emotional intensity [draw] has set, the
    size of the canvas, the amplitudes [setup] has drawn. *)
Definition frame_invariant (s : State) : Prop :=
  0.5 <= emotionalIntensity s <= 1 /\
  width s = W /\ height s = H /\
  total_amplitude (distortionField s) <= 24.

(** [traces pen m pen']: run in a state satisfying [frame_invariant], [m]
    keeps it, and the calls it has issued, read from [pen] on, are all
    [proper]; they leave [pen'] if [m] returns. *)
Definition traces {A} (pen : Pen) (m : M A) (pen' : Pen) : Prop :=
  forall s, frame_invariant s ->
    frame_invariant (state_of (m s)) /\
    exists out,
      issued (state_of (m s)) = issued s ++ out /\
      match result_of (m s) with
      | Ok _ => follows proper pen out pen'
      | Throw _ => exists p, follows proper pen out p
      end.

Lemma traces_ret {A} pen (a : A) : traces pen (ret a) pen.
Proof.
  intros s Hs. split; [exact Hs|]. exists []. cbn. rewrite app_nil_r. auto.
Qed.

Lemma traces_bind {A B} pen p1 p2 (m : M A) (k : A -> M B) :
  traces pen m p1 -> (forall a, traces p1 (k a) p2) -> traces pen (bind m k) p2.
Proof.
  intros Hm Hk s Hs. destruct (Hm s Hs) as (H1 & o1 & I1 & F1).
  unfold state_of, result_of in *. cbn [bind].
  destruct (m s) as [[a|e] s1]; cbn [fst snd] in *.
  - destruct (Hk a s1 H1) as (H2 & o2 & I2 & F2).
    unfold state_of, result_of in *.
    split; [exact H2|]. exists (o1 ++ o2).
    split; [rewrite I2, I1, app_assoc; reflexivity|].
    destruct (k a s1) as [[b|e] s2]; cbn [fst snd] in *.
    + apply (follows_app _ _ _ p1); assumption.
    + destruct F2 as (p & F2). exists p. apply (follows_app _ _ _ p1); assumption.
  - split; [exact H1|]. exists o1. split; [exact I1 | exact F1].
Qed.

(** A step that only reads the state: what follows may use that the value
    is one read in a state satisfying the invariant. *)
Lemma traces_reads {A B} pen p2 (m : M A) (g : State -> A) (k : A -> M B) :
  (forall s, m s = (Ok (g s), s)) ->
  (forall a, (exists s, frame_invariant s /\ a = g s) -> traces pen (k a) p2) ->
  traces pen (bind m k) p2.
Proof.
  intros Hm Hk s Hs. cbn [bind]. rewrite Hm.
  apply (Hk (g s)); [|exact Hs]. exists s. auto.
Qed.

Lemma traces_gets_bind {A B} pen p2 (f : State -> A) (k : A -> M B) :
  (forall a, (exists s, frame_invariant s /\ a = f s) -> traces pen (k a) p2) ->
  traces pen (bind (gets f) k) p2.
Proof. apply traces_reads. reflexivity. Qed.

Lemma Rabs_within a A : Rabs a <= A -> - A <= a <= A.
Proof. intros Ha. unfold Rabs in Ha. destruct (Rcase_abs a); lra. Qed.

Lemma traces_distortion_bind {B} pen p2 x y time (k : Vec -> M B) :
  (forall d, -24 <= vx d <= 24 -> -24 <= vy d <= 24 -> traces pen (k d) p2) ->
  traces pen (bind (getComplexDistortion x y time) k) p2.
Proof.
  intros Hk s Hs. cbn [bind].
  destruct (getComplexDistortion_small s x y time) as (v & -> & Hx & Hy).
  assert (Hamp : total_amplitude (distortionField s) <= 24) by apply Hs.
  apply Hk; [apply Rabs_within; lra | apply Rabs_within; lra | exact Hs].
Qed.

Lemma traces_assoc {A B C} pen p2 (m : M A) (k : A -> M B) (k2 : B -> M C) :
  traces pen (bind m (fun a => bind (k a) k2)) p2 ->
  traces pen (bind (bind m k) k2) p2.
Proof.
  intros Hm s Hs. specialize (Hm s Hs). unfold state_of, result_of in *.
  cbn [bind] in *. destruct (m s) as [[a|e] s1]; exact Hm.
Qed.

Lemma traces_emit pen c : proper pen c -> traces pen (emit c) (next pen c).
Proof.
  intros Hc s Hs. unfold state_of, result_of. cbn [emit].
  destruct (faults s (calls s)); cbn [fst snd].
  - split; [exact Hs|]. exists []. rewrite app_nil_r. split; [reflexivity|].
    exists pen. reflexivity.
  - split; [exact Hs|]. exists [c]. split; [reflexivity|].
    cbn [follows]. auto.
Qed.

Lemma traces_modify pen g :
  (forall s, frame_invariant s -> frame_invariant (g s) /\ issued (g s) = issued s) ->
  traces pen (modify g) pen.
Proof.
  intros Hg s Hs. destruct (Hg s Hs) as [H1 H2]. unfold state_of, result_of.
  cbn [modify fst snd]. split; [exact H1|]. exists []. rewrite app_nil_r.
  split; [exact H2 | reflexivity].
Qed.

Lemma traces_random pen : traces pen random pen.
Proof.
  intros s Hs. unfold state_of, result_of. cbn [random fst snd].
  split; [exact Hs|]. exists []. rewrite app_nil_r.
  split; reflexivity.
Qed.

(** A step that issues nothing and keeps the invariant, whether it returns
    or throws. *)
Lemma traces_silent {A} pen (m : M A) :
  (forall out, preserves (fun s => frame_invariant s /\ issued s = out) m) ->
  traces pen m pen.
Proof.
  intros Hm s Hs. destruct (Hm (issued s) s (conj Hs eq_refl)) as [H1 H2].
  split; [exact H1|]. exists []. rewrite app_nil_r. split; [exact H2|].
  destruct (result_of (m s)); [reflexivity | exists pen; reflexivity].
Qed.

Lemma traces_forEach {A} pen (l : list A) body :
  (forall a, In a l -> traces pen (body a) pen) -> traces pen (forEach l body) pen.
Proof.
  induction l as [|a l IH]; intros Hb; cbn [forEach].
  - apply traces_ret.
  - apply (traces_bind _ pen).
    + apply Hb. left. reflexivity.
    + intros _. apply IH. intros b Hin. apply Hb. right. exact Hin.
Qed.

Lemma traces_forReal pen (J : R -> Prop) fuel cond step t body :
  J t ->
  (forall t, J t -> cond t = true -> J (step t) /\ traces pen (body t) pen) ->
  traces pen (forReal fuel cond step t body) pen.
Proof.
  intros Ht Hb. revert t Ht. induction fuel as [|fuel IH]; intros t Ht; cbn [forReal].
  - apply traces_ret.
  - destruct (cond t) eqn:E; [|apply traces_ret].
    destruct (Hb t Ht E) as [Hnext Hbody].
    apply (traces_bind _ pen); [exact Hbody | intros _; apply IH, Hnext].
Qed.

Lemma traces_gets_any {A B} pen p2 (f : State -> A) (k : A -> M B) :
  (forall a, traces pen (k a) p2) -> traces pen (bind (gets f) k) p2.
Proof. intros Hk. apply traces_gets_bind. intros a _. apply Hk. Qed.

Lemma traces_gets_intensity {B} pen p2 (k : R -> M B) :
  (forall ei, 0.5 <= ei <= 1 -> traces pen (k ei) p2) ->
  traces pen (bind (gets emotionalIntensity) k) p2.
Proof.
  intros Hk. apply traces_gets_bind. intros a (s & (Hei & _) & ->). apply Hk, Hei.
Qed.

Lemma traces_gets_width {B} pen p2 (k : R -> M B) :
  traces pen (k W) p2 -> traces pen (bind (gets width) k) p2.
Proof.
  intros Hk. apply traces_gets_bind. intros a (s & (_ & Hw & _) & ->).
  rewrite Hw. exact Hk.
Qed.

Lemma traces_gets_height {B} pen p2 (k : R -> M B) :
  traces pen (k H) p2 -> traces pen (bind (gets height) k) p2.
Proof.
  intros Hk. apply traces_gets_bind. intros a (s & (_ & _ & Hh & _) & ->).
  rewrite Hh. exact Hk.
Qed.

Lemma traces_random_bind {B} pen p2 (k : R -> M B) :
  (forall r, traces pen (k r) p2) -> traces pen (bind random k) p2.
Proof. intros Hk. apply (traces_bind _ pen); [apply traces_random | exact Hk]. Qed.

Lemma traces_modify_bind {B} pen p2 g (k : unit -> M B) :
  (forall s, frame_invariant s -> frame_invariant (g s) /\ issued (g s) = issued s) ->
  traces pen (k tt) p2 -> traces pen (bind (modify g) k) p2.
Proof.
  intros Hg Hk. apply (traces_bind _ pen); [apply traces_modify, Hg | intros []; exact Hk].
Qed.

Lemma traces_emit_bind {B} pen p2 c (k : unit -> M B) :
  proper pen c -> traces (next pen c) (k tt) p2 -> traces pen (bind (emit c) k) p2.
Proof.
  intros Hc Hk. apply (traces_bind _ (next pen c)); [apply traces_emit, Hc|].
  intros []. exact Hk.
Qed.

Lemma traces_ret_bind {A B} pen p2 (a : A) (k : A -> M B) :
  traces pen (k a) p2 -> traces pen (bind (ret a) k) p2.
Proof. intros Hk s Hs. exact (Hk s Hs). Qed.

Lemma traces_emit_last pen p2 c :
  proper pen c -> next pen c = p2 -> traces pen (emit c) p2.
Proof. intros Hc <-. apply traces_emit, Hc. Qed.

(** The arithmetic of the renderers. *)
Lemma map_unit n c d : p5.map n 0 1 c d = n * (d - c) + c.
Proof. unfold p5.map. field. Qed.

Lemma map_3_0 n c d : p5.map n 3 0 c d = (3 - n) / 3 * (d - c) + c.
Proof. unfold p5.map. field. Qed.

Lemma Rleb_true_inv a b : Rleb a b = true -> a <= b.
Proof. unfold Rleb. destruct (Rle_dec a b); [auto | discriminate]. Qed.

Lemma Rltb_true_inv a b : Rltb a b = true -> a < b.
Proof. unfold Rltb. destruct (Rlt_dec a b); [auto | discriminate]. Qed.

Ltac bound_trig :=
  repeat match goal with
         | |- context [sin ?a] =>
             lazymatch goal with
             | _ : -1 <= sin a <= 1 |- _ => fail
             | _ => pose proof (SIN_bound a)
             end
         | |- context [cos ?a] =>
             lazymatch goal with
             | _ : -1 <= cos a <= 1 |- _ => fail
             | _ => pose proof (COS_bound a)
             end
         end.

(** Proves that a call is [proper], from the bounds at hand. *)
Ltac call_is_proper :=
  unfold proper, well_nested, placed, painted, color_in_range, in_figure_box;
  cbv zeta;
  cbn [origin_x origin_y saved in_shape app Vector.mult vx vy channel nth
       COLORS.BODY_MAIN COLORS.BODY_SHADOW COLORS.HEAD_MAIN COLORS.HEAD_GLOW
       COLORS.ARMS_MAIN COLORS.BACKGROUND];
  rewrite ?map_unit, ?map_3_0;
  repeat match goal with
         | |- context [if ?c then _ else _] => destruct c
         end;
  bound_trig;
  repeat match goal with
         | |- _ /\ _ => split
         end;
  first [ exact I | reflexivity | discriminate | lra | nra ].

(** A change of the state that the renderers do not depend on. *)
Ltac invariant_kept :=
  let s := fresh "s" in
  let Hs := fresh "Hs" in
  intros s Hs; split; [exact Hs | reflexivity].

(** One step through a piece of the sketch, chosen by the form of the
    program. *)
Ltac trace_step :=
  lazymatch goal with
  | |- traces _ (ret _) _ => apply traces_ret
  | |- traces _ (bind (ret _) _) _ => apply traces_ret_bind
  | |- traces _ (bind (gets emotionalIntensity) _) _ =>
      apply traces_gets_intensity; intros ? ?
  | |- traces _ (bind (gets width) _) _ => apply traces_gets_width
  | |- traces _ (bind (gets height) _) _ => apply traces_gets_height
  | |- traces _ (bind (gets _) _) _ => apply traces_gets_any; intros ?
  | |- traces _ (bind (getComplexDistortion _ _ _) _) _ =>
      apply traces_distortion_bind; intros ? ? ?
  | |- traces _ (bind random _) _ => apply traces_random_bind; intros ?
  | |- traces _ (bind (emit _) _) _ =>
      apply traces_emit_bind;
        [ solve [call_is_proper] | cbn [next origin_x origin_y saved in_shape] ]
  | |- traces _ (emit _) _ =>
      apply traces_emit_last; [ solve [call_is_proper] | reflexivity ]
  | |- traces _ (bind (modify _) _) _ =>
      apply traces_modify_bind; [ solve [invariant_kept] | ]
  | |- traces _ (modify _) _ => apply traces_modify; solve [invariant_kept]
  | |- traces _ (bind (bind _ _) _) _ => apply traces_assoc
  | |- traces _ (if ?c then _ else _) _ => destruct c
  | |- traces _ (bind (if ?c then _ else _) _) _ => destruct c
  end.

Ltac trace := repeat trace_step.

(** *** The renderers *)

Lemma drawBody_traces isShadow bd ox oy st :
  -24 <= vx bd <= 24 -> -24 <= vy bd <= 24 ->
  W / 2 <= ox <= W / 2 + 3.5 -> H / 2 <= oy <= H / 2 + 3.5 ->
  traces (mkPen ox oy st false) (drawBody isShadow bd) (mkPen ox oy st false).
Proof.
  intros Hx Hy Hox Hoy.
  unfold drawBody. cbn [Vector.mult vx vy].
  destruct isShadow; trace.
  all: eapply traces_bind;
    [ apply (traces_forReal _ (fun t => 0 <= t));
      [ lra
      | intros t Ht Hc; apply Rleb_true_inv in Hc; split; [lra | trace] ]
    | intros _ ].
  all: eapply traces_bind;
    [ apply (traces_forReal _ (fun t => t <= 1));
      [ lra
      | intros t Ht Hc; unfold Rgeb in Hc; apply Rleb_true_inv in Hc;
        split; [lra | trace] ]
    | intros _ ].
  all: trace.
Qed.

Lemma drawArmConnection_traces side ox oy st :
  side = -1 \/ side = 1 ->
  ox = W / 2 -> oy = H / 2 ->
  forall B (k : unit -> M B) p2,
    traces (mkPen ox oy st false) (k tt) p2 ->
    traces (mkPen ox oy st false)
      (bind (drawArmConnection side (side * 32) (-90)) k) p2.
Proof.
  intros Hside Hox Hoy B k p2 Hk.
  apply (traces_bind _ (mkPen ox oy st false)); [|intros []; exact Hk].
  unfold drawArmConnection. destruct Hside as [-> | ->]; trace.
Qed.

Lemma INR_below_8 i : In i (seq 0 8) -> 0 <= INR i / 7 <= 1.
Proof.
  intros Hi. apply List.in_seq in Hi.
  assert (H0 : 0 <= INR i) by apply pos_INR.
  assert (H7 : INR i <= 7).
  { replace 7 with (INR 7) by (simpl; lra). apply le_INR. lia. }
  split.
  - apply Rmult_le_pos; lra.
  - lra.
Qed.

Lemma drawArms_traces bd ox oy st :
  -24 <= vx bd <= 24 -> -24 <= vy bd <= 24 ->
  ox = W / 2 -> oy = H / 2 ->
  traces (mkPen ox oy st false) (drawArms bd) (mkPen ox oy st false).
Proof.
  intros Hx Hy Hox Hoy.
  unfold drawArms. cbn [Vector.mult vx vy].
  apply traces_forEach. intros side Hside.
  assert (Hs : side = -1 \/ side = 1).
  { destruct Hside as [<-|[<-|[]]]; [left | right]; reflexivity. }
  clear Hside.
  apply traces_emit_bind; [solve [call_is_proper] | cbn [next origin_x origin_y saved in_shape]].
  apply drawArmConnection_traces; try assumption.
  trace.
  eapply traces_bind;
    [ apply traces_forEach; intros i Hi; apply INR_below_8 in Hi;
      set (t := INR i / 7) in *; clearbody t
    | intros _; trace ].
  destruct Hs as [-> | ->]; trace.
Qed.

Lemma drawHeadAura_traces ox oy st :
  ox = W / 2 -> oy = H / 2 - 130 ->
  traces (mkPen ox oy st false) drawHeadAura (mkPen ox oy st false).
Proof.
  intros Hox Hoy. unfold drawHeadAura.
  apply traces_forEach. intros i Hi.
  destruct Hi as [<-|[<-|[<-|[]]]]; trace.
Qed.

Lemma drawSkullShape_traces bd ox oy st :
  -24 <= vx bd <= 24 -> -24 <= vy bd <= 24 ->
  ox = W / 2 -> oy = H / 2 - 130 ->
  traces (mkPen ox oy st false) (drawSkullShape bd) (mkPen ox oy st false).
Proof.
  intros Hx Hy Hox Hoy. unfold drawSkullShape. trace.
  eapply traces_bind;
    [ apply (traces_forReal _ (fun _ => True));
      [ exact I | intros angle _ _; split; [exact I | trace] ]
    | intros _; trace ].
Qed.

Lemma drawMouth_traces bd ox oy st :
  -24 <= vx bd <= 24 -> -24 <= vy bd <= 24 ->
  ox = W / 2 -> oy = H / 2 - 130 ->
  traces (mkPen ox oy st false) (drawMouth bd) (mkPen ox oy st false).
Proof.
  intros Hx Hy Hox Hoy. unfold drawMouth. trace.
  eapply traces_bind;
    [ apply (traces_forReal _ (fun _ => True));
      [ exact I | intros angle _ _; split; [exact I | do 2 trace_step] ]
    | intros _; trace ].
  match goal with |- context [cos angle * ?radius] =>
    assert (Hr : 7.5 <= radius <= 10.5)
      by (match goal with |- context [sin ?b] => pose proof (SIN_bound b) end; nra);
    set (r := radius) in *; clearbody r
  end.
  trace.
Qed.

Lemma drawFacialFeatures_traces bd ox oy st :
  -24 <= vx bd <= 24 -> -24 <= vy bd <= 24 ->
  ox = W / 2 -> oy = H / 2 - 130 ->
  traces (mkPen ox oy st false) (drawFacialFeatures bd) (mkPen ox oy st false).
Proof.
  intros Hx Hy Hox Hoy. unfold drawFacialFeatures.
  eapply traces_bind; [|intros _; apply drawMouth_traces; assumption].
  apply traces_forEach. intros side Hside.
  destruct Hside as [<-|[<-|[]]]; trace.
Qed.

Lemma drawHead_traces bd ox oy st :
  -24 <= vx bd <= 24 -> -24 <= vy bd <= 24 ->
  ox = W / 2 -> oy = H / 2 ->
  traces (mkPen ox oy st false) (drawHead bd) (mkPen ox oy st false).
Proof.
  intros Hx Hy Hox Hoy.
  change (drawHead bd) with (drawHead_line304 bd). unfold drawHead_line304.
  trace.
  eapply traces_bind; [apply drawHeadAura_traces; lra | intros _].
  eapply traces_bind; [apply drawSkullShape_traces; solve [assumption | lra] | intros _].
  eapply traces_bind; [apply drawFacialFeatures_traces; solve [assumption | lra] | intros _].
  trace.
Qed.

Lemma drawFigure_traces isShadow ox oy st :
  W / 2 <= ox <= W / 2 + 3.5 -> H / 2 <= oy <= H / 2 + 3.5 ->
  (isShadow = false -> ox = W / 2 /\ oy = H / 2) ->
  traces (mkPen ox oy st false) (drawFigure isShadow) (mkPen ox oy st false).
Proof.
  intros Hox Hoy Hmain. unfold drawFigure. trace.
  eapply traces_bind; [apply drawBody_traces; assumption | intros _].
  destruct isShadow; cbn [negb]; [apply traces_ret|].
  destruct (Hmain eq_refl) as [Ex Ey].
  eapply traces_bind; [apply drawArms_traces; assumption | intros _].
  apply drawHead_traces; assumption.
Qed.

Lemma drawShadowLayer_traces ox oy st :
  ox = W / 2 -> oy = H / 2 ->
  traces (mkPen ox oy st false) drawShadowLayer (mkPen ox oy st false).
Proof.
  intros Hox Hoy. unfold drawShadowLayer. cbn [vx vy]. trace.
  eapply traces_bind;
    [ match goal with |- context [sin ?a] =>
        pose proof (SIN_bound a); pose proof (COS_bound a)
      end;
      apply drawFigure_traces; [lra | lra | discriminate]
    | intros _; trace ].
Qed.

Lemma drawMainFigure_traces ox oy st :
  ox = W / 2 -> oy = H / 2 ->
  traces (mkPen ox oy st false) drawMainFigure (mkPen ox oy st false).
Proof.
  intros Hox Hoy. unfold drawMainFigure.
  apply drawFigure_traces; [lra | lra | auto].
Qed.

Lemma drawVignette_traces ox oy st :
  ox = W / 2 -> oy = H / 2 ->
  traces (mkPen ox oy st false) drawVignette (mkPen ox oy st false).
Proof. intros Hox Hoy. unfold drawVignette. trace. Qed.

Lemma addEmotionalGlow_traces ox oy st :
  ox = W / 2 -> oy = H / 2 ->
  traces (mkPen ox oy st false) addEmotionalGlow (mkPen ox oy st false).
Proof. intros Hox Hoy. unfold addEmotionalGlow. trace. Qed.

Ltac silent_side :=
  intros; unfold frame_invariant in *; msimpl; assumption.

Lemma addNoiseToFigure_traces ox oy st :
  traces (mkPen ox oy st false) addNoiseToFigure (mkPen ox oy st false).
Proof.
  unfold addNoiseToFigure, loadPixels, updatePixels. trace.
  eapply traces_bind;
    [ apply traces_silent; intros out; frame_with silent_side
    | intros _; trace ].
Qed.

Lemma addAtmosphericEffects_traces ox oy st :
  ox = W / 2 -> oy = H / 2 ->
  traces (mkPen ox oy st false) addAtmosphericEffects (mkPen ox oy st false).
Proof.
  intros Hox Hoy.
  change addAtmosphericEffects with addAtmosphericEffects_line431.
  unfold addAtmosphericEffects_line431.
  eapply traces_bind; [apply drawVignette_traces; assumption | intros _].
  eapply traces_bind; [apply addNoiseToFigure_traces | intros _].
  apply addEmotionalGlow_traces; assumption.
Qed.

(** *** A whole frame *)

(** The calls a frame issues: what [step Frame] adds to [issued]. *)
Definition frame_calls (s : State) : list Cmd :=
  drop (length (issued s)) (issued (step Frame s)).

(** p5 starts every frame with no transformation, nothing saved and no
    shape open. *)
Definition frame_start : Pen := mkPen 0 0 [] false.

Lemma frame_calls_spec s out :
  issued (step Frame s) = issued s ++ out -> frame_calls s = out.
Proof. intros E. unfold frame_calls. rewrite E. apply drop_app_length. Qed.

Lemma draw_issued s : issued (state_of (draw s)) = issued (state_of (draw_try s)).
Proof.
  unfold draw, state_of. cbn [try_catch].
  destruct (draw_try s) as [[[]|e] s1]; reflexivity.
Qed.

(** The [try] block of [draw], run when the frame counter has been
    advanced. *)
Lemma draw_try_follows s :
  width s = W -> height s = H ->
  total_amplitude (distortionField s) <= 24 ->
  exists out pen,
    issued (state_of (draw_try s)) = issued s ++ out /\
    follows proper frame_start out pen /\
    (result_of (draw_try s) = Ok tt -> saved pen = [] /\ in_shape pen = false).
Proof.
  intros Hw Hh Hamp. unfold draw_try. rewrite !bind_gets.
  destruct (flowfield s) as [ff|] eqn:E; cbn [not_object not_array orb].
  - rewrite bind_gets, bind_modify, bind_gets, bind_modify.
    match goal with
    | |- exists out pen, issued (state_of (?b ?st)) = _ /\ _ =>
        assert (Hb : traces frame_start b (mkPen (0 + W / 2) (0 + H / 2) [] false));
        [ | assert (Hst : frame_invariant st);
            [ | destruct (Hb st Hst) as (_ & out & Hout & Hfollows) ] ]
    end.
    + unfold frame_start. trace.
      eapply traces_bind;
        [ apply traces_silent; intros out; frame_with silent_side
        | intros _; trace ].
      eapply traces_bind; [apply drawShadowLayer_traces; lra | intros _].
      eapply traces_bind; [apply drawMainFigure_traces; lra | intros _].
      apply addAtmosphericEffects_traces; lra.
    + split; [apply map_sin_bounded|]. repeat split; assumption.
    + exists out.
      destruct (result_of _) as [[]|e] eqn:Er.
      * eexists. split; [exact Hout|]. split; [exact Hfollows|].
        intros _. split; reflexivity.
      * destruct Hfollows as (p & Hp). exists p.
        split; [exact Hout|]. split; [exact Hp|]. discriminate.
  - exists [], frame_start. split; [|split].
    + unfold console_error, noLoop. cbn. rewrite app_nil_r. reflexivity.
    + reflexivity.
    + intros _. split; reflexivity.
Qed.
End Canvas.

Lemma frame_follows s :
  total_amplitude (distortionField s) <= 24 ->
  exists pen,
    follows (proper (width s) (height s)) frame_start (frame_calls s) pen /\
    (result_of (draw_try (set_frameCount (S (frameCount s)) s)) = Ok tt ->
     saved pen = [] /\ in_shape pen = false).
Proof.
  intros Hamp.
  set (s1 := set_frameCount (S (frameCount s)) s).
  assert (Hstep : issued (step Frame s) = issued (state_of (draw_try s1))).
  { unfold step, handle, redraw. rewrite bind_modify. apply draw_issued. }
  destruct (draw_try_follows (width s) (height s) s1 eq_refl eq_refl Hamp)
    as (out & pen & Hout & Hfollows & Hdone).
  exists pen. rewrite (frame_calls_spec s out) by (rewrite Hstep; exact Hout).
  split; assumption.
Qed.

Lemma reachable_amplitude s : reachable s -> total_amplitude (distortionField s) <= 24.
Proof.
  intros Hs. destruct (reachable_distortionField s Hs) as [Hlen Hall].
  pose proof (total_amplitude_in_range _ Hall) as Ht. rewrite Hlen in Ht.
  rewrite INR_IZR_INZ in Ht. change (Z.of_nat 8) with 8%Z in Ht. lra.
Qed.

(** X10: the calls of a frame keep p5's rules, and if the frame fails, those
    issued until then do: every vertex and curveVertex lies between a
    beginShape and its endShape; no shape is opened inside another, and inside
    a shape nothing is translated, pushed, popped or drawn as an ellipse or
    rectangle; every pop has its push. When no p5 call fails, the frame ends
    with every shape closed and every push popped. *)
Theorem frame_well_nested s :
  reachable s ->
  exists pen,
    follows well_nested frame_start (frame_calls s) pen /\
    ((forall n, faults s n = None) -> saved pen = [] /\ in_shape pen = false).
Proof.
  intros Hs.
  destruct (frame_follows s (reachable_amplitude s Hs)) as (pen & Hfollows & Hdone).
  exists pen. split.
  - apply (follows_weaken _ _ _ _ _ (fun p c H => proj1 H) Hfollows).
  - intros Hf. apply Hdone.
    assert (Hr : ready (set_frameCount (S (frameCount s)) s)).
    { split; [exact Hf | apply (reachable_flowfield_defined s Hs)]. }
    destruct (draw_try_completes _ Hr) as (s' & -> & _). reflexivity.
Qed.

(** Where a call draws on the canvas: a vertex on it, an ellipse wholly
    on it. *)
Definition on_canvas (W H : R) (pen : Pen) (c : Cmd) : Prop :=
  match c with
  | Vertex x y | CurveVertex x y =>
      0 <= origin_x pen + x <= W /\ 0 <= origin_y pen + y <= H
  | Ellipse x y w h =>
      0 <= origin_x pen + x - w / 2 /\ origin_x pen + x + w / 2 <= W /\
      0 <= origin_y pen + y - h / 2 /\ origin_y pen + y + h / 2 <= H
  | _ => True
  end.

Lemma placed_on_canvas W H pen c :
  170 <= W -> 420 <= H -> placed W H pen c -> on_canvas W H pen c.
Proof.
  intros HW HH. destruct c; cbn [placed on_canvas]; unfold in_figure_box;
    try (intros _; exact I); intros; lra.
Qed.

(** X11: the figure stays in a box of 170 x 418 around the centre of the
    canvas, whatever the animation time and the oscillators setup has drawn:
    with the translations in force added, every vertex and curveVertex of a
    frame, and every ellipse with its whole extent, lies no more than 85 left
    or right of the centre, no more than 210 above and 208 below it. The
    rectangles of the vignette and of the glow cover exactly the canvas, and
    the vignette's gradient is centred on it. So on a canvas of at least 170 x
    420, as the 600 x 800 one of setup, the figure is drawn wholly on the
    canvas. *)
Theorem figure_stays_in_box s :
  reachable s ->
  exists pen,
    follows (placed (width s) (height s)) frame_start (frame_calls s) pen /\
    (170 <= width s -> 420 <= height s ->
     follows (on_canvas (width s) (height s)) frame_start (frame_calls s) pen).
Proof.
  intros Hs.
  destruct (frame_follows s (reachable_amplitude s Hs)) as (pen & Hfollows & _).
  assert (Hplaced : follows (placed (width s) (height s)) frame_start (frame_calls s) pen)
    by apply (follows_weaken _ _ _ _ _ (fun p c H => proj1 (proj2 H)) Hfollows).
  exists pen. split; [exact Hplaced|].
  intros HW HH.
  apply (follows_weaken _ _ _ _ _
           (fun p c => placed_on_canvas (width s) (height s) p c HW HH) Hplaced).
Qed.

(** X12: every color a frame passes to p5 is within the ranges colorMode(RGB,
    255, 255, 255, 1) sets: the channels of background, fill and stroke in [0,
    255], the alpha of a fill in [0, 1]; the vignette's color stops have
    offsets and opacities in [0, 1]; the stroke weight is positive. *)
Theorem frame_colors_in_range s :
  reachable s -> Forall painted (frame_calls s).
Proof.
  intros Hs.
  destruct (frame_follows s (reachable_amplitude s Hs)) as (pen & Hfollows & _).
  apply (follows_Forall painted frame_start _ pen).
  apply (follows_weaken _ _ _ _ _ (fun p c H => proj2 (proj2 H)) Hfollows).
Qed.

(** ** One vector object per cell *)

Section Cells.

Variable s0 : State.
Variable ff : FlowField.
Variable time : R.

Let nc : nat := Z.to_nat (cols ff).
Let nr : nat := Z.to_nat (rows ff).

Hypothesis flowfield_s0 : flowfield s0 = Some ff.
Hypothesis field_length : length (field ff) = (nc * nr)%nat.

(** The loops' invariant, with the objects named: the cell of column [x]
    and row [y], once written, refers to the vector created for it, the
    [(x * rows + y)]-th of this call. *)
Definition cells_at (X Y : nat) (s : State) : Prop :=
  update_at s0 ff time X Y s /\
  length (vectors s) = (length (vectors s0) + (X * nr + Y))%nat /\
  exists ff',
    flowfield s = Some ff' /\
    length (field ff') = (nc * nr)%nat /\
    forall x y, cell_done ff X Y x y ->
      field ff' !! (x + y * nc)%nat = Some (Some (length (vectors s0) + (x * nr + y))%nat).

Lemma cells_at_start : cells_at 0 0 s0.
Proof using flowfield_s0 field_length.
  split; [apply update_at_start; assumption|]. split; [lia|].
  exists ff. split; [exact flowfield_s0|]. split; [exact field_length|].
  intros x y (_ & _ & [H|[_ H]]); lia.
Qed.

Lemma cells_step X Y s :
  (X < nc)%nat -> (Y < nr)%nat ->
  cells_at X Y s ->
  exists s',
    update_cell ff time X (offset X) Y (offset Y) s = (Ok (offset (S Y)), s') /\
    cells_at X (S Y) s'.
Proof using flowfield_s0 field_length.
  intros HX HY (Hat & Hlen & ff' & Hff' & Hlf & Hcells).
  destruct (update_cell_step s0 ff time flowfield_s0 field_length X Y s HX HY Hat)
    as (s' & Hexec & Hat').
  exists s'. split; [exact Hexec|]. split; [exact Hat'|].
  rewrite (update_cell_exec s ff' ff time X (offset X) Y (offset Y) Hff') in Hexec.
  injection Hexec as <-.
  cbn [vectors set_vectors set_flowfield flowfield].
  split; [rewrite length_app; cbn [length]; lia|].
  eexists. split; [reflexivity|].
  cbn [with_field field].
  assert (Hc : cols ff = Z.of_nat nc) by (unfold nc in *; lia).
  assert (Hidx : (Z.of_nat X + Z.of_nat Y * cols ff)%Z = Z.of_nat (X + Y * nc)) by lia.
  assert (Hin : (X + Y * nc < length (field ff'))%nat) by (rewrite Hlf; nia).
  unfold array_set. rewrite Hidx.
  destruct (Z.ltb_spec (Z.of_nat (X + Y * nc)) 0) as [?|_]; [lia|].
  rewrite Nat2Z.id.
  destruct (Nat.ltb_spec (X + Y * nc) (length (field ff'))) as [_|?]; [|lia].
  split; [rewrite length_insert; exact Hlf|].
  intros x y (Hx & Hy & Hd).
  destruct (Nat.eq_dec (x + y * nc)%nat (X + Y * nc)%nat) as [E|NE].
  - destruct (cell_index_inj nc x y X Y Hx HX E) as [-> ->].
    rewrite list_lookup_insert_eq by exact Hin. rewrite Hlen. reflexivity.
  - rewrite list_lookup_insert_ne by congruence.
    apply Hcells. split; [exact Hx|]. split; [exact Hy|].
    destruct Hd as [?|[-> Hlt]]; [left; assumption|].
    right. split; [reflexivity|].
    assert (y <> Y) by (intros ->; apply NE; reflexivity). lia.
Qed.

Lemma cells_rows X :
  (X < nc)%nat ->
  forall n Y s,
    (Y + n <= nr)%nat ->
    cells_at X Y s ->
    exists s',
      forAcc (seq Y n) (offset Y) (update_cell ff time X (offset X)) s =
        (Ok (offset (Y + n)), s') /\
      cells_at X (Y + n) s'.
Proof using flowfield_s0 field_length.
  intros HX. induction n as [|n IH]; intros Y s HY Hs; cbn [forAcc seq].
  - exists s. rewrite Nat.add_0_r. split; [reflexivity | exact Hs].
  - destruct (cells_step X Y s HX ltac:(lia) Hs) as (s1 & Hexec & H1).
    cbn [bind]. rewrite Hexec.
    destruct (IH (S Y) s1 ltac:(lia) H1) as (s2 & Hexec2 & H2).
    exists s2. replace (Y + S n)%nat with (S Y + n)%nat by lia.
    split; assumption.
Qed.

Lemma cells_next_column X s : cells_at X nr s -> cells_at (S X) 0 s.
Proof using flowfield_s0 field_length.
  intros (Hat & Hlen & ff' & Hff' & Hlf & Hcells).
  split; [apply update_at_next_column; assumption|].
  split; [lia|]. exists ff'. split; [exact Hff'|]. split; [exact Hlf|].
  intros x y (Hx & Hy & Hd). apply Hcells. unfold cell_done. fold nc nr. lia.
Qed.

Lemma cells_columns :
  forall n X s,
    (X + n <= nc)%nat ->
    cells_at X 0 s ->
    exists s',
      forAcc (seq X n) (offset X) (update_column ff time) s =
        (Ok (offset (X + n)), s') /\
      cells_at (X + n) 0 s'.
Proof using flowfield_s0 field_length.
  induction n as [|n IH]; intros X s HX Hs; cbn [forAcc seq].
  - exists s. rewrite Nat.add_0_r. split; [reflexivity | exact Hs].
  - destruct (cells_rows X ltac:(lia) nr 0%nat s ltac:(lia) Hs) as (s1 & Hexec & H1).
    cbn [bind]. unfold update_column at 1. cbn [bind]. fold nr.
    cbn [offset] in Hexec. rewrite Hexec. cbn [ret].
    destruct (IH (S X) s1 ltac:(lia) (cells_next_column X s1 H1))
      as (s2 & Hexec2 & H2).
    exists s2. replace (X + S n)%nat with (S X + n)%nat by lia.
    split; assumption.
Qed.

Lemma FlowField_update_cells :
  exists s', FlowField_update time s0 = (Ok tt, s') /\ cells_at nc 0 s'.
Proof using flowfield_s0 field_length.
  destruct (cells_columns nc 0%nat s0 ltac:(lia) cells_at_start)
    as (s' & Hexec & Hs').
  exists s'. split; [|exact Hs'].
  rewrite FlowField_update_eq. unfold the_flowfield. cbn [bind gets].
  rewrite flowfield_s0. cbn [ret]. fold nc. cbn [offset] in Hexec.
  rewrite Hexec. reflexivity.
Qed.
End Cells.

(** X13: update gives every cell a vector object of its own: after
    update(time), the cell of column x and row y refers to the (x * rows +
    y)-th object created by this call, so every cell refers to an object that
    did not exist before the call, and no two cells refer to the same object. *)
Theorem FlowField_update_one_object_per_cell s ff time :
  flowfield s = Some ff ->
  grid_allocated ff ->
  let s' := state_of (FlowField_update time s) in
  exists ff',
    flowfield s' = Some ff' /\
    (forall x y,
       (x < Z.to_nat (cols ff))%nat -> (y < Z.to_nat (rows ff))%nat ->
       field ff' !! (x + y * Z.to_nat (cols ff))%nat =
         Some (Some (length (vectors s) + (x * Z.to_nat (rows ff) + y))%nat)) /\
    (forall i l,
       (i < Z.to_nat (cols ff * rows ff))%nat ->
       field ff' !! i = Some (Some l) ->
       (length (vectors s) <= l < length (vectors s'))%nat) /\
    (forall i j l,
       (i < Z.to_nat (cols ff * rows ff))%nat ->
       (j < Z.to_nat (cols ff * rows ff))%nat ->
       field ff' !! i = Some (Some l) -> field ff' !! j = Some (Some l) ->
       i = j).
Proof.
  intros Hff (Hc & Hr & Hlen) s'.
  set (nc := Z.to_nat (cols ff)) in *. set (nr := Z.to_nat (rows ff)) in *.
  assert (Hlen' : length (field ff) = (nc * nr)%nat)
    by (rewrite Hlen; apply Z2Nat.inj_mul; assumption).
  assert (Hn : Z.to_nat (cols ff * rows ff) = (nc * nr)%nat)
    by (apply Z2Nat.inj_mul; assumption).
  destruct (FlowField_update_cells s ff time Hff Hlen')
    as (s1 & Hexec & _ & Hvs & ff' & Hff' & Hlf & Hcells).
  fold nc nr in Hvs, Hcells, Hlf.
  assert (Es : s' = s1) by (subst s'; rewrite Hexec; reflexivity).
  rewrite Es. clear Es s' Hexec.
  assert (Hcell : forall x y, (x < nc)%nat -> (y < nr)%nat ->
            field ff' !! (x + y * nc)%nat =
              Some (Some (length (vectors s) + (x * nr + y))%nat)).
  { intros x y Hx Hy. apply Hcells. unfold cell_done. fold nc nr. lia. }
  assert (Hsplit : forall i, (i < nc * nr)%nat ->
            exists x y, (x < nc)%nat /\ (y < nr)%nat /\ i = (x + y * nc)%nat).
  { intros i Hi. assert (Hnc : (nc <> 0)%nat) by lia.
    exists (i mod nc)%nat, (i / nc)%nat.
    split; [apply Nat.mod_upper_bound; exact Hnc|].
    split; [apply Nat.Div0.div_lt_upper_bound; lia|].
    rewrite (Nat.div_mod_eq i nc) at 1. lia. }
  exists ff'. split; [exact Hff'|]. split; [exact Hcell|]. split.
  - intros i l Hi Hl. rewrite Hn in Hi.
    destruct (Hsplit i Hi) as (x & y & Hx & Hy & ->).
    rewrite (Hcell x y Hx Hy) in Hl. injection Hl as <-.
    rewrite Hvs. nia.
  - intros i j l Hi Hj Hli Hlj. rewrite Hn in Hi, Hj.
    destruct (Hsplit i Hi) as (x & y & Hx & Hy & ->).
    destruct (Hsplit j Hj) as (x' & y' & Hx' & Hy' & ->).
    rewrite (Hcell x y Hx Hy) in Hli. rewrite (Hcell x' y' Hx' Hy') in Hlj.
    injection Hli as <-. injection Hlj as Hl.
    assert (E : (x * nr + y = x' * nr + y')%nat) by lia.
    assert (y = y' /\ x = x') as [-> ->].
    { apply (cell_index_inj nr y x y' x' Hy Hy'). lia. }
    reflexivity.
Qed.

(** ** What the shadow is made of *)

(** [only P m]: whatever the state, and whether [m] returns or throws, every
    call [m] issues satisfies [P]. *)
Definition only {A} (P : Cmd -> Prop) (m : M A) : Prop :=
  forall s, exists out, issued (state_of (m s)) = issued s ++ out /\ Forall P out.

Lemma only_silent {A} P (m : M A) :
  (forall s, issued (state_of (m s)) = issued s) -> only P m.
Proof. intros Hm s. exists []. rewrite app_nil_r. split; [apply Hm | constructor]. Qed.

Lemma only_ret {A} P (a : A) : only P (ret a).
Proof. apply only_silent. reflexivity. Qed.

Lemma only_gets {A} P (f : State -> A) : only P (gets f).
Proof. apply only_silent. reflexivity. Qed.

Lemma only_emit P c : P c -> only P (emit c).
Proof.
  intros Hc s. unfold state_of. cbn [emit].
  destruct (faults s (calls s)); cbn [snd].
  - exists []. rewrite app_nil_r. split; [reflexivity | constructor].
  - exists [c]. split; [reflexivity | repeat constructor; exact Hc].
Qed.

Lemma only_bind {A B} P (m : M A) (k : A -> M B) :
  only P m -> (forall a, only P (k a)) -> only P (bind m k).
Proof.
  intros Hm Hk s. destruct (Hm s) as (o1 & I1 & F1).
  unfold state_of in *. cbn [bind].
  destruct (m s) as [[a|e] s1]; cbn [snd] in *.
  - destruct (Hk a s1) as (o2 & I2 & F2). unfold state_of in *.
    exists (o1 ++ o2). split.
    + rewrite I2, I1, app_assoc. reflexivity.
    + apply Forall_app. split; assumption.
  - exists o1. split; assumption.
Qed.

Lemma only_forReal P fuel cond next t body :
  (forall t, only P (body t)) -> only P (forReal fuel cond next t body).
Proof.
  intros Hb. revert t. induction fuel as [|fuel IH]; intros t; cbn [forReal].
  - apply only_ret.
  - destruct (cond t); [|apply only_ret].
    apply only_bind; [apply Hb | intros _; apply IH].
Qed.

(** The calls of the shadow layer: a translation by between 0.5 and 3.5
    pixels each way, and one shape, without stroke, filled with the shadow
    color at a quarter of full opacity. *)
Definition shadow_call (c : Cmd) : Prop :=
  match c with
  | Push | Pop | NoStroke | BeginShape | EndShape true | Vertex _ _ => True
  | Translate x y => 0.5 <= x <= 3.5 /\ 0.5 <= y <= 3.5
  | Fill color => color = COLORS.BODY_SHADOW ++ [0.25]
  | _ => False
  end.

Lemma drawShadowLayer_only : only shadow_call drawShadowLayer.
Proof.
  unfold drawShadowLayer, drawFigure, drawBody, getComplexDistortion.
  cbn [negb vx vy].
  repeat first
    [ progress intros
    | apply only_ret
    | apply only_gets
    | apply only_forReal
    | apply only_emit; cbn [shadow_call];
        first [ exact I | reflexivity
              | match goal with |- context [sin ?a] =>
                  pose proof (SIN_bound a); pose proof (COS_bound a); lra
                end ]
    | apply only_bind ].
Qed.

(** ** The grid the constructor makes *)

(** X15: new FlowField(resolution), for a positive resolution on a canvas of
    non-negative size: the grid has ceil(width / resolution) columns and
    ceil(height / resolution) rows, so it covers the canvas with less than one
    cell to spare each way; when the number of cells is below 2^32 the
    constructor returns, without changing the state, a flow field of that many
    cells, all of them undefined, with particleSpeed 0.15; when it is not, new
    Array throws a RangeError. *)
Theorem new_FlowField_covers_canvas s res :
  0 < res -> 0 <= width s -> 0 <= height s ->
  let columns := p5.ceil (width s / res) in
  let lines := p5.ceil (height s / res) in
  (0 <= columns)%Z /\ (0 <= lines)%Z /\
  width s <= IZR columns * res < width s + res /\
  height s <= IZR lines * res < height s + res /\
  ((columns * lines < 2 ^ 32)%Z ->
   exists ff,
     new_FlowField res s = (Ok ff, s) /\
     resolution ff = res /\
     cols ff = columns /\ rows ff = lines /\ particleSpeed ff = 0.15 /\
     length (field ff) = Z.to_nat (columns * lines) /\
     forall index, array_get (field ff) index = None) /\
  ((2 ^ 32 <= columns * lines)%Z ->
   new_FlowField res s = (Throw "RangeError: Invalid array length"%string, s)).
Proof.
  intros Hres Hw Hh columns lines.
  assert (Hceil : forall v, 0 <= v ->
            (0 <= p5.ceil (v / res))%Z /\
            v <= IZR (p5.ceil (v / res)) * res < v + res).
  { intros v Hv. unfold p5.ceil.
    pose proof (Zceil_bound (v / res)) as [Hlo Hhi].
    assert (Hq : 0 <= v / res) by (apply Rmult_le_pos; [lra|];
      left; apply Rinv_0_lt_compat; exact Hres).
    assert (Hv' : v = v / res * res) by (field; lra).
    split.
    - apply le_IZR. lra.
    - split; nra. }
  destruct (Hceil (width s) Hw) as [Hc0 Hc]. destruct (Hceil (height s) Hh) as [Hr0 Hr].
  fold columns in Hc0, Hc. fold lines in Hr0, Hr.
  split; [exact Hc0|]. split; [exact Hr0|]. split; [exact Hc|]. split; [exact Hr|].
  unfold new_FlowField. cbn [bind gets]. fold columns lines.
  split.
  - intros Hsmall.
    destruct (Z.ltb_spec (columns * lines) 0) as [?|_]; [nia|].
    destruct (Z.leb_spec (2 ^ 32) (columns * lines)) as [?|_]; [lia|].
    cbn [orb ret]. eexists. split; [reflexivity|].
    cbn [resolution cols rows particleSpeed field].
    repeat split.
    + apply length_replicate.
    + intros index. unfold array_get. destruct (index <? 0)%Z; [reflexivity|].
      destruct (replicate _ _ !! Z.to_nat index) as [[l|]|] eqn:E; try reflexivity.
      apply lookup_replicate in E. destruct E. discriminate.
  - intros Hbig.
    destruct (Z.leb_spec (2 ^ 32) (columns * lines)) as [_|?]; [|lia].
    rewrite orb_true_r. reflexivity.
Qed.

(** ** How a resize fails *)

Lemma draw_keeps_frameCount n : preserves (fun s => frameCount s = n) draw.
Proof. frame. Qed.

(** X16: windowResized has no try of its own. If resizeCanvas fails, the error
    escapes windowResized, and the canvas keeps its size and the frame counter
    its value. If it does not, windowResized returns normally whatever happens
    in the frame p5 redraws at once, since draw catches its own errors, and
    the frame counter has advanced by one: a frame is run, also when the loop
    has been stopped. *)
Theorem windowResized_failure_modes s windowWidth windowHeight :
  let r := windowResized windowWidth windowHeight s in
  (forall error,
     faults s (calls s) = Some error ->
     r = (Throw error, set_calls (S (calls s)) s)) /\
  (faults s (calls s) = None ->
     result_of r = Ok tt /\ frameCount (state_of r) = S (frameCount s)).
Proof.
  cbv zeta. unfold windowResized, resizeCanvas, redraw. split.
  - intros error Hf. cbn [bind emit]. rewrite Hf. reflexivity.
  - intros Hf. unfold result_of, state_of. cbn [bind emit modify]. rewrite Hf.
    match goal with |- context [draw ?st] =>
      pose proof (draw_returns st) as Hret;
      pose proof (draw_keeps_frameCount (frameCount st) st eq_refl) as Hfc
    end.
    unfold result_of, state_of in Hret, Hfc.
    split; [exact Hret | exact Hfc].
Qed.
(** * The calls of a frame, one by one *)

(** ** Runs in which p5 does not fail *)

(** The vector [getComplexDistortion] computes from the oscillators [df]. *)
Definition complexDistortion (df : list Oscillator) (x y time : R) : Vec :=
  fold_left (fun distortion d =>
       let dx := sin (x * frequency d + time * speed d + phase d) * amplitude d in
       let dy := cos (y * frequency d + time * speed d + phase d + PI / 4) * amplitude d in
       Vector.add distortion (createVec dx dy))
    df (createVec 0 0).

Lemma getComplexDistortion_eq x y time s :
  getComplexDistortion x y time s =
    (Ok (complexDistortion (distortionField s) x y time), s).
Proof. reflexivity. Qed.

(** Descriptions of a list of calls: just the calls [l]; one description
    after the other. *)
Definition exactly (l : list Cmd) (out : list Cmd) : Prop := out = l.

Fixpoint in_sequence (parts : list (list Cmd -> Prop)) (out : list Cmd) : Prop :=
  match parts with
  | [] => out = []
  | P :: rest => exists o1 o2, out = o1 ++ o2 /\ P o1 /\ in_sequence rest o2
  end.

(** The calls of a loop over a real counter that starts at [first]: the call
    for [first], then calls for counter values that are all [valid]. *)
Definition swept (valid : R -> Prop) (call : R -> Cmd) (first : R)
    (out : list Cmd) : Prop :=
  exists rest,
    out = call first :: rest /\
    Forall (fun c => exists t, valid t /\ c = call t) rest.

Section Steady.

(** What the renderers read, fixed during a frame once [draw] has set the
    time and the intensity. *)
Variables gt ei : R.
Variable df : list Oscillator.
Variables W H : R.

Definition steady (s : State) : Prop :=
  ready s /\
  globalTime s = gt /\ emotionalIntensity s = ei /\ distortionField s = df /\
  width s = W /\ height s = H.

(** [yields m Q]: run in a [steady] state, [m] returns, leaves a [steady]
    state, and the calls it has issued are as [Q] describes. *)
Definition yields {A} (m : M A) (Q : list Cmd -> Prop) : Prop :=
  forall s, steady s ->
    exists a out,
      m s = (Ok a, state_of (m s)) /\
      steady (state_of (m s)) /\
      issued (state_of (m s)) = issued s ++ out /\
      Q out.

Lemma yields_weaken {A} (m : M A) (Q Q' : list Cmd -> Prop) :
  (forall out, Q out -> Q' out) -> yields m Q -> yields m Q'.
Proof.
  intros HQ Hm s Hs. destruct (Hm s Hs) as (a & out & H1 & H2 & H3 & H4).
  exists a, out. auto.
Qed.

Lemma yields_ret {A} (a : A) : yields (ret a) (in_sequence []).
Proof.
  intros s Hs. exists a, []. cbn. rewrite app_nil_r. auto.
Qed.

Lemma yields_bind {A B} (m : M A) (k : A -> M B) P parts :
  yields m P ->
  (forall a, yields (k a) (in_sequence parts)) ->
  yields (bind m k) (in_sequence (P :: parts)).
Proof.
  intros Hm Hk s Hs.
  destruct (Hm s Hs) as (a & o1 & E1 & R1 & I1 & H1).
  destruct (Hk a _ R1) as (b & o2 & E2 & R2 & I2 & H2).
  exists b, (o1 ++ o2). unfold state_of in *. cbn [bind].
  rewrite E1 in *. cbn [snd] in *. rewrite E2 in *. cbn [snd] in *.
  split; [reflexivity|]. split; [exact R2|]. split.
  - rewrite I2, I1, app_assoc. reflexivity.
  - exists o1, o2. auto.
Qed.

Lemma yields_last {A} (m : M A) P :
  yields m P -> yields m (in_sequence [P]).
Proof.
  apply yields_weaken. intros out HP. exists out, []. rewrite app_nil_r.
  cbn [in_sequence]. auto.
Qed.

Lemma yields_whole {A} (m : M A) P :
  yields m (in_sequence [P]) -> yields m P.
Proof.
  apply yields_weaken. intros out (o1 & o2 & -> & HP & ->).
  rewrite app_nil_r. exact HP.
Qed.

Lemma yields_assoc {A B C} (m : M A) (k : A -> M B) (k2 : B -> M C) Q :
  yields (bind m (fun a => bind (k a) k2)) Q ->
  yields (bind (bind m k) k2) Q.
Proof.
  intros Hm s Hs. specialize (Hm s Hs). unfold state_of in *.
  cbn [bind] in *. destruct (m s) as [[a|e] s1]; exact Hm.
Qed.

Lemma yields_ret_bind {A B} (a : A) (k : A -> M B) Q :
  yields (k a) Q -> yields (bind (ret a) k) Q.
Proof. intros Hk s Hs. exact (Hk s Hs). Qed.

(** The reads. *)
Lemma yields_reads {A B} (m : M A) (v : A) (k : A -> M B) Q :
  (forall s, steady s -> m s = (Ok v, s)) ->
  yields (k v) Q -> yields (bind m k) Q.
Proof.
  intros Hm Hk s Hs. unfold state_of. cbn [bind]. rewrite (Hm s Hs).
  exact (Hk s Hs).
Qed.

Lemma yields_gets_globalTime {B} (k : R -> M B) Q :
  yields (k gt) Q -> yields (bind (gets globalTime) k) Q.
Proof.
  apply yields_reads. intros s (_ & <- & _). reflexivity.
Qed.

Lemma yields_gets_emotionalIntensity {B} (k : R -> M B) Q :
  yields (k ei) Q -> yields (bind (gets emotionalIntensity) k) Q.
Proof.
  apply yields_reads. intros s (_ & _ & <- & _). reflexivity.
Qed.

Lemma yields_gets_width {B} (k : R -> M B) Q :
  yields (k W) Q -> yields (bind (gets width) k) Q.
Proof.
  apply yields_reads. intros s (_ & _ & _ & _ & <- & _). reflexivity.
Qed.

Lemma yields_gets_height {B} (k : R -> M B) Q :
  yields (k H) Q -> yields (bind (gets height) k) Q.
Proof.
  apply yields_reads. intros s (_ & _ & _ & _ & _ & <-). reflexivity.
Qed.

Lemma yields_distortion {B} x y time (k : Vec -> M B) Q :
  yields (k (complexDistortion df x y time)) Q ->
  yields (bind (getComplexDistortion x y time) k) Q.
Proof.
  apply yields_reads. intros s (_ & _ & _ & <- & _). reflexivity.
Qed.

(** The calls. *)
Lemma yields_emit c : yields (emit c) (exactly [c]).
Proof.
  intros s Hs. exists tt, [c]. unfold state_of. cbn [emit].
  destruct Hs as ([Hf Hff] & Hrest). rewrite Hf. cbn [snd].
  repeat split; solve [ assumption | apply Hrest ].
Qed.

Lemma yields_emit_bind {B} c (k : unit -> M B) l parts :
  yields (k tt) (in_sequence (exactly l :: parts)) ->
  yields (bind (emit c) k) (in_sequence (exactly (c :: l) :: parts)).
Proof.
  intros Hk.
  apply (yields_weaken _ (in_sequence [exactly [c]; in_sequence (exactly l :: parts)])).
  - intros out (o1 & o2 & -> & -> & o3 & o4 & -> & (o5 & o6 & -> & -> & Hparts) & ->).
    exists (c :: l), o6. rewrite app_nil_r. repeat split. exact Hparts.
  - apply yields_bind; [apply yields_emit|]. intros []. apply yields_last, Hk.
Qed.

Lemma yields_emit_last c : yields (emit c) (in_sequence [exactly [c]]).
Proof. apply yields_last, yields_emit. Qed.

Lemma yields_next {A} (m : M A) parts :
  yields m (in_sequence parts) -> yields m (in_sequence (exactly [] :: parts)).
Proof.
  apply yields_weaken. intros out Hout. exists [], out. repeat split. exact Hout.
Qed.

Lemma yields_done {A} (a : A) : yields (ret a) (in_sequence [exactly []]).
Proof. apply yields_next, yields_ret. Qed.

(** A loop over a real counter whose body issues one call. *)
Lemma yields_forReal_rest (J valid : R -> Prop) call fuel cond next body :
  (forall t, J t -> cond t = true -> J (next t) /\ valid t) ->
  (forall t, yields (body t) (exactly [call t])) ->
  forall t, J t ->
    yields (forReal fuel cond next t body)
      (Forall (fun c => exists t, valid t /\ c = call t)).
Proof.
  intros HJ Hbody. induction fuel as [|fuel IH]; intros t Ht; cbn [forReal].
  - apply (yields_weaken _ (in_sequence [])); [|apply yields_ret].
    intros out ->. constructor.
  - destruct (cond t) eqn:E.
    + destruct (HJ t Ht E) as [Hnext Hvalid].
      apply (yields_weaken _
               (in_sequence [exactly [call t];
                             Forall (fun c => exists t, valid t /\ c = call t)])).
      * intros out (o1 & o2 & -> & -> & o3 & o4 & -> & Hall & ->).
        rewrite app_nil_r. constructor; [exists t; auto | exact Hall].
      * apply yields_bind; [apply Hbody|]. intros _. apply yields_last, IH, Hnext.
    + apply (yields_weaken _ (in_sequence [])); [|apply yields_ret].
      intros out ->. constructor.
Qed.

Lemma yields_forReal (J valid : R -> Prop) call fuel cond next first body :
  J first -> cond first = true ->
  (forall t, J t -> cond t = true -> J (next t) /\ valid t) ->
  (forall t, yields (body t) (exactly [call t])) ->
  yields (forReal (S fuel) cond next first body) (swept valid call first).
Proof.
  intros Hfirst Hcond HJ Hbody. cbn [forReal]. rewrite Hcond.
  destruct (HJ first Hfirst Hcond) as [Hnext _].
  apply (yields_weaken _
           (in_sequence [exactly [call first];
                         Forall (fun c => exists t, valid t /\ c = call t)])).
  - intros out (o1 & o2 & -> & -> & o3 & o4 & -> & Hall & ->).
    rewrite app_nil_r. exists o3. split; [reflexivity | exact Hall].
  - apply yields_bind; [apply Hbody|]. intros _.
    apply yields_last, (yields_forReal_rest J valid call); assumption.
Qed.

End Steady.

(** One step through a piece of the sketch, chosen by the form of the program
    and of the description. *)
Ltac yield_step :=
  lazymatch goal with
  | |- yields _ _ _ _ _ (ret _) (in_sequence []) => apply yields_ret
  | |- yields _ _ _ _ _ (ret _) (in_sequence [exactly []]) => apply yields_done
  | |- yields _ _ _ _ _ (bind (ret _) _) _ => apply yields_ret_bind
  | |- yields _ _ _ _ _ (bind (gets globalTime) _) _ => apply yields_gets_globalTime
  | |- yields _ _ _ _ _ (bind (gets emotionalIntensity) _) _ =>
      apply yields_gets_emotionalIntensity
  | |- yields _ _ _ _ _ (bind (gets width) _) _ => apply yields_gets_width
  | |- yields _ _ _ _ _ (bind (gets height) _) _ => apply yields_gets_height
  | |- yields _ _ _ _ _ (bind (getComplexDistortion _ _ _) _) _ =>
      apply yields_distortion
  | |- yields _ _ _ _ _ (bind (bind _ _) _) _ => apply yields_assoc
  | |- yields _ _ _ _ _ (bind (emit _) _) (in_sequence (exactly (_ :: _) :: _)) =>
      apply yields_emit_bind
  | |- yields _ _ _ _ _ (emit _) (in_sequence [exactly [_]]) => apply yields_emit_last
  | |- yields _ _ _ _ _ (emit _) (exactly [_]) => apply yields_emit
  | |- yields _ _ _ _ _ _ (in_sequence (exactly [] :: _)) => apply yields_next
  end.

Ltac yield := repeat yield_step.

(** ** What the renderers issue *)

Section Calls.

Variables gt ei : R.
Variable df : list Oscillator.
Variables W H : R.

(** The counter of a loop over one turn, and of one over the unit
    interval. *)
Definition in_turn (angle : R) : Prop := 0 <= angle < TWO_PI.

Definition in_unit (t : R) : Prop := 0 <= t <= 1.

(** *** The head (lines 304-426) *)

(** One layer of the aura (lines 319-331). *)
Definition aura_layer (i : R) : list Cmd :=
  let auraDistortion := Vector.mult (complexDistortion df 0 (-130) (gt + i)) 0.5 in
  [Fill (COLORS.HEAD_GLOW ++ [p5.map i 3 0 0.04 0.12]);
   NoStroke;
   Ellipse (vx auraDistortion) (vy auraDistortion)
     (p5.map i 3 0 110 85 + sin (gt * 1.5) * 3)
     (p5.map i 3 0 110 85 * 1.2 + sin (gt * 1.5) * 3)].

(** The radius of the skull at [angle] (lines 344-353). *)
Definition skull_radius (angle : R) : R :=
  if Rltb angle PI then
    let r := 42 + sin (angle * 2) * 7 in
    let r := if Rgtb angle (PI / 4) && Rltb angle (PI / 2) then r - 3 else r in
    if Rgtb angle (PI / 2) && Rltb angle (3 * PI / 4) then r - 3 else r
  else 42 + sin (angle * 1.5) * 5.

Definition skull_vertex (baseDistortion : Vec) (angle : R) : Cmd :=
  Vertex (cos angle * skull_radius angle + vx baseDistortion * 0.4)
         (sin angle * skull_radius angle * 1.35 + vy baseDistortion * 0.4).

(** One eye: socket, eye and pupil (lines 370-395). *)
Definition eye_calls (baseDistortion : Vec) (side : R) : list Cmd :=
  [Push;
   Translate (side * 15) (-10);
   Fill [0; 0; 0; 0.35];
   Ellipse 0 0 (18 + ei * 2) ((18 + ei * 2) * 1.15);
   Fill [0];
   Ellipse (vx baseDistortion * 0.3) (vy baseDistortion * 0.3) 13 17;
   Fill [0];
   Ellipse (sin gt * ei) (cos gt * ei) 5 5;
   Pop].

Definition mouth_vertex (baseDistortion : Vec) (angle : R) : Cmd :=
  let r := 9 + sin (angle * 3 + gt) * (1 + ei * 0.5) in
  Vertex (cos angle * r + vx baseDistortion * 0.2)
         (sin angle * r * 1.4 + 20 + vy baseDistortion * 0.2).

(** All the calls of [drawHead]: the aura's three ellipses from the
    outermost in, the skull as one closed shape, the two eyes, the mouth as
    a closed shape with an ellipse inside. *)
Definition head_calls (baseDistortion : Vec) : list Cmd -> Prop :=
  in_sequence
    [exactly [Push; Translate 0 (-130)];
     exactly (aura_layer 3 ++ aura_layer 2 ++ aura_layer 1);
     exactly [Fill COLORS.HEAD_MAIN; NoStroke; BeginShape];
     swept in_turn (skull_vertex baseDistortion) 0;
     exactly [EndShape true];
     exactly (eye_calls baseDistortion (-1) ++ eye_calls baseDistortion 1);
     exactly [Fill [0]; BeginShape];
     swept in_turn (mouth_vertex baseDistortion) 0;
     exactly [EndShape true;
              Fill [0];
              Ellipse (vx baseDistortion * 0.3) (20 + vy baseDistortion * 0.3)
                (12 + ei * 2) (20 + ei * 3)];
     exactly [Pop]].

(** A loop over the angles of one turn, in steps of 0.1. *)
Lemma yields_turn {B} call body (k : unit -> M B) parts :
  (forall angle, yields gt ei df W H (body angle) (exactly [call angle])) ->
  yields gt ei df W H (k tt) (in_sequence parts) ->
  yields gt ei df W H
    (bind (forReal loop_fuel (fun angle => Rltb angle TWO_PI)
             (fun angle => angle + 0.1) 0 body) k)
    (in_sequence (swept in_turn call 0 :: parts)).
Proof.
  intros Hbody Hk. apply yields_bind; [|intros []; exact Hk].
  apply (yields_forReal _ _ _ _ _ (fun angle => 0 <= angle)).
  - lra.
  - apply Rltb_true, TWO_PI_pos.
  - intros t Ht Hc. apply Rltb_true_inv in Hc. unfold in_turn. lra.
  - exact Hbody.
Qed.

Lemma drawHead_yields baseDistortion :
  yields gt ei df W H (drawHead baseDistortion) (head_calls baseDistortion).
Proof.
  unfold drawHead, binding, drawHead_line304, drawHeadAura, drawSkullShape,
    drawFacialFeatures, drawMouth, head_calls, aura_layer, eye_calls.
  cbn [List.last forEach app Vector.mult vx vy]. cbv zeta.
  yield.
  apply yields_turn; [intros angle; apply yields_emit|].
  yield.
  apply yields_turn; [intros angle; yield; apply yields_emit|].
  yield.
Qed.

(** *** The atmosphere (lines 431-498) *)

Definition vignette_calls : list Cmd :=
  [CreateRadialGradient 0 0 (150 + sin gt * 5) 0 0 (400 + sin (gt * 0.5) * 10);
   AddColorStop 0 0 0 0 0;
   AddColorStop 0.7 0 0 0 ((0.08 + ei * 0.04) * 0.3);
   AddColorStop 1 0 0 0 (0.08 + ei * 0.04);
   FillStyleGradient;
   FillRect (- W / 2) (- H / 2) W H].

Definition glow_calls : list Cmd :=
  [Push;
   BlendModeOverlay;
   NoStroke;
   Fill [200 + sin gt * 8; 200 + sin (gt * 1.1) * 8; 190 + sin (gt * 1.2) * 8;
         ei * 0.04];
   Rect (- W / 2) (- H / 2) W H;
   Pop].

(** The noise pass reads the pixel buffer and writes one back. *)
Definition pixels_rewritten (out : list Cmd) : Prop :=
  exists px, out = [LoadPixels; UpdatePixels px].

(** All the calls of [addAtmosphericEffects]: the vignette, the noise pass,
    the glow. *)
Definition atmosphere_calls : list Cmd -> Prop :=
  in_sequence [exactly vignette_calls; pixels_rewritten; exactly glow_calls].

Lemma drawVignette_yields : yields gt ei df W H drawVignette (exactly vignette_calls).
Proof. apply yields_whole. unfold drawVignette, vignette_calls. yield. Qed.

Lemma addEmotionalGlow_yields :
  yields gt ei df W H addEmotionalGlow (exactly glow_calls).
Proof. apply yields_whole. unfold addEmotionalGlow, glow_calls. yield. Qed.

(** The loops of the noise pass issue nothing and do not fail: they change
    the pixel buffer and draw from the random stream. *)
Definition quiet {A} (m : M A) : Prop :=
  forall s, exists a px r, m s = (Ok a, set_pixels px (set_rpos r s)).

Lemma quiet_ret {A} (a : A) : quiet (ret a).
Proof. intros s. exists a, (pixels s), (rpos s). destruct s; reflexivity. Qed.

Lemma quiet_gets {A} (f : State -> A) : quiet (gets f).
Proof. intros s. exists (f s), (pixels s), (rpos s). destruct s; reflexivity. Qed.

Lemma quiet_random : quiet random.
Proof.
  intros s. exists (randoms s (rpos s)), (pixels s), (S (rpos s)).
  destruct s; reflexivity.
Qed.

Lemma quiet_set_pixels v : quiet (modify (set_pixels v)).
Proof. intros s. exists tt, v, (rpos s). destruct s; reflexivity. Qed.

Lemma quiet_bind {A B} (m : M A) (k : A -> M B) :
  quiet m -> (forall a, quiet (k a)) -> quiet (bind m k).
Proof.
  intros Hm Hk s. destruct (Hm s) as (a & px1 & r1 & E1). cbn [bind]. rewrite E1.
  destruct (Hk a (set_pixels px1 (set_rpos r1 s))) as (b & px2 & r2 & E2).
  rewrite E2. exists b, px2, r2. destruct s; reflexivity.
Qed.

Lemma quiet_forEach {A} (l : list A) body :
  (forall a, quiet (body a)) -> quiet (forEach l body).
Proof.
  intros Hb. induction l as [|a l IH]; cbn [forEach].
  - apply quiet_ret.
  - apply quiet_bind; [apply Hb | intros _; exact IH].
Qed.

Lemma noise_loops_quiet l :
  quiet (forEach l (fun y =>
           w <- gets width ;; forEach (below w) (fun x => noisePixel x y))).
Proof.
  unfold noisePixel, perturb, random2.
  repeat first
    [ progress intros
    | apply quiet_ret
    | apply quiet_gets
    | apply quiet_random
    | apply quiet_set_pixels
    | apply quiet_forEach
    | apply quiet_bind
    | match goal with
      | |- quiet (if ?c then _ else _) => destruct c
      | |- quiet (match ?x with _ => _ end) => destruct x
      end ].
Qed.

Lemma addNoiseToFigure_runs s :
  (forall n, faults s n = None) ->
  exists px r,
    addNoiseToFigure s =
      (Ok tt, emitted (UpdatePixels px) (set_pixels px (set_rpos r (pixels_loaded s)))).
Proof.
  intros Hf. unfold addNoiseToFigure, updatePixels. cbn [bind].
  rewrite (loadPixels_loads s (Hf _)). cbn [gets].
  destruct (noise_loops_quiet (below (height (pixels_loaded s))) (pixels_loaded s))
    as ([] & px & r & E).
  rewrite E. exists px, r.
  set (s2 := set_pixels px (set_rpos r (pixels_loaded s))).
  assert (Hf2 : faults s2 (calls s2) = None) by apply Hf.
  cbn [emit]. rewrite Hf2. reflexivity.
Qed.

Lemma addNoiseToFigure_yields :
  yields gt ei df W H addNoiseToFigure pixels_rewritten.
Proof.
  intros s Hs. destruct Hs as ([Hf Hff] & Hgt & Hei & Hdf & Hw & Hh).
  destruct (addNoiseToFigure_runs s Hf) as (px & r & E).
  rewrite E. cbn [state_of snd].
  exists tt, [LoadPixels; UpdatePixels px].
  split; [reflexivity|]. split; [|split].
  - repeat split; assumption.
  - cbn [emitted issued set_issued set_calls set_pixels set_rpos pixels_loaded].
    rewrite <- app_assoc. reflexivity.
  - exists px. reflexivity.
Qed.

Lemma addAtmosphericEffects_yields :
  yields gt ei df W H addAtmosphericEffects atmosphere_calls.
Proof.
  unfold addAtmosphericEffects, binding, addAtmosphericEffects_line431, atmosphere_calls.
  cbn [List.last].
  apply yields_bind; [apply drawVignette_yields | intros _].
  apply yields_bind; [apply addNoiseToFigure_yields | intros _].
  apply yields_last, addEmotionalGlow_yields.
Qed.

(** *** The body (lines 203-238) and its shadow (lines 169-178) *)

Definition body_left_vertex (baseDistortion : Vec) (t : R) : Cmd :=
  let y := p5.map t 0 1 (-120) 180 in
  let width := p5.map (sin (t * PI)) 0 1 30 40 in
  let distortion := Vector.mult baseDistortion (1 - t * 0.3) in
  let sway := sin (t * PI + gt) * (2 + ei) in
  Vertex (- width + sway + vx distortion) (y + vy distortion).

Definition body_right_vertex (baseDistortion : Vec) (t : R) : Cmd :=
  let y := p5.map t 0 1 (-120) 180 in
  let width := p5.map (sin (t * PI)) 0 1 30 40 in
  let distortion := Vector.mult baseDistortion (1 - t * 0.3) in
  let sway := sin (t * PI + gt) * (2 + ei) in
  Vertex (width + sway + vx distortion) (y + vy distortion).

(** All the calls of [drawBody]: one closed shape, its left side from the
    top down and its right side from the bottom up. *)
Definition body_calls (isShadow : bool) (baseDistortion : Vec) : list Cmd -> Prop :=
  in_sequence
    [exactly [Push;
              NoStroke;
              Fill ((if isShadow then COLORS.BODY_SHADOW else COLORS.BODY_MAIN) ++
                    [if isShadow then 0.25 else 0.95 + sin (gt * 0.5) * 0.05]);
              BeginShape];
     swept in_unit (body_left_vertex baseDistortion) 0;
     swept in_unit (body_right_vertex baseDistortion) 1;
     exactly [EndShape true; Pop]].

(** All the calls of [drawShadowLayer]: the body, and nothing else, moved by
    the shadow's offset. *)
Definition shadow_calls : list Cmd -> Prop :=
  in_sequence
    [exactly [Push; Translate (2 + sin (gt * 0.7) * 1.5) (2 + cos (gt * 0.7) * 1.5)];
     body_calls true (complexDistortion df 0 0 gt);
     exactly [Pop]].

Lemma yields_rising {B} call body (k : unit -> M B) parts :
  (forall t, yields gt ei df W H (body t) (exactly [call t])) ->
  yields gt ei df W H (k tt) (in_sequence parts) ->
  yields gt ei df W H
    (bind (forReal loop_fuel (fun t => Rleb t 1) (fun t => t + 0.02) 0 body) k)
    (in_sequence (swept in_unit call 0 :: parts)).
Proof.
  intros Hbody Hk. apply yields_bind; [|intros []; exact Hk].
  apply (yields_forReal _ _ _ _ _ (fun t => 0 <= t)).
  - lra.
  - apply Rleb_true. lra.
  - intros t Ht Hc. apply Rleb_true_inv in Hc. unfold in_unit. lra.
  - exact Hbody.
Qed.

Lemma yields_falling {B} call body (k : unit -> M B) parts :
  (forall t, yields gt ei df W H (body t) (exactly [call t])) ->
  yields gt ei df W H (k tt) (in_sequence parts) ->
  yields gt ei df W H
    (bind (forReal loop_fuel (fun t => Rgeb t 0) (fun t => t - 0.02) 1 body) k)
    (in_sequence (swept in_unit call 1 :: parts)).
Proof.
  intros Hbody Hk. apply yields_bind; [|intros []; exact Hk].
  apply (yields_forReal _ _ _ _ _ (fun t => t <= 1)).
  - lra.
  - apply Rleb_true. lra.
  - intros t Ht Hc. apply Rleb_true_inv in Hc. unfold in_unit. lra.
  - exact Hbody.
Qed.

Lemma drawBody_yields isShadow baseDistortion :
  yields gt ei df W H (drawBody isShadow baseDistortion)
    (body_calls isShadow baseDistortion).
Proof.
  unfold drawBody, body_calls. cbv zeta. yield.
  apply yields_rising; [intros t; yield; apply yields_emit|].
  apply yields_falling; [intros t; yield; apply yields_emit|].
  yield.
Qed.

Lemma drawShadowLayer_yields : yields gt ei df W H drawShadowLayer shadow_calls.
Proof.
  unfold drawShadowLayer, shadow_calls, drawFigure. cbn [negb vx vy]. yield.
  apply yields_bind; [apply drawBody_yields | intros _].
  yield.
Qed.

(** *** The arms (lines 243-288) *)

Definition arm_vertex (baseDistortion : Vec) (side : R) (i : nat) : Cmd :=
  let t := INR i / 7 in
  let y := -90 + t * 120 in
  let curve := sin (t * PI) * (35 + ei * 4) in
  let wave := sin (y * 0.02 + gt) * 3 in
  let distortion := Vector.mult baseDistortion (0.4 * (1 - t)) in
  CurveVertex (side * 32 + side * (curve + wave) + vx distortion) (y + vy distortion).

(** One arm: the patch that joins it to the body, then an open curve of
    eight points, stroked, the first and the last point given twice. *)
Definition arm_calls (baseDistortion : Vec) (side : R) : list Cmd :=
  [Push;
   NoStroke;
   Fill COLORS.BODY_MAIN;
   BeginShape;
   Vertex (side * 32 - side * 10) (-90 - 5);
   Vertex (side * 32 + side * 10) (-90 - 5);
   Vertex (side * 32 + side * 12) (-90 + 15);
   Vertex (side * 32 - side * 6) (-90 + 15);
   EndShape true;
   Stroke COLORS.ARMS_MAIN;
   StrokeWeight 9;
   NoFill;
   BeginShape;
   arm_vertex baseDistortion side 0;
   arm_vertex baseDistortion side 0;
   arm_vertex baseDistortion side 1;
   arm_vertex baseDistortion side 2;
   arm_vertex baseDistortion side 3;
   arm_vertex baseDistortion side 4;
   arm_vertex baseDistortion side 5;
   arm_vertex baseDistortion side 6;
   arm_vertex baseDistortion side 7;
   arm_vertex baseDistortion side 7;
   EndShape false;
   Pop].

Lemma drawArms_yields baseDistortion :
  yields gt ei df W H (drawArms baseDistortion)
    (exactly (arm_calls baseDistortion (-1) ++ arm_calls baseDistortion 1)).
Proof.
  apply yields_whole.
  unfold drawArms, drawArmConnection, arm_calls, arm_vertex.
  cbn [forEach seq Nat.eqb orb app]. cbv zeta.
  yield.
Qed.

(** *** A frame (lines 131-164) *)

(** All the calls of a frame: the background, the move to the centre of the
    canvas, the shadow, the figure (body, arms and head), the atmosphere. *)
Definition whole_frame : list Cmd -> Prop :=
  let baseDistortion := complexDistortion df 0 0 gt in
  in_sequence
    [exactly [Background (channel COLORS.BACKGROUND 0 + sin gt * 2)
                         (channel COLORS.BACKGROUND 1 + sin (gt * 1.1) * 2)
                         (channel COLORS.BACKGROUND 2 + sin (gt * 1.2) * 2);
              Translate (W / 2) (H / 2)];
     shadow_calls;
     body_calls false baseDistortion;
     exactly (arm_calls baseDistortion (-1) ++ arm_calls baseDistortion 1);
     head_calls baseDistortion;
     atmosphere_calls].

Lemma FlowField_update_yields time :
  yields gt ei df W H (FlowField_update time) (exactly []).
Proof.
  intros s ([Hf Hff] & Hs). destruct (flowfield s) as [ff|] eqn:E; [|congruence].
  destruct (FlowField_update_shape time s ff E) as (f & vs & Hexec).
  exists tt, []. rewrite Hexec. cbn [state_of snd].
  split; [reflexivity|]. split; [|split; [|reflexivity]].
  - split; [split; [exact Hf | discriminate] | exact Hs].
  - cbn. rewrite app_nil_r. reflexivity.
Qed.

Lemma yields_silent_bind {A B} (m : M A) (k : A -> M B) Q :
  yields gt ei df W H m (exactly []) ->
  (forall a, yields gt ei df W H (k a) Q) ->
  yields gt ei df W H (bind m k) Q.
Proof.
  intros Hm Hk.
  apply (yields_weaken _ _ _ _ _ _ (in_sequence [exactly []; Q])).
  - intros out (o1 & o2 & -> & -> & o3 & o4 & -> & HQ & ->).
    rewrite app_nil_r. exact HQ.
  - apply yields_bind; [exact Hm | intros a; apply yields_last, Hk].
Qed.

Lemma frame_yields :
  yields gt ei df W H
    (emit (Background (channel COLORS.BACKGROUND 0 + sin gt * 2)
                      (channel COLORS.BACKGROUND 1 + sin (gt * 1.1) * 2)
                      (channel COLORS.BACKGROUND 2 + sin (gt * 1.2) * 2)) ;;
     FlowField_update gt ;;
     w <- gets width ;;
     h <- gets height ;;
     emit (Translate (w / 2) (h / 2)) ;;
     drawShadowLayer ;;
     drawMainFigure ;;
     addAtmosphericEffects)
    whole_frame.
Proof.
  unfold whole_frame. cbv zeta. yield.
  apply yields_silent_bind; [apply FlowField_update_yields | intros _].
  yield.
  apply yields_bind; [apply drawShadowLayer_yields | intros _].
  unfold drawMainFigure, drawFigure. cbn [negb]. yield.
  apply yields_bind; [apply drawBody_yields | intros _]. yield.
  apply yields_bind; [apply drawArms_yields | intros _].
  apply yields_bind; [apply drawHead_yields | intros _].
  apply yields_last, addAtmosphericEffects_yields.
Qed.

End Calls.

(** A frame in which no p5 call fails, as a whole: [draw] sets the time and
    the intensity, and issues the calls of the frame for them. *)
Lemma draw_frame s :
  ready s ->
  let gt := INR (frameCount s) * 0.008 in
  let ei := p5.map (sin (gt * 0.3)) (-1) 1 0.5 1 in
  exists out,
    draw s = (Ok tt, state_of (draw s)) /\
    steady gt ei (distortionField s) (width s) (height s) (state_of (draw s)) /\
    issued (state_of (draw s)) = issued s ++ out /\
    whole_frame gt ei (distortionField s) (width s) (height s) out.
Proof.
  intros [Hf Hff] gt ei. unfold draw, draw_try. rewrite !try_gets.
  destruct (flowfield s) as [ff|] eqn:E; [clear Hff|congruence].
  cbn [not_object not_array orb].
  rewrite try_gets, try_modify, try_gets, try_modify, try_gets.
  match goal with |- context [try_catch _ _ ?st] => set (s1 := st) end.
  change (globalTime s1) with gt.
  assert (Hs1 : steady gt ei (distortionField s) (width s) (height s) s1).
  { split; [split; [exact Hf | subst s1; cbn; congruence]|]. repeat split. }
  destruct (frame_yields gt ei (distortionField s) (width s) (height s) s1 Hs1)
    as ([] & out & Hexec & Hsteady & Hissued & Hcalls).
  unfold state_of in *. cbn [try_catch]. rewrite Hexec in *. cbn [snd] in *.
  exists out. auto.
Qed.

(** ** The noise the atmosphere injects *)






(** X14: the shadow is the shadow of the body alone. Whatever the state, and
    even if a p5 call fails, drawShadowLayer issues nothing but push and pop,
    a translation by between 0.5 and 3.5 pixels to the right and downwards,
    and calls of a closed shape filled with COLORS.BODY.SHADOW at alpha 0.25
    and not stroked: no curveVertex, no ellipse and no stroke, so the arms
    and the head cast no shadow. And when no p5 call fails, it issues exactly
    these: push, one translation by the shadow's offset
    (2 + 1.5 sin(0.7 globalTime), 2 + 1.5 cos(0.7 globalTime)), the calls of
    drawBody for the shadow (push, noStroke, the fill, beginShape, the
    vertices of the left side for counter values from 0 on within [0, 1],
    those of the right side from 1 on within [0, 1], endShape(CLOSE), pop),
    and pop. *)
Theorem shadow_is_of_the_body_alone :
  only shadow_call drawShadowLayer /\
  (forall gt ei df W H, yields gt ei df W H drawShadowLayer (shadow_calls gt ei df)).
Proof. split; [exact drawShadowLayer_only | exact drawShadowLayer_yields]. Qed.

(** X17: a frame, call by call. In a frame in which the flow field exists
    and no p5 call fails, draw sets globalTime to frameCount * 0.008 and
    emotionalIntensity to map(sin(globalTime * 0.3), -1, 1, 0.5, 1), returns,
    and has issued exactly: the background and the translation to the centre
    of the canvas; the shadow; the body; the two arms, left then right, each
    a patch of four vertices and an open curve of ten curve vertices; the
    head; the vignette, the read and write of the pixel buffer, and the glow;
    every call with the arguments the source computes from the time, the
    intensity, the oscillators and the size of the canvas. The update of the
    flow field in between issues nothing. *)
Theorem frame_call_by_call s :
  ready s ->
  let gt := INR (frameCount s) * 0.008 in
  let ei := p5.map (sin (gt * 0.3)) (-1) 1 0.5 1 in
  let s' := state_of (draw s) in
  draw s = (Ok tt, s') /\
  globalTime s' = gt /\ emotionalIntensity s' = ei /\
  exists out,
    issued s' = issued s ++ out /\
    whole_frame gt ei (distortionField s) (width s) (height s) out.
Proof.
  intros Hs gt ei s'.
  destruct (draw_frame s Hs) as (out & Hexec & Hsteady & Hissued & Hcalls).
  destruct Hsteady as (_ & Hgt & Hei & _).
  split; [exact Hexec|]. split; [exact Hgt|]. split; [exact Hei|].
  exists out. split; [exact Hissued | exact Hcalls].
Qed.

(** ** The noise pass on a canvas of fractional size *)



End Sketch.

(** * Doubles

    The embedding above computes with real numbers; the sketch computes with
    IEEE 754 doubles. Where a statement is about an exact value the
    difference shows. This part embeds the arithmetic of doubles (finite
    values, rounding to nearest, ties to even; the range of the exponent is
    not modelled, the values below are far from its ends), and with it the
    vector of a flow-field cell (line 50) and the counters of the loops of
    [drawBody] (lines 215 and 226). *)
Module Binary64.

(** A finite double: [mantissa * 2 ^ exponent]. *)
Record double : Type := mkDouble { mantissa : Z; exponent : Z }.

(** The real number a double stands for. *)
Definition value (d : double) : R :=
  if (0 <=? exponent d)%Z then IZR (mantissa d * 2 ^ exponent d)
  else IZR (mantissa d) / IZR (2 ^ (- exponent d)).

(** [m * 2 ^ e], rounded to 53 significant bits: to the nearest, a tie to
    the even mantissa. With [inexact], the number rounded is one strictly
    between [m * 2 ^ e] and [(m + 1) * 2 ^ e], for an [m >= 0] of more than
    53 bits: then there is no tie. *)
Definition round_to_nearest (m e : Z) (inexact : bool) : double :=
  let excess := (Z.log2 (Z.abs m) + 1 - 53)%Z in
  if (excess <=? 0)%Z then mkDouble m e
  else
    let q := (Z.abs m / 2 ^ excess)%Z in
    let r := (Z.abs m mod 2 ^ excess)%Z in
    let half := (2 ^ (excess - 1))%Z in
    let q' :=
      if (r <? half)%Z then q
      else if (half <? r)%Z || inexact then (q + 1)%Z
      else if Z.even q then q else (q + 1)%Z in
    mkDouble (Z.sgn m * q') (e + excess).

Definition mul (a b : double) : double :=
  round_to_nearest (mantissa a * mantissa b) (exponent a + exponent b) false.

Definition add (a b : double) : double :=
  let e := Z.min (exponent a) (exponent b) in
  round_to_nearest
    (mantissa a * 2 ^ (exponent a - e) + mantissa b * 2 ^ (exponent b - e)) e false.

Definition opp (a : double) : double := mkDouble (- mantissa a) (exponent a).

Definition sub (a b : double) : double := add a (opp b).

(** [Math.sqrt], for a positive double: the integer square root of the
    mantissa, scaled by [2 ^ 128] or [2 ^ 129] so that the exponent is even
    and the root has more than 53 bits. *)
Definition sqrt (a : double) : double :=
  let shift := (128 + exponent a mod 2)%Z in
  let m := (mantissa a * 2 ^ shift)%Z in
  let root := Z.sqrt m in
  round_to_nearest root ((exponent a - shift) / 2) (negb (root * root =? m)%Z).

(** [a <= b] and [a < b]. *)
Definition leb (a b : double) : bool :=
  let e := Z.min (exponent a) (exponent b) in
  (mantissa a * 2 ^ (exponent a - e) <=? mantissa b * 2 ^ (exponent b - e))%Z.

Definition ltb (a b : double) : bool := negb (leb b a).

(** A [p5.Vector] with double components (the third is 0 throughout). *)
Record Vec64 : Type := createVec64 { x64 : double; y64 : double }.

(** [p5.Vector.fromAngle(angle)]: [Math.cos] and [Math.sin] are the
    engine's. *)
Definition fromAngle (Math_cos Math_sin : double -> double) (angle : double) : Vec64 :=
  createVec64 (Math_cos angle) (Math_sin angle).

(** [v.mult(n)] *)
Definition mult (v : Vec64) (n : double) : Vec64 :=
  createVec64 (mul (x64 v) n) (mul (y64 v) n).

(** [v.mag()]: [Math.sqrt(x * x + y * y + z * z)], with [z = 0]. *)
Definition mag (v : Vec64) : double :=
  sqrt (add (mul (x64 v) (x64 v)) (mul (y64 v) (y64 v))).

(** The number of rounds of [for (let t = t0; cond(t); t = next(t))], up to
    [fuel]. *)
Fixpoint rounds (fuel : nat) (cond : double -> bool) (next : double -> double)
    (t : double) : nat :=
  match fuel with
  | O => O
  | S fuel' => if cond t then S (rounds fuel' cond next (next t)) else O
  end.

(** The literals of the sketch: the doubles nearest to 0.15, 0.02, 0.1
    and 0.2. *)
Definition d_0_15 : double := mkDouble 5404319552844595 (-55).
Definition d_0_02 : double := mkDouble 5764607523034235 (-58).
Definition d_0_1 : double := mkDouble 7205759403792794 (-56).
Definition d_0_2 : double := mkDouble 7205759403792794 (-55).
Definition d_0 : double := mkDouble 0 0.
Definition d_1 : double := mkDouble 1 0.
Definition d_3 : double := mkDouble 3 0.

End Binary64.

(** The arithmetic at work: 0.1 + 0.2 is 0.30000000000000004, and the
    square root of 2 is 1.4142135623730951. *)
Lemma binary64_examples :
  Binary64.add Binary64.d_0_1 Binary64.d_0_2 = Binary64.mkDouble 5404319552844596 (-54) /\
  Binary64.sqrt (Binary64.mkDouble 2 0) = Binary64.mkDouble 6369051672525773 (-52).
Proof. split; vm_compute; reflexivity. Qed.

(** X18: in the program's arithmetic the two loops of drawBody run 50 rounds
    each: adding 0.02 fifty times to 0 gives 1.0000000000000004, which is
    not <= 1, and subtracting 0.02 fifty times from 1 gives -6.2e-16, which
    is not >= 0; so the outline of the body has 100 vertices, and neither
    loop runs a round for its end value. Over the reals the counters are 1
    and 0 after fifty steps, and both loops would run a 51st round. *)
Theorem drawBody_rounds_in_doubles :
  Binary64.rounds loop_fuel (fun t => Binary64.leb t Binary64.d_1)
    (fun t => Binary64.add t Binary64.d_0_02) Binary64.d_0 = 50%nat /\
  Binary64.rounds loop_fuel (fun t => Binary64.leb Binary64.d_0 t)
    (fun t => Binary64.sub t Binary64.d_0_02) Binary64.d_1 = 50%nat /\
  Nat.iter 50 (fun t => Binary64.add t Binary64.d_0_02) Binary64.d_0 =
    Binary64.mkDouble 4503599627370498 (-52) /\
  Nat.iter 50 (fun t => Binary64.sub t Binary64.d_0_02) Binary64.d_1 =
    Binary64.mkDouble (-178) (-58) /\
  Rleb (Nat.iter 50 (fun t => t + 0.02) 0) 1 = true /\
  Rgeb (Nat.iter 50 (fun t => t - 0.02) 1) 0 = true.
Proof.
  split; [vm_compute; reflexivity|]. split; [vm_compute; reflexivity|].
  split; [vm_compute; reflexivity|]. split; [vm_compute; reflexivity|].
  rewrite iter_step, iter_step_down, INR_IZR_INZ.
  change (Z.of_nat 50) with 50%Z.
  split; [|unfold Rgeb]; apply Rleb_true; lra.
Qed.

(** What C5 says of the magnitude, in the program's arithmetic: whatever the
    angle, the vector [fromAngle(angle).mult(particleSpeed)] has magnitude
    [particleSpeed]. *)
Definition magnitude_is_particleSpeed
    (Math_cos Math_sin : Binary64.double -> Binary64.double) : Prop :=
  forall angle,
    Binary64.value
      (Binary64.mag
         (Binary64.mult (Binary64.fromAngle Math_cos Math_sin angle) Binary64.d_0_15)) =
    Binary64.value Binary64.d_0_15.

(** [Math.cos(3)] and [Math.sin(3)]: -0.9899924966004454 and
    0.1411200080598672, the doubles nearest to the cosine and the sine of
    3. *)
Definition cos_3 : Binary64.double := Binary64.mkDouble (-8917059677578706) (-53).
Definition sin_3 : Binary64.double := Binary64.mkDouble 5084384125703515 (-55).

(** The cosine and the sine of 3 to 18 digits, from their series. *)
Fixpoint Zfact (n : nat) : Z :=
  match n with
  | O => 1%Z
  | S k => (Z.of_nat n * Zfact k)%Z
  end.

Lemma INR_fact n : INR (fact n) = IZR (Zfact n).
Proof.
  induction n as [|n IH].
  - reflexivity.
  - rewrite fact_simpl, mult_INR, IH. cbn [Zfact].
    rewrite mult_IZR, <- INR_IZR_INZ. reflexivity.
Qed.

(** Turns the partial sum in [H] into a sum of fractions of numerals. *)
Ltac series_in H term :=
  cbn [sum_f_R0 Nat.mul Nat.add] in H; unfold term in H;
  rewrite !INR_fact in H; cbn [Nat.mul Nat.add] in H;
  repeat match type of H with
         | context [Zfact ?n] =>
             let v := eval vm_compute in (Zfact n) in change (Zfact n) with v in H
         end.

Lemma sin_3_digits : 0.141120008059867222 < sin 3 < 0.141120008059867223.
Proof.
  pose proof (pre_sin_bound 3 8 ltac:(lra) ltac:(lra)) as [Hlo Hhi].
  unfold sin_approx in Hlo, Hhi.
  series_in Hlo sin_term. series_in Hhi sin_term.
  split; lra.
Qed.

Lemma cos_3_digits : -0.989992496600445458 < cos 3 < -0.989992496600445457.
Proof.
  pose proof (pre_cos_bound (3 / 2) 6 ltac:(lra) ltac:(lra)) as [Hlo Hhi].
  unfold cos_approx in Hlo, Hhi.
  series_in Hlo cos_term. series_in Hhi cos_term.
  replace (cos 3) with (cos (2 * (3 / 2))) by (f_equal; lra).
  rewrite cos_2a_cos.
  set (c := cos (3 / 2)) in *.
  assert (H1 : 0.0707372016677029100881 <= c <= 0.0707372016677029100882)
    by (split; lra).
  clear Hlo Hhi. split; nra.
Qed.

(** [cos_3] and [sin_3] are less than half a unit in the last place away
    from the cosine and the sine of 3: they are these numbers, correctly
    rounded. *)
Lemma cos_3_sin_3_correctly_rounded :
  Rabs (Binary64.value cos_3 - cos 3) < / 2 ^ 54 /\
  Rabs (Binary64.value sin_3 - sin 3) < / 2 ^ 56.
Proof.
  pose proof cos_3_digits. pose proof sin_3_digits.
  unfold Binary64.value, cos_3, sin_3.
  cbn [Binary64.mantissa Binary64.exponent Z.leb Z.compare].
  change (2 ^ (- (-55)))%Z with 36028797018963968%Z.
  change (2 ^ (- (-53)))%Z with 9007199254740992%Z.
  split; apply Rabs_def1; lra.
Qed.

(** These doubles, in decimal. *)
Lemma doubles_in_decimal :
  Rabs (Binary64.value Binary64.d_0_15 - 0.15) < 1e-17 /\
  Rabs (Binary64.value cos_3 - -0.9899924966004454) < 1e-16 /\
  Rabs (Binary64.value sin_3 - 0.1411200080598672) < 1e-16 /\
  Rabs (Binary64.value (Binary64.mkDouble 5404319552844594 (-55)) -
        0.14999999999999997) < 1e-17.
Proof.
  unfold Binary64.value, Binary64.d_0_15, cos_3, sin_3.
  cbn [Binary64.mantissa Binary64.exponent Z.leb Z.compare].
  change (2 ^ (- (-55)))%Z with 36028797018963968%Z.
  change (2 ^ (- (-53)))%Z with 9007199254740992%Z.
  repeat split; apply Rabs_def1; lra.
Qed.

(** The vector of a cell whose angle is 3, and its magnitude:
    0.14999999999999997, the double just below 0.15. *)
Lemma magnitude_at_3 :
  Binary64.mag
    (Binary64.mult (Binary64.createVec64 cos_3 sin_3) Binary64.d_0_15) =
  Binary64.mkDouble 5404319552844594 (-55).
Proof. vm_compute. reflexivity. Qed.

(** * The theorems at concrete inputs *)

Lemma ToUint8Clamp_IZR k : (0 <= k <= 255)%Z -> ToUint8Clamp (IZR k) = k.
Proof.
  intros Hk. unfold ToUint8Clamp.
  destruct (Z.eq_dec k 0%Z) as [->|H0]; [rewrite Rleb_true by lra; reflexivity|].
  assert (0 < IZR k) by (apply (IZR_lt 0); lia).
  rewrite Rleb_false by lra.
  destruct (Z.eq_dec k 255%Z) as [->|H255]; [rewrite Rleb_true by lra; reflexivity|].
  assert (IZR k < 255) by (apply IZR_lt; lia).
  rewrite Rleb_false by lra. rewrite ZfloorZ.
  rewrite Rltb_false by lra. rewrite Rltb_true by lra. reflexivity.
Qed.

(** A world to run the sketch in: a constant noise, a canvas that always
    reads as one dark, opaque pixel, a random stream, p5 calls that never
    throw. *)
Definition demo_noise : R -> R -> R -> R := fun _ _ _ => 0.5.

Definition demo_rasterize : list Cmd -> list Z := fun _ => [100; 100; 100; 255]%Z.

Definition demo_randoms : nat -> R := fun _ => 0.5.

Definition never_throws : nat -> option exn := fun _ => None.

(** The sketch after [setup]. *)
Definition demo_state : State := state_of (setup (initial demo_randoms never_throws)).

Lemma demo_reachable : reachable demo_noise demo_rasterize demo_state.
Proof.
  apply reachable_setup.
  - apply setup_returns; reflexivity.
  - intros n. unfold demo_randoms. lra.
Qed.

Lemma demo_faults n : faults demo_state n = None.
Proof.
  unfold demo_state.
  destruct (setup_initial demo_randoms never_throws) as (_ & _ & _ & _ & _ & _ & _ & ->).
  - apply setup_returns; reflexivity.
  - reflexivity.
Qed.

(** The flow field [setup] constructs. *)
Definition demo_flowfield : FlowField :=
  mkFlowField 20 30 40 (replicate 1200 None) 0.15.

(** A frame about to be drawn on the 600 x 800 canvas, given the stream of
    random values and the behaviour of p5. *)
Definition demo_frame (rs : nat -> R) (fs : nat -> option exn) : State :=
  mkState (Some demo_flowfield) 0 0.5 [] 600 800 0%nat [] true [] rs 0%nat fs 0%nat [] [].

(** The same sketch on a canvas of one pixel, as after a resize of the window
    to 1.25 x 1.25, at full emotional intensity. *)
Definition demo_pixel (rs : nat -> R) : State :=
  mkState (Some demo_flowfield) 0 1 [] 1 1 0%nat [] true [] rs 0%nat never_throws 0%nat [] [].

(** [demo_frame] with every cell of the field referring to one stored vector. *)
Definition demo_frame_flowing : State :=
  mkState (Some (mkFlowField 20 30 40 (replicate 1200 (Some 0%nat)) 0.15))
    0 0.5 [] 600 800 0%nat [] true [createVec 0.15 0] demo_randoms 0%nat
    never_throws 0%nat [] [].

Lemma emotionalIntensity_bounded_witness :
  intensity_bounded (step demo_noise demo_rasterize Frame demo_state) /\
  intensity_bounded
    (run demo_noise demo_rasterize [WindowResized 400 300; MouseMoved 3 4 0 0; Frame]
       demo_state).
Proof.
  pose proof (emotionalIntensity_bounded demo_noise demo_rasterize demo_state
                demo_reachable) as (Hframe & _ & Hrun).
  split.
  - exact (proj2 Hframe).
  - exact (Hrun [WindowResized 400 300] (MouseMoved 3 4 0 0) [Frame] eq_refl).
Defined.

Lemma windowResized_clamps_witness :
  let s' := state_of (windowResized demo_noise demo_rasterize 1000 500 demo_state) in
  width s' = p5.min (1000 * 0.8) 600 /\ height s' = p5.min (500 * 0.8) 800 /\
  width s' <= 600 /\ height s' <= 800.
Proof.
  pose proof (windowResized_clamps demo_noise demo_rasterize demo_state 1000 500
                demo_reachable) as (Hset & Hle & _).
  destruct (Hset (demo_faults _)) as (_ & Hw & Hh).
  cbv zeta. repeat split; [exact Hw | exact Hh | apply Hle | apply Hle].
Defined.

Lemma distortionField_fixed_witness :
  length (distortionField demo_state) = 8%nat /\
  distortionField (step demo_noise demo_rasterize Frame demo_state) =
    distortionField demo_state.
Proof.
  pose proof (distortionField_fixed demo_noise demo_rasterize demo_state
                demo_reachable) as (Hlen & _ & Hstep & _).
  split; [exact Hlen | apply Hstep].
Defined.

Definition always_throws : nat -> option exn := fun _ => Some "boom"%string.

Lemma draw_catch_all_witness :
  (let s := demo_frame demo_randoms always_throws in
   draw demo_noise demo_rasterize s =
     (Ok tt, draw_failed "boom"%string (state_of (draw_try demo_noise demo_rasterize s))) /\
   looping (state_of (draw demo_noise demo_rasterize s)) = false) /\
  (let s := initial demo_randoms never_throws in
   draw demo_noise demo_rasterize s = (Ok tt, draw_refused s) /\
   issued (state_of (draw demo_noise demo_rasterize s)) = issued s) /\
  (let s := state_of (setup (initial demo_randoms always_throws)) in
   distortionField s = [] /\
   draw demo_noise demo_rasterize s = (Ok tt, draw_refused s)).
Proof.
  split; [|split].
  - destruct (draw_catch_all demo_noise demo_rasterize
                (demo_frame demo_randoms always_throws)) as (Hthrow & _ & _).
    destruct (Hthrow "boom"%string eq_refl) as (Hd & Hl & _).
    split; [exact Hd | exact Hl].
  - destruct (draw_catch_all demo_noise demo_rasterize
                (initial demo_randoms never_throws)) as (_ & Hguard & _).
    destruct (Hguard eq_refl) as (Hd & _ & Hi & _).
    split; [exact Hd | exact Hi].
  - destruct (draw_catch_all demo_noise demo_rasterize
                (state_of (setup (initial demo_randoms always_throws))))
      as (_ & _ & _ & Hsetup).
    destruct (Hsetup demo_randoms always_throws eq_refl (or_intror eq_refl))
      as (Hd & _).
    split; [reflexivity | exact Hd].
Defined.


Lemma demo_grid_allocated : grid_allocated demo_flowfield.
Proof.
  unfold grid_allocated, demo_flowfield. cbn [cols rows field].
  split; [lia|]. split; [lia|]. reflexivity.
Qed.

Lemma FlowField_update_regenerates_witness :
  result_of (FlowField_update demo_noise 0 (demo_frame demo_randoms never_throws)) = Ok tt /\
  0.1499 <= Vector.mag (flow_vector demo_noise 0.15 0 3 4) <= 0.1501.
Proof.
  pose proof (FlowField_update_regenerates demo_noise demo_rasterize
                (demo_frame demo_randoms never_throws) demo_flowfield
                eq_refl demo_grid_allocated eq_refl) as (Hupd & Hmag & _).
  split; [apply (Hupd 0) | apply (Hmag 0 3%nat 4%nat)].
Defined.

Lemma getForce_total_and_pure_witness :
  exists l s',
    FlowField_getForce 10 10 1 demo_state = (Ok l, s') /\
    (length (vectors demo_state) <= l)%nat.
Proof.
  destruct (getForce_total_and_pure demo_noise demo_rasterize demo_state 10 10 1
              demo_reachable) as (ff & _ & _ & l & s' & Hexec & Hfresh & _).
  exists l, s'. split; [exact Hexec | exact Hfresh].
Defined.

Lemma demo_frames_differ :
  differ_only_in_flow_vectors (demo_frame demo_randoms never_throws) demo_frame_flowing.
Proof.
  unfold differ_only_in_flow_vectors. cbn.
  repeat split; first [ discriminate | reflexivity ].
Qed.

Lemma figure_ignores_flow_field_witness :
  issued (state_of (draw demo_noise demo_rasterize (demo_frame demo_randoms never_throws))) =
  issued (state_of (draw demo_noise demo_rasterize demo_frame_flowing)).
Proof.
  pose proof (figure_ignores_flow_field demo_noise demo_rasterize _ _ demo_frames_differ)
    as (_ & _ & Hdraw & _).
  exact Hdraw.
Defined.

Lemma demo_pixels_same_parameters rs1 rs2 :
  same_parameters (demo_pixel rs1) (demo_pixel rs2).
Proof. repeat split. Qed.

Lemma renderers_deterministic_witness :
  same_output drawVignette (demo_pixel (fun _ => 0)) (demo_pixel demo_randoms).
Proof.
  pose proof (renderers_deterministic demo_rasterize _ _
                (demo_pixels_same_parameters (fun _ => 0) demo_randoms))
    as (_ & _ & _ & Hvignette & _).
  exact Hvignette.
Defined.

Lemma demo_frame_ready : ready (demo_frame demo_randoms never_throws).
Proof. split; [reflexivity | discriminate]. Qed.


(** ** Where the claims fail *)

(** C2 as it is stated does not hold: no two runs that differ only in the
    flow field's vectors issue different drawing calls, in a frame or in a
    call of drawFigure, whatever the noise function and the canvas. *)
Lemma flow_field_never_reaches_figure :
  ~ exists noise rasterize, figure_depends_on_flow_field noise rasterize.
Proof.
  intros (noise & rasterize & s1 & s2 & H & [Hd | (isShadow & Hd)]); apply Hd.
  - apply (draw_respects_flow noise rasterize s1 s2 H).
  - apply (drawFigure_respects isShadow s1 s2 (differ_same_parameters s1 s2 H)).
Qed.

Lemma dark_pixel_after_noise rs :
  pixels (state_of (addNoiseToFigure demo_rasterize (demo_pixel rs))) =
  [perturbed 100 (noise_amount (demo_pixel rs) 0);
   perturbed 100 (noise_amount (demo_pixel rs) 0);
   perturbed 100 (noise_amount (demo_pixel rs) 0); 255%Z].
Proof.
  apply addNoiseToFigure_one_pixel; try reflexivity.
  apply dark_spec. lra.
Qed.

Lemma perturbed_by_0 : perturbed 100 (noise_amount (demo_pixel demo_randoms) 0) = 100%Z.
Proof.
  unfold perturbed, noise_amount, demo_randoms. cbn [randoms emotionalIntensity demo_pixel].
  replace (100 + (0.5 * (6 - -6) + -6) * 1) with (IZR 100) by lra.
  rewrite constrain_id by lra. apply ToUint8Clamp_IZR. lia.
Qed.

Lemma perturbed_by_minus_6 : perturbed 100 (noise_amount (demo_pixel (fun _ => 0)) 0) = 94%Z.
Proof.
  unfold perturbed, noise_amount. cbn [randoms emotionalIntensity demo_pixel].
  replace (100 + (0 * (6 - -6) + -6) * 1) with (IZR 94) by lra.
  rewrite constrain_id by lra. apply ToUint8Clamp_IZR. lia.
Qed.

(** C8 as it is stated does not hold of the noise injection: on a canvas of
    one dark pixel (100, 100, 100), two runs of addNoiseToFigure from states
    that are the same in everything but the values random() returns (0 in
    one, 0.5 in the other) leave the pixel at (94, 94, 94) in one and at
    (100, 100, 100) in the other. *)
Lemma noise_injection_not_deterministic :
  ~ deterministic (addNoiseToFigure demo_rasterize).
Proof.
  intros H.
  destruct (H (demo_pixel (fun _ => 0)) (demo_pixel demo_randoms)) as [_ Hpx];
    try reflexivity.
  rewrite !dark_pixel_after_noise, perturbed_by_0, perturbed_by_minus_6 in Hpx.
  discriminate.
Qed.










(** C5 as it is stated does not hold, whatever [Math.cos] and [Math.sin]
    are at other angles: with the values they return at 3, the vector update
    computes for a cell whose angle is 3 has the magnitude
    0.14999999999999997, not 0.15. *)
Lemma flow_vector_magnitude_is_rounded :
  ~ exists Math_cos Math_sin : Binary64.double -> Binary64.double,
      Math_cos Binary64.d_3 = cos_3 /\ Math_sin Binary64.d_3 = sin_3 /\
      magnitude_is_particleSpeed Math_cos Math_sin.
Proof.
  intros (Math_cos & Math_sin & Hcos & Hsin & Hall).
  specialize (Hall Binary64.d_3).
  unfold Binary64.fromAngle in Hall. rewrite Hcos, Hsin, magnitude_at_3 in Hall.
  unfold Binary64.value, Binary64.d_0_15 in Hall.
  cbn [Binary64.mantissa Binary64.exponent Z.leb Z.compare] in Hall.
  change (2 ^ (- (-55)))%Z with 36028797018963968%Z in Hall.
  lra.
Qed.

(** ** The further properties at concrete inputs *)

Lemma demo_looping : looping demo_state = true.
Proof. apply setup_leaves_looping. reflexivity. Qed.

Lemma demo_size : width demo_state = 600 /\ height demo_state = 800.
Proof.
  unfold demo_state.
  destruct (setup_initial demo_randoms never_throws) as (_ & _ & Hw & Hh & _).
  - apply setup_returns; reflexivity.
  - split; assumption.
Qed.

Lemma frame_forgets_pointer_moves_witness :
  step demo_noise demo_rasterize Frame
    (run demo_noise demo_rasterize [MouseMoved 3 4 0 0; MouseMoved 0 0 3 4] demo_state) =
  step demo_noise demo_rasterize Frame demo_state.
Proof.
  exact (proj1 (frame_forgets_pointer_moves demo_noise demo_rasterize demo_state
                  [MouseMoved 3 4 0 0; MouseMoved 0 0 3 4] demo_reachable eq_refl)).
Defined.

Lemma pointer_moves_only_raise_witness :
  exists v,
    run demo_noise demo_rasterize [MouseMoved 0 0 3 4; MouseMoved 800 0 0 0]
      (demo_frame demo_randoms never_throws) =
    set_emotionalIntensity v (demo_frame demo_randoms never_throws) /\
    0.5 <= v <= 1.
Proof.
  destruct (pointer_moves_only_raise demo_noise demo_rasterize
              (demo_frame demo_randoms never_throws)
              [MouseMoved 0 0 3 4; MouseMoved 800 0 0 0]) as (v & Hrun & Hv & _).
  - reflexivity.
  - cbn [emotionalIntensity demo_frame]. lra.
  - exists v. split; [exact Hrun | exact Hv].
Defined.

Lemma getComplexDistortion_bounded_witness :
  exists v,
    getComplexDistortion 0 (-130) 1 demo_state = (Ok v, demo_state) /\
    Rabs (vx v) <= 24 /\ Rabs (vy v) <= 24.
Proof.
  destruct (getComplexDistortion_bounded demo_noise demo_rasterize demo_state 0 (-130) 1)
    as (v & Hexec & _ & _ & _ & Hsmall).
  exists v. split; [exact Hexec | exact (Hsmall demo_reachable)].
Defined.

Lemma setup_failure_modes_witness :
  result_of (setup (initial demo_randoms always_throws)) = Throw "boom"%string /\
  flowfield (state_of (setup (initial demo_randoms always_throws))) = None.
Proof.
  destruct (setup_failure_modes demo_randoms always_throws) as (Hthrow & _).
  destruct (Hthrow "boom"%string eq_refl) as (Hr & Hff & _).
  split; [exact Hr | exact Hff].
Defined.

Lemma frames_keep_running_witness :
  looping (animate demo_noise demo_rasterize 3 demo_state) = true /\
  frameCount (animate demo_noise demo_rasterize 3 demo_state) =
    (frameCount demo_state + 3)%nat.
Proof.
  destruct (frames_keep_running demo_noise demo_rasterize demo_state 3
              demo_reachable demo_faults demo_looping) as (Hl & _ & Hf & _).
  split; [exact Hl | exact Hf].
Defined.

Lemma flow_grid_fixed_witness :
  flowfield_as_constructed
    (run demo_noise demo_rasterize [WindowResized 100 100; Frame] demo_state).
Proof.
  destruct (flow_grid_fixed demo_noise demo_rasterize demo_state demo_reachable)
    as (_ & Hrun & _).
  apply Hrun.
Defined.

Lemma getForce_after_update_witness :
  exists l s2,
    FlowField_getForce 650 (-10) 2
      (state_of (FlowField_update demo_noise 0 demo_state)) = (Ok l, s2) /\
    vectors s2 !! l =
      Some (Vector.mult
              (flow_vector demo_noise 0.15 0
                 (Z.to_nat (p5.floor (p5.constrain (650 / 20) 0 (30 - 1))))
                 (Z.to_nat (p5.floor (p5.constrain (-10 / 20) 0 (40 - 1)))))
              2).
Proof.
  destruct (getForce_after_update demo_noise demo_rasterize demo_state 0 650 (-10) 2
              demo_reachable) as (_ & _ & l & s2 & Hexec & Hl).
  exists l, s2. split; [exact Hexec | exact Hl].
Defined.

Lemma demo_pixel_bytes : Forall (fun byte => (0 <= byte <= 255)%Z) (demo_rasterize []).
Proof. repeat constructor; lia. Qed.

Lemma addNoiseToFigure_within_6_witness :
  exists now,
    pixels (state_of (addNoiseToFigure demo_rasterize (demo_pixel demo_randoms))) !! 0%nat =
      Some now /\
    (100 - 6 <= now <= 100 + 6)%Z.
Proof.
  destruct (addNoiseToFigure_within_6 demo_rasterize (demo_pixel demo_randoms) 1 1)
    as (_ & Hnear).
  - reflexivity.
  - reflexivity.
  - reflexivity.
  - exact demo_pixel_bytes.
  - reflexivity.
  - cbn [emotionalIntensity demo_pixel]. lra.
  - intros k. cbn [randoms demo_pixel]. unfold demo_randoms. lra.
  - destruct (Hnear 0%nat ltac:(lia)) as (before & now & Hb & Hn & Hclose).
    injection Hb as <-. exists now. split; [exact Hn | exact Hclose].
Defined.

Lemma addNoiseToFigure_draws_per_dark_pixel_witness :
  rpos (state_of (addNoiseToFigure demo_rasterize (demo_pixel demo_randoms))) = 1%nat.
Proof.
  destruct (addNoiseToFigure_draws_per_dark_pixel demo_rasterize
              (demo_pixel demo_randoms) 1 1 eq_refl eq_refl eq_refl eq_refl)
    as (Hdraws & _).
  rewrite Hdraws. cbn [rpos demo_pixel Nat.mul Nat.add dark_pixels].
  unfold dark_at, demo_rasterize. cbn [lookup list_lookup Nat.mul Nat.add].
  rewrite (proj1 (dark_spec 100 100 100)) by lra. reflexivity.
Defined.

Lemma frame_well_nested_witness :
  exists pen,
    follows well_nested frame_start (frame_calls demo_noise demo_rasterize demo_state) pen /\
    saved pen = [] /\ in_shape pen = false.
Proof.
  destruct (frame_well_nested demo_noise demo_rasterize demo_state demo_reachable)
    as (pen & Hfollows & Hdone).
  exists pen. split; [exact Hfollows | exact (Hdone demo_faults)].
Defined.

Lemma figure_stays_in_box_witness :
  exists pen,
    follows (on_canvas 600 800) frame_start
      (frame_calls demo_noise demo_rasterize demo_state) pen.
Proof.
  destruct (figure_stays_in_box demo_noise demo_rasterize demo_state demo_reachable)
    as (pen & _ & Hcanvas).
  destruct demo_size as [Hw Hh]. rewrite Hw, Hh in Hcanvas.
  exists pen. apply Hcanvas; lra.
Defined.

Lemma frame_colors_in_range_witness :
  Forall painted (frame_calls demo_noise demo_rasterize demo_state).
Proof.
  exact (frame_colors_in_range demo_noise demo_rasterize demo_state demo_reachable).
Defined.

Lemma FlowField_update_one_object_per_cell_witness :
  exists ff',
    flowfield (state_of (FlowField_update demo_noise 0 (demo_frame demo_randoms never_throws))) =
      Some ff' /\
    field ff' !! (3 + 4 * 30)%nat = Some (Some (3 * 40 + 4)%nat).
Proof.
  destruct (FlowField_update_one_object_per_cell demo_noise
              (demo_frame demo_randoms never_throws) demo_flowfield 0
              eq_refl demo_grid_allocated) as (ff' & Hff & Hcell & _).
  exists ff'. split; [exact Hff|].
  apply (Hcell 3%nat 4%nat); cbn; lia.
Defined.

Lemma new_FlowField_covers_canvas_witness :
  exists ff,
    new_FlowField 20 (demo_frame demo_randoms never_throws) =
      (Ok ff, demo_frame demo_randoms never_throws) /\
    length (field ff) = 1200%nat.
Proof.
  destruct (new_FlowField_covers_canvas (demo_frame demo_randoms never_throws) 20)
    as (_ & _ & _ & _ & Hok & _).
  - lra.
  - cbn [width demo_frame]. lra.
  - cbn [height demo_frame]. lra.
  - cbn [width height demo_frame] in Hok. rewrite ceil_600_20, ceil_800_20 in Hok.
    destruct (Hok ltac:(lia)) as (ff & Hexec & _ & _ & _ & _ & Hlen & _).
    exists ff. split; [exact Hexec | exact Hlen].
Defined.

Lemma frame_call_by_call_witness :
  let s := demo_frame demo_randoms never_throws in
  draw demo_noise demo_rasterize s = (Ok tt, state_of (draw demo_noise demo_rasterize s)) /\
  globalTime (state_of (draw demo_noise demo_rasterize s)) = INR 0 * 0.008.
Proof.
  destruct (frame_call_by_call demo_noise demo_rasterize _ demo_frame_ready)
    as (Hexec & Hgt & _).
  split; [exact Hexec | exact Hgt].
Defined.
